(** * mini_redis: the TTL key-value store and its lifecycle components

    A shallow embedding of the storage engine of the repository
    (src/core/thread_safe_hash_map.hpp, src/core/key_value_store.cpp,
    src/core/expiry_manager.cpp, src/network/socket.cpp and
    src/network/tcp_server.cpp) together with the properties the
    specification states about it.

    Conventions.
    - A [std::unordered_map<Key, Value>] is a [gmap Key Value].  The order
      in which the C++ container is traversed is unspecified: it is a
      parameter, [ThreadSafeHashMap.IterationOrder], and every statement
      about a traversal holds for every order.
    - [std::chrono::steady_clock] is an explicit piece of state: each call of
      [now()] is one reading, and time may pass between two readings but
      never runs backwards.
    - Every method of the map runs under the map's own lock, so one method
      call is one atomic state transformer. *)

From Stdlib Require Import ZArith Lia.
From stdpp Require Import gmap strings list fin_maps pretty.

Local Open Scope Z_scope.

(* ===================================================================== *)
(** * std::chrono::steady_clock *)
(* ===================================================================== *)

Module Chrono.

(** [steady_clock::time_point]: a signed tick count since the clock's
    epoch.  The representation is taken wide enough for the run time of
    the process, so additions do not overflow. *)
Definition time_point : Type := Z.

(** [steady_clock::period] is [std::nano] in libstdc++, libc++ and the
    MSVC library: one second is 10^9 ticks. *)
Definition ticks_per_second : Z := 1000000000.

(** [std::chrono::seconds(n)] converted to the clock's duration. *)
Definition seconds (n : Z) : Z := n * ticks_per_second.

(** The clock: the value of its latest reading, the number of readings
    taken so far, and the time that passes before each reading.  The
    amounts are naturals: the clock is monotonic by construction. *)
Record steady_clock : Type := mk_clock {
  last : time_point;
  reads : nat;
  elapse : nat -> N
}.

(** [steady_clock::now()]. *)
Definition now (c : steady_clock) : time_point * steady_clock :=
  let t := last c + Z.of_N (elapse c (reads c)) in
  (t, {| last := t; reads := S (reads c); elapse := elapse c |}).

(** The reading returned by the [i]-th next call of [now()] (from 0). *)
Fixpoint nth_reading (c : steady_clock) (i : nat) : time_point :=
  match i with
  | O => fst (now c)
  | S j => nth_reading (snd (now c)) j
  end.

(** The clock after [n] more readings. *)
Fixpoint after_reads (c : steady_clock) (n : nat) : steady_clock :=
  match n with
  | O => c
  | S j => after_reads (snd (now c)) j
  end.

(** A clock standing at [t] whose next readings are spaced as [gaps]
    says, and which stands still once [gaps] is used up. *)
Definition clock_at (t : time_point) (gaps : list N) : steady_clock :=
  {| last := t; reads := 0; elapse := fun i => nth i gaps 0%N |}.

End Chrono.

(* ===================================================================== *)
(** * ThreadSafeHashMap<Key, Value> (thread_safe_hash_map.hpp) *)
(* ===================================================================== *)

Module ThreadSafeHashMap.

(** The order in which a range-for or an iterator goes through a
    [std::unordered_map] is unspecified: it depends on the hash function,
    on the number of buckets and on the insertions and erasures the
    container has seen.  The development takes it as a parameter:
    [enumerate map_] is the sequence of the entries of [map_] from
    [begin()] to [end()], each entry once, in an order of which nothing
    else is known.  Every arrangement of the entries of a map is the
    traversal of some [IterationOrder]
    ([every_enumeration_is_an_order]). *)
Class IterationOrder (Key Value : Type) `{Countable Key} : Type :=
  mk_order {
    enumerate : gmap Key Value -> list (Key * Value);
    enumerate_entries : forall map_, enumerate map_ ≡ₚ map_to_list map_
  }.

Section Map.
Context {Key : Type} `{Countable Key} {Value : Type}.
Context `{!IterationOrder Key Value}.

(** [get]: [map_.find(key)], [nullopt] at [end()]. *)
Definition get (map_ : gmap Key Value) (key : Key) : option Value :=
  map_ !! key.

(** [set]: [map_.insert_or_assign(key, value)]. *)
Definition set (map_ : gmap Key Value) (key : Key) (value : Value)
  : gmap Key Value :=
  <[key := value]> map_.

(** [remove]: [map_.erase(key) > 0], with the map after the erasure. *)
Definition remove (map_ : gmap Key Value) (key : Key)
  : bool * gmap Key Value :=
  (bool_decide (is_Some (map_ !! key)), delete key map_).

(** [keys]: the keys pushed back in traversal order. *)
Definition keys (map_ : gmap Key Value) : list Key :=
  (enumerate map_).*1.

(** The body of the range-for of [for_each] over the entries still to
    visit.  The callback is a closure: [St] is whatever it captures and
    mutates. *)
Fixpoint for_each_loop {St : Type} (callback : Key -> Value -> St -> St)
    (its : list (Key * Value)) (s : St) : St :=
  match its with
  | [] => s
  | (key, value) :: rest => for_each_loop callback rest (callback key value s)
  end.

(** [for_each]: the map itself is [const] here and is not returned. *)
Definition for_each {St : Type} (callback : Key -> Value -> St -> St)
    (map_ : gmap Key Value) (s : St) : St :=
  for_each_loop callback (enumerate map_) s.

(** The erase-and-advance loop of [remove_if].  [its] are the entries
    from the iterator [it] to [end()]: erasing from an unordered_map
    keeps the relative order of the other elements, so the iterator
    returned by [erase] continues with [rest].  The predicate is a
    [std::function] and may read or change state [St] of its own. *)
Fixpoint remove_if_loop {St : Type}
    (predicate : Key -> Value -> St -> bool * St)
    (its : list (Key * Value)) (map_ : gmap Key Value)
    (removed_count : nat) (s : St) : nat * gmap Key Value * St :=
  match its with
  | [] => (removed_count, map_, s)
  | (key, value) :: rest =>
      let '(hit, s') := predicate key value s in
      if hit
      then remove_if_loop predicate rest (delete key map_)
             (S removed_count) s'
      else remove_if_loop predicate rest map_ removed_count s'
  end.

(** [remove_if]: the count returned, the map left behind and the state
    of the predicate. *)
Definition remove_if {St : Type}
    (predicate : Key -> Value -> St -> bool * St)
    (map_ : gmap Key Value) (s : St) : nat * gmap Key Value * St :=
  remove_if_loop predicate (enumerate map_) map_ 0%nat s.

(** A predicate without state of its own, as a [remove_if] argument. *)
Definition pure_predicate (p : Key -> Value -> bool)
  : Key -> Value -> unit -> bool * unit :=
  fun key value u => (p key value, u).

(** [size]: [map_.size()]. *)
Definition size (map_ : gmap Key Value) : nat := base.size map_.

End Map.

Section Orders.
Context {Key : Type} `{Countable Key} {Value : Type}.

(** Two orders, for the examples: the one of [map_to_list] and its
    reverse. *)
Definition canonical : IterationOrder Key Value :=
  {| enumerate := map_to_list;
     enumerate_entries := fun map_ => reflexivity (map_to_list map_) |}.

Definition reversed : IterationOrder Key Value :=
  {| enumerate := fun map_ => reverse (map_to_list map_);
     enumerate_entries := fun map_ => reverse_Permutation (map_to_list map_) |}.

End Orders.
End ThreadSafeHashMap.

(* ===================================================================== *)
(** * KeyValueStore (key_value_store.hpp, key_value_store.cpp) *)
(* ===================================================================== *)

Module KeyValueStore.
Import Chrono.

(** [struct StoreEntry]. *)
Record StoreEntry : Type := mk_entry {
  value : string;
  expires_at : option time_point
}.

(** What a method of the store can touch: its member [store_] and the
    process-wide steady clock.  The lines written through [Logger] are
    not part of either and are left out. *)
Record State : Type := mk_state {
  store_ : gmap string StoreEntry;
  clock : steady_clock
}.

(** [is_expired]: the clock is read only when the entry has an expiry. *)
Definition is_expired (entry : StoreEntry) (c : steady_clock)
  : bool * steady_clock :=
  match expires_at entry with
  | None => (false, c)
  | Some t => let '(n, c') := now c in (bool_decide (t <= n), c')
  end.

(** [calculate_expiry]. *)
Definition calculate_expiry (ttl_seconds : Z) (c : steady_clock)
  : option time_point * steady_clock :=
  if bool_decide (ttl_seconds <= 0)
  then (None, c)
  else let '(n, c') := now c in (Some (n + seconds ttl_seconds), c').

(** [get]: lazy deletion on access. *)
Definition get (key : string) (st : State) : option string * State :=
  match ThreadSafeHashMap.get (store_ st) key with
  | None => (None, st)
  | Some entry =>
      let '(expired, c') := is_expired entry (clock st) in
      if expired
      then (None,
            {| store_ := snd (ThreadSafeHashMap.remove (store_ st) key);
               clock := c' |})
      else (Some (value entry), {| store_ := store_ st; clock := c' |})
  end.

(** [set]. *)
Definition set (key value : string) (ttl_seconds : Z) (st : State) : State :=
  let '(expiry, c') := calculate_expiry ttl_seconds (clock st) in
  {| store_ := ThreadSafeHashMap.set (store_ st) key (mk_entry value expiry);
     clock := c' |}.

(** [remove]. *)
Definition remove (key : string) (st : State) : bool * State :=
  let '(removed, m) := ThreadSafeHashMap.remove (store_ st) key in
  (removed, {| store_ := m; clock := clock st |}).

(** The lambda handed to [for_each] by [keys]: it captures [result] by
    reference and consults the clock through [is_expired]. *)
Definition keys_callback (key : string) (entry : StoreEntry)
    (s : list string * steady_clock) : list string * steady_clock :=
  let '(expired, c') := is_expired entry (snd s) in
  if expired then (fst s, c') else (fst s ++ [key], c').

(** [keys]. *)
Definition keys `{!ThreadSafeHashMap.IterationOrder string StoreEntry}
    (st : State) : list string * State :=
  let '(result, c') :=
    ThreadSafeHashMap.for_each keys_callback (store_ st) ([], clock st) in
  (result, {| store_ := store_ st; clock := c' |}).

(** The lambda handed to [remove_if] by [cleanup_expired]. *)
Definition cleanup_predicate (_ : string) (entry : StoreEntry)
    (c : steady_clock) : bool * steady_clock :=
  is_expired entry c.

(** [cleanup_expired]. *)
Definition cleanup_expired
    `{!ThreadSafeHashMap.IterationOrder string StoreEntry}
    (st : State) : nat * State :=
  let '(count, m, c') :=
    ThreadSafeHashMap.remove_if cleanup_predicate (store_ st) (clock st) in
  (count, {| store_ := m; clock := c' |}).

End KeyValueStore.

(* ===================================================================== *)
(** * Vocabulary of the statements *)
(* ===================================================================== *)

Module Timing.
Import Chrono KeyValueStore.

(** Has the entry expired at time [t]?  ([now >= expires_at].) *)
Definition expired_at (t : time_point) (entry : StoreEntry) : bool :=
  match expires_at entry with
  | None => false
  | Some x => bool_decide (x <= t)
  end.

(** The number of clock readings a traversal of [its] has taken when it
    reaches position [i]: one for each earlier entry with an expiry. *)
Fixpoint readings_before (its : list (string * StoreEntry)) (i : nat) : nat :=
  match i, its with
  | S j, (_, entry) :: rest =>
      (match expires_at entry with Some _ => 1 | None => 0 end
       + readings_before rest j)%nat
  | _, _ => 0%nat
  end.

(** The clock reading against which a traversal of [its] that starts
    with the clock [c] judges the entry at position [i]. *)
Definition inspected_at (c : steady_clock)
    (its : list (string * StoreEntry)) (i : nat) : time_point :=
  nth_reading c (readings_before its i).

(** The answers a predicate with state gives along a traversal. *)
Fixpoint verdicts {Key Value St : Type}
    (predicate : Key -> Value -> St -> bool * St)
    (its : list (Key * Value)) (s : St) : list bool :=
  match its with
  | [] => []
  | (key, value) :: rest =>
      let '(hit, s') := predicate key value s in
      hit :: verdicts predicate rest s'
  end.

(** How many of the answers were [true]. *)
Fixpoint hits (vs : list bool) : nat :=
  match vs with
  | [] => 0%nat
  | hit :: rest => ((if hit then 1 else 0) + hits rest)%nat
  end.

(** The state of such a predicate after the traversal. *)
Fixpoint final_state {Key Value St : Type}
    (predicate : Key -> Value -> St -> bool * St)
    (its : list (Key * Value)) (s : St) : St :=
  match its with
  | [] => s
  | (key, value) :: rest =>
      final_state predicate rest (snd (predicate key value s))
  end.

(** The keys of the entries whose answer was [false], in order. *)
Fixpoint spared {Key Value : Type} (vs : list bool)
    (its : list (Key * Value)) : list Key :=
  match vs, its with
  | hit :: vs', (key, _) :: rest =>
      if hit then spared vs' rest else key :: spared vs' rest
  | _, _ => []
  end.

(** The requests of the protocol front end, and the sweep. *)
Inductive Request : Type :=
| GET (key : string)
| SET (key value : string) (ttl_seconds : Z)
| DELETE (key : string)
| LIST
| SWEEP.

(** Serving one request.  The time that passes between two requests is
    part of the clock. *)
Definition serve `{!ThreadSafeHashMap.IterationOrder string StoreEntry}
    (r : Request) (st : State) : State :=
  match r with
  | GET key => snd (get key st)
  | SET key value ttl_seconds => set key value ttl_seconds st
  | DELETE key => snd (remove key st)
  | LIST => snd (keys st)
  | SWEEP => snd (cleanup_expired st)
  end.

Fixpoint serve_all `{!ThreadSafeHashMap.IterationOrder string StoreEntry}
    (rs : list Request) (st : State) : State :=
  match rs with
  | [] => st
  | r :: rest => serve_all rest (serve r st)
  end.

(** Does the request write the key [k] on purpose? *)
Definition writes (k : string) (r : Request) : bool :=
  match r with
  | SET key _ _ | DELETE key => bool_decide (key = k)
  | GET _ | LIST | SWEEP => false
  end.

End Timing.

(* ===================================================================== *)
(** * Concrete stores and clocks *)
(* ===================================================================== *)

Module Scenario.
Import Chrono KeyValueStore.

(** An empty store at the clock's epoch; the next readings of the clock
    are spaced as [gaps] says. *)
Definition fresh (gaps : list N) : State :=
  {| store_ := ∅; clock := clock_at 0 gaps |}.

(** Two keys set one second apart, for two seconds and for one second:
    both are due three seconds after the epoch.  The next two readings
    of the clock are 2.9 s and 3.0 s. *)
Definition twins : State :=
  set "b" "y" 1 (set "a" "x" 2
    (fresh [1000000000; 1000000000; 900000000; 100000000]%N)).

(** A permanent key and two keys that are both due five seconds after the
    epoch.  The next two readings of the clock are one tick before that
    instant and the instant itself. *)
Definition trio : State :=
  set "t2" "v2" 3 (set "t1" "v1" 4 (set "permanent" "stays forever" 0
    (fresh [1000000000; 1000000000; 2999999999; 1]%N))).

(** One entry due at tick 5; the clock stands at [t] and its next reading
    comes [gap] ticks later. *)
Definition session (t : time_point) (gap : N) : State :=
  {| store_ := {["session" := mk_entry "token" (Some 5)]};
     clock := clock_at t [gap] |}.

(** A permanent entry and one due at tick 5; the next reading is 8. *)
Definition mixed : State :=
  {| store_ := <["a" := mk_entry "1" None]>
                 (<["b" := mk_entry "2" (Some 5)]> ∅);
     clock := clock_at 0 [8%N] |}.

End Scenario.

(* ===================================================================== *)
(** * ExpiryManager (expiry_manager.hpp, expiry_manager.cpp) *)
(* ===================================================================== *)

Module ExpiryManager.

(** Where the background thread stands inside [cleanup_loop]. *)
Inductive LoopPc : Type :=
| LoopHead   (* about to evaluate [!stop_requested_.load()] *)
| Cleaning   (* about to call [store_.cleanup_expired()] *)
| Waiting.   (* inside [sleep_cv_.wait_for(lock, interval_, pred)] *)

(** The member [cleanup_thread_]: a [std::thread] object and the thread
    of execution it stands for. *)
Inductive Thread : Type :=
| NotStarted             (* default constructed *)
| Running (pc : LoopPc)  (* [cleanup_loop] is executing *)
| Finished               (* [cleanup_loop] has returned, not yet joined *)
| Joined.                (* [join()] has returned *)

(** [std::thread::joinable]. *)
Definition joinable (t : Thread) : bool :=
  match t with
  | Running _ | Finished => true
  | NotStarted | Joined => false
  end.

(** Where the thread that called [stop()] stands inside it. *)
Inductive StopPc : Type :=
| AtJoinable  (* about to test [cleanup_thread_.joinable()] *)
| AtStore     (* about to execute [stop_requested_.store(true)] *)
| AtNotify    (* about to execute [sleep_cv_.notify_all()] *)
| AtJoin      (* inside [cleanup_thread_.join()] *)
| AtLog       (* about to log "Expiry manager stopped" *)
| Returned    (* no call of [stop()] in progress *)
| Threw.      (* [join()] on a thread that is not joinable *)

(** The members of the manager, the store it refers to, the log, and the
    program counter of the caller of [stop()]. *)
Record Sys : Type := mk_sys {
  store : KeyValueStore.State;
  interval_ : Z;
  cleanup_thread_ : Thread;
  stop_requested_ : bool;
  log : list string;
  caller : StopPc
}.

(** The constructor. *)
Definition create (store : KeyValueStore.State) (interval_seconds : Z) : Sys :=
  {| store := store; interval_ := interval_seconds;
     cleanup_thread_ := NotStarted; stop_requested_ := false;
     log := []; caller := Returned |}.

(** [start()].  Move-assigning to a [std::thread] that is still joinable
    calls [std::terminate]: there is no state afterwards. *)
Definition start (s : Sys) : option Sys :=
  if joinable (cleanup_thread_ s) then None
  else Some {| store := store s; interval_ := interval_ s;
               cleanup_thread_ := Running LoopHead;
               stop_requested_ := false;
               log := log s ++ ["Expiry manager started (interval: "
                                  +:+ pretty (interval_ s) +:+ "s)"];
               caller := caller s |}.

(** A thread enters [stop()]. *)
Definition call_stop (s : Sys) : Sys :=
  {| store := store s; interval_ := interval_ s;
     cleanup_thread_ := cleanup_thread_ s;
     stop_requested_ := stop_requested_ s;
     log := log s; caller := AtJoinable |}.

(** Whose turn it is.  A turn of the sweeper thread says whether the
    interval of its [wait_for] has run out by then. *)
Inductive Turn : Type :=
| CallerTurn
| SweeperTurn (timed_out : bool).

Definition is_caller (t : Turn) : bool :=
  match t with CallerTurn => true | SweeperTurn _ => false end.

(** One step of [stop()].  [join()] lets the caller through only when
    [cleanup_loop] has returned; what [notify_all] does to the sweeper is
    that it gets a turn. *)
Definition stop_step (s : Sys) : Sys :=
  let at_ pc := {| store := store s; interval_ := interval_ s;
                   cleanup_thread_ := cleanup_thread_ s;
                   stop_requested_ := stop_requested_ s;
                   log := log s; caller := pc |} in
  match caller s with
  | AtJoinable =>
      if joinable (cleanup_thread_ s) then at_ AtStore else at_ Returned
  | AtStore =>
      {| store := store s; interval_ := interval_ s;
         cleanup_thread_ := cleanup_thread_ s;
         stop_requested_ := true;
         log := log s; caller := AtNotify |}
  | AtNotify => at_ AtJoin
  | AtJoin =>
      match cleanup_thread_ s with
      | Finished =>
          {| store := store s; interval_ := interval_ s;
             cleanup_thread_ := Joined;
             stop_requested_ := stop_requested_ s;
             log := log s; caller := AtLog |}
      | Running _ => s
      | NotStarted | Joined => at_ Threw
      end
  | AtLog =>
      {| store := store s; interval_ := interval_ s;
         cleanup_thread_ := cleanup_thread_ s;
         stop_requested_ := stop_requested_ s;
         log := log s ++ ["Expiry manager stopped"]; caller := Returned |}
  | Returned | Threw => s
  end.

(** One step of [cleanup_loop()].  A turn of the thread while it is inside
    [wait_for] is a wake-up, by [notify_all], by the end of the interval
    or spurious: [wait_for] with a predicate returns when the predicate
    holds or when the interval has run out, and goes on waiting
    otherwise. *)
Definition cleanup_loop_step
    `{!ThreadSafeHashMap.IterationOrder string KeyValueStore.StoreEntry}
    (timed_out : bool) (s : Sys) : Sys :=
  let thread_ t := {| store := store s; interval_ := interval_ s;
                      cleanup_thread_ := t;
                      stop_requested_ := stop_requested_ s;
                      log := log s; caller := caller s |} in
  match cleanup_thread_ s with
  | Running LoopHead =>
      if stop_requested_ s then thread_ Finished
      else thread_ (Running Cleaning)
  | Running Cleaning =>
      {| store := snd (KeyValueStore.cleanup_expired (store s));
         interval_ := interval_ s;
         cleanup_thread_ := Running Waiting;
         stop_requested_ := stop_requested_ s;
         log := log s; caller := caller s |}
  | Running Waiting =>
      if stop_requested_ s || timed_out then thread_ (Running LoopHead)
      else s
  | NotStarted | Finished | Joined => s
  end.

Definition step `{!ThreadSafeHashMap.IterationOrder string KeyValueStore.StoreEntry}
    (t : Turn) (s : Sys) : Sys :=
  match t with
  | CallerTurn => stop_step s
  | SweeperTurn timed_out => cleanup_loop_step timed_out s
  end.

(** The two threads interleaved as a schedule says. *)
Fixpoint run `{!ThreadSafeHashMap.IterationOrder string KeyValueStore.StoreEntry}
    (sched : list Turn) (s : Sys) : Sys :=
  match sched with
  | [] => s
  | t :: rest => run rest (step t s)
  end.

(** [stop()] called in the state [s], the caller and the sweeper then
    taking turns as [sched] says. *)
Definition stop `{!ThreadSafeHashMap.IterationOrder string KeyValueStore.StoreEntry}
    (sched : list Turn) (s : Sys) : Sys :=
  run sched (call_stop s).

(** Does a schedule contain the turns [pat] ([true] for the caller), in
    this order, possibly with other turns in between? *)
Fixpoint grants (pat : list bool) (sched : list Turn) : bool :=
  match pat, sched with
  | [], _ => true
  | _ :: _, [] => false
  | p :: ps, t :: rest =>
      if eqb p (is_caller t) then grants ps rest else grants pat rest
  end.

(** A schedule under which neither thread is starved during a [stop()]:
    the caller gets three turns, then the sweeper three, then the caller
    two. *)
Definition fair (sched : list Turn) : bool :=
  grants [true; true; true; false; false; false; true; true] sched.

(** What holds of the manager while a call of [stop()] that began in the
    state [s0] is under way; [b] says whether the thread was joinable at
    the call. *)
Definition during_stop (b : bool) (s0 s : Sys) : Prop :=
  match caller s with
  | AtJoinable =>
      joinable (cleanup_thread_ s) = b /\ (b = false -> s = call_stop s0)
  | AtStore => b = true /\ joinable (cleanup_thread_ s) = true
  | AtNotify | AtJoin =>
      b = true /\ joinable (cleanup_thread_ s) = true
      /\ stop_requested_ s = true
  | AtLog =>
      b = true /\ cleanup_thread_ s = Joined /\ stop_requested_ s = true
  | Returned =>
      if b then cleanup_thread_ s = Joined /\ stop_requested_ s = true
      else s = s0
  | Threw => False
  end.

(** The turns a call of [stop()] may still need before it has returned,
    in order, [true] for a turn of the caller: the sweeper needs at most
    three turns to notice the flag from wherever it stands. *)
Definition remaining_turns (s : Sys) : list bool :=
  match caller s with
  | AtJoinable => [true; true; true; false; false; false; true; true]
  | AtStore => [true; true; false; false; false; true; true]
  | AtNotify => [true; false; false; false; true; true]
  | AtJoin =>
      match cleanup_thread_ s with
      | Running Cleaning => [false; false; false; true; true]
      | Running Waiting => [false; false; true; true]
      | Running LoopHead => [false; true; true]
      | Finished => [true; true]
      | NotStarted | Joined => []
      end
  | AtLog => [true]
  | Returned | Threw => []
  end.


(** A manager whose thread is inside [wait_for], and a schedule. *)
Definition sweeping : Sys :=
  {| store := Scenario.fresh []; interval_ := 1;
     cleanup_thread_ := Running Waiting; stop_requested_ := false;
     log := []; caller := Returned |}.

Definition turns : list Turn :=
  [SweeperTurn true; CallerTurn; SweeperTurn false; CallerTurn;
   CallerTurn; CallerTurn; SweeperTurn false; SweeperTurn false;
   SweeperTurn false; CallerTurn; CallerTurn].

End ExpiryManager.

(* ===================================================================== *)
(** * Socket and TcpServer (socket.cpp, tcp_server.cpp) *)
(* ===================================================================== *)

Module TcpServer.

Inductive Level : Type := INFO | WARNING | ERROR.

Inductive Syscall : Type :=
| sys_socket | sys_setsockopt | sys_bind | sys_listen | sys_accept
| sys_close.

(** What [start] does that can be seen from outside, in order. *)
Inductive Event : Type :=
| Called (c : Syscall)
| Logged (level : Level) (message : string)
| StopLoaded                  (* one [stop_requested_.load()] *)
| Submitted (client_fd : Z).  (* one [thread_pool_.submit(task)] *)

(** The operating system and the other threads, as [start] meets them:
    the value each system call returns, and the value each load of
    [stop_requested_] observes. *)
Record World : Type := mk_world {
  socket_ret : Z;
  setsockopt_ret : Z;
  bind_ret : Z;
  listen_ret : Z;
  accept_ret : nat -> Z;
  stop_load : nat -> bool
}.

(** [Socket::create_tcp]. *)
Definition create_tcp (w : World) : option Z * list Event :=
  let fd := socket_ret w in
  if bool_decide (fd < 0)
  then (None, [Called sys_socket; Logged ERROR "Failed to create TCP socket"])
  else if bool_decide (setsockopt_ret w < 0)
  then (Some fd, [Called sys_socket; Called sys_setsockopt;
                  Logged WARNING "Failed to set SO_REUSEADDR"])
  else (Some fd, [Called sys_socket; Called sys_setsockopt]).

(** [Socket::bind_to]. *)
Definition bind_to (w : World) (port : Z) : bool * list Event :=
  if bool_decide (bind_ret w < 0)
  then (false, [Called sys_bind;
                Logged ERROR ("Failed to bind to port " +:+ pretty port)])
  else (true, [Called sys_bind;
               Logged INFO ("Socket bound to port " +:+ pretty port)]).

(** [Socket::start_listening]. *)
Definition start_listening (w : World) : bool * list Event :=
  if bool_decide (listen_ret w < 0)
  then (false, [Called sys_listen; Logged ERROR "Failed to start listening"])
  else (true, [Called sys_listen]).

(** [Socket::accept_connection], for the [i]-th call of [accept]. *)
Definition accept_connection (w : World) (i : nat) : option Z * list Event :=
  let client_fd := accept_ret w i in
  if bool_decide (client_fd < 0)
  then (None, [Called sys_accept; Logged ERROR "Failed to accept connection"])
  else (Some client_fd, [Called sys_accept]).

(** [Socket::~Socket] of the listening socket when [start] returns. *)
Definition close_socket : list Event := [Called sys_close].

(** How a run of [start] that is given [fuel] iterations ends. *)
Inductive Outcome : Type :=
| HasReturned
| StillAccepting.  (* the accept loop has not ended within the fuel *)

(** The accept loop from its [i]-th iteration on. *)
Fixpoint accept_loop (w : World) (fuel i : nat) : Outcome * list Event :=
  match fuel with
  | O => (StillAccepting, [])
  | S fuel' =>
      if stop_load w i
      then (HasReturned,
            StopLoaded :: Logged INFO "Server accept loop stopped"
              :: close_socket)
      else
        let '(client_socket, ev) := accept_connection w i in
        let '(out, rest) := accept_loop w fuel' (S i) in
        match client_socket with
        | None => (out, StopLoaded :: ev ++ rest)
        | Some client => (out, StopLoaded :: ev ++ Submitted client :: rest)
        end
  end.

(** [TcpServer::start] on port [port_]. *)
Definition start (w : World) (port_ : Z) (fuel : nat) : Outcome * list Event :=
  let '(server_socket, ev1) := create_tcp w in
  match server_socket with
  | None =>
      (HasReturned, ev1 ++ [Logged ERROR "Failed to create server socket"])
  | Some _ =>
      let '(bound, ev2) := bind_to w port_ in
      if negb bound
      then (HasReturned,
            ev1 ++ ev2
              ++ [Logged ERROR ("Failed to bind to port " +:+ pretty port_)]
              ++ close_socket)
      else
        let '(listening, ev3) := start_listening w in
        if negb listening
        then (HasReturned,
              ev1 ++ ev2 ++ ev3
                ++ [Logged ERROR "Failed to start listening"]
                ++ close_socket)
        else
          let '(out, ev4) := accept_loop w fuel 0 in
          (out,
           ev1 ++ ev2 ++ ev3
             ++ [Logged INFO ("Mini Redis server listening on port "
                                +:+ pretty port_)]
             ++ ev4)
  end.

(** Events that belong to the accept loop. *)
Definition in_accept_loop (e : Event) : bool :=
  match e with
  | Called sys_accept | StopLoaded | Submitted _ => true
  | _ => false
  end.

Definition is_error_log (e : Event) : bool :=
  match e with Logged ERROR _ => true | _ => false end.

Definition same_call (c d : Syscall) : bool :=
  match c, d with
  | sys_socket, sys_socket | sys_setsockopt, sys_setsockopt
  | sys_bind, sys_bind | sys_listen, sys_listen
  | sys_accept, sys_accept | sys_close, sys_close => true
  | _, _ => false
  end.

(** How often the system call [c] is made in a trace. *)
Fixpoint calls (c : Syscall) (ev : list Event) : nat :=
  match ev with
  | [] => 0%nat
  | Called d :: rest => ((if same_call c d then 1 else 0) + calls c rest)%nat
  | _ :: rest => calls c rest
  end.

(** A world in which the port is taken: [bind] fails. *)
Definition port_taken : World :=
  {| socket_ret := 3; setsockopt_ret := 0; bind_ret := -1;
     listen_ret := 0; accept_ret := fun _ => 4;
     stop_load := fun _ => false |}.

End TcpServer.

(* ===================================================================== *)
(** * What a run leaves to observe *)
(* ===================================================================== *)

Module Observe.
Import Chrono KeyValueStore Timing TcpServer.

(** Is the request a [set] of the key [k]? *)
Definition sets (k : string) (r : Request) : bool :=
  match r with
  | SET key _ _ => bool_decide (key = k)
  | GET _ | DELETE _ | LIST | SWEEP => false
  end.

(** Has no entry of the store an expiry? *)
Definition all_permanent (m : gmap string StoreEntry) : Prop :=
  forall k entry, m !! k = Some entry -> expires_at entry = None.

(** The callback that writes down what [for_each] shows it. *)
Definition note {Key Value : Type} (key : Key) (value : Value)
    (seen : list (Key * Value)) : list (Key * Value) :=
  seen ++ [(key, value)].

(** The client sockets handed to the pool in a trace, in order. *)
Fixpoint submissions (ev : list Event) : list Z :=
  match ev with
  | [] => []
  | Submitted client_fd :: rest => client_fd :: submissions rest
  | _ :: rest => submissions rest
  end.

(** What the first [n] calls of [accept] return when they succeed. *)
Definition accepted (w : World) (n : nat) : list Z :=
  filter (fun fd => 0 <= fd) (accept_ret w <$> seq 0 n).

(** Do the three calls that set up the listening socket succeed? *)
Definition listening (w : World) : Prop :=
  0 <= socket_ret w /\ 0 <= bind_ret w /\ 0 <= listen_ret w.

(** A world in which the socket listens, the second of three calls of
    [accept] fails, and the fourth load of the stop flag reads true. *)
Definition two_clients : World :=
  {| socket_ret := 3; setsockopt_ret := 0; bind_ret := 0; listen_ret := 0;
     accept_ret := fun i => nth i [5; -1; 6] (-1);
     stop_load := fun i => bool_decide (3 <= i)%nat |}.

(** A world in which the socket listens, every [accept] fails and the
    stop flag is never set. *)
Definition deaf : World :=
  {| socket_ret := 3; setsockopt_ret := 0; bind_ret := 0; listen_ret := 0;
     accept_ret := fun _ => -1; stop_load := fun _ => false |}.

End Observe.

(* ===================================================================== *)
(** * Characters, strings and string streams *)
(* ===================================================================== *)

Module Text.
Import Stdlib.Strings.Ascii.

(** [std::isspace] in the "C" locale: space, \t, \n, \v, \f, \r. *)
Definition isspace (c : ascii) : bool :=
  let n := N_of_ascii c in
  (n =? 32)%N || ((9 <=? n)%N && (n <=? 13)%N).

(** [std::isdigit]. *)
Definition isdigit (c : ascii) : bool :=
  let n := N_of_ascii c in (48 <=? n)%N && (n <=? 57)%N.

(** [::tolower] in the "C" locale: only A to Z change. *)
Definition tolower (c : ascii) : ascii :=
  let n := N_of_ascii c in
  if (65 <=? n)%N && (n <=? 90)%N then ascii_of_N (n + 32) else c.

(** [std::transform(str.begin(), str.end(), str.begin(), ::tolower)]. *)
Fixpoint to_lower (str : string) : string :=
  match str with
  | EmptyString => EmptyString
  | String c rest => String (tolower c) (to_lower rest)
  end.

(** [s.substr(0, n)]. *)
Fixpoint take (n : nat) (s : string) : string :=
  match n, s with
  | S n', String c rest => String c (take n' rest)
  | _, _ => EmptyString
  end.

(** [s.substr(n)], for [n <= s.size()]. *)
Fixpoint drop (n : nat) (s : string) : string :=
  match n, s with
  | S n', String c rest => drop n' rest
  | _, _ => s
  end.

(** [s.find(c)]: the position of the first [c], if there is one. *)
Fixpoint find_char (c : ascii) (s : string) : option nat :=
  match s with
  | EmptyString => None
  | String d rest =>
      if Ascii.eqb d c then Some 0%nat else S <$> find_char c rest
  end.

(** What [std::getline] extracts from a stream that still holds
    characters: the line up to the first '\n', which is consumed and not
    stored, and what is left. *)
Fixpoint getline_from (stream : string) : string * string :=
  match stream with
  | EmptyString => (EmptyString, EmptyString)
  | String c rest =>
      if Ascii.eqb c "010" then (EmptyString, rest)
      else let '(line, after) := getline_from rest in (String c line, after)
  end.

(** [std::getline(stream, line)]: it fails when no character is left. *)
Definition getline (stream : string) : option (string * string) :=
  match stream with
  | EmptyString => None
  | String _ _ => Some (getline_from stream)
  end.

(** [if (!line.empty() && line.back() == '\r') line.pop_back();] *)
Fixpoint strip_cr (line : string) : string :=
  match line with
  | EmptyString => EmptyString
  | String c EmptyString =>
      if Ascii.eqb c "013" then EmptyString else line
  | String c rest => String c (strip_cr rest)
  end.

(** The white space [operator>>] skips before a word. *)
Fixpoint skip_ws (s : string) : string :=
  match s with
  | EmptyString => EmptyString
  | String c rest => if isspace c then skip_ws rest else s
  end.

(** The characters [operator>>] takes for a word, and what is left. *)
Fixpoint read_word (s : string) : string * string :=
  match s with
  | EmptyString => (EmptyString, EmptyString)
  | String c rest =>
      if isspace c then (EmptyString, s)
      else let '(word, after) := read_word rest in (String c word, after)
  end.

(** [stream >> word]: it fails when only white space is left. *)
Definition extract (stream : string) : option (string * string) :=
  match read_word (skip_ws stream) with
  | (EmptyString, _) => None
  | (word, after) => Some (word, after)
  end.

(** [while (i < s.size() && s[i] == ' ') ++i;] from the start of [s]. *)
Fixpoint skip_spaces (s : string) : string :=
  match s with
  | String c rest => if Ascii.eqb c " " then skip_spaces rest else s
  | EmptyString => EmptyString
  end.

(** The value of a run of decimal digits read after [acc], and what
    follows the run. *)
Fixpoint read_digits (acc : Z) (s : string) : Z * string :=
  match s with
  | String c rest =>
      if isdigit c
      then read_digits (10 * acc + (Z.of_N (N_of_ascii c) - 48)) rest
      else (acc, s)
  | EmptyString => (acc, EmptyString)
  end.

(** [std::stoi(str)]: [strtol] skips white space, takes one sign and a run
    of digits and ignores what follows.  [None] stands for the two
    exceptions: [std::invalid_argument] when there is no digit, and
    [std::out_of_range] when the value is not an [int]. *)
Definition stoi (str : string) : option Z :=
  let s := skip_ws str in
  let '(negative, s) :=
    match s with
    | String c rest =>
        if Ascii.eqb c "-" then (true, rest)
        else if Ascii.eqb c "+" then (false, rest)
        else (false, s)
    | EmptyString => (false, s)
    end in
  match s with
  | String c _ =>
      if isdigit c
      then let v := fst (read_digits 0 s) in
           let v := if negative then - v else v in
           if bool_decide (-2147483648 <= v <= 2147483647)
           then Some v else None
      else None
  | EmptyString => None
  end.

(** Every character of [s] passes the test [p]. *)
Fixpoint all_chars (p : ascii -> bool) (s : string) : bool :=
  match s with
  | EmptyString => true
  | String c rest => p c && all_chars p rest
  end.

(** A word: at least one character, none of them white space. *)
Definition is_word (s : string) : Prop :=
  s <> "" /\ all_chars (fun c => negb (isspace c)) s = true.

(** Nothing, or something that begins with white space. *)
Definition ends_word (s : string) : Prop :=
  match s with
  | EmptyString => True
  | String c _ => isspace c = true
  end.

(** A line that holds at least three words with white space between
    them. *)
Definition three_words (line : string) : Prop :=
  exists w0 a w1 b w2 c rest,
    line = w0 +:+ a +:+ w1 +:+ b +:+ w2 +:+ c +:+ rest
    /\ all_chars isspace w0 = true /\ is_word a
    /\ w1 <> "" /\ all_chars isspace w1 = true /\ is_word b
    /\ w2 <> "" /\ all_chars isspace w2 = true /\ is_word c
    /\ ends_word rest.

(** What may follow a number: nothing, or something that does not begin
    with a digit. *)
Definition ends_number (s : string) : Prop :=
  match s with
  | EmptyString => True
  | String c _ => isdigit c = false
  end.

(** A header a client may write so that [parse] reads it back: no colon
    and no line feed in the name, no line feed in the value, no space at the
    start of the value. *)
Definition plain_header (h : string * string) : Prop :=
  all_chars (fun c => negb (Ascii.eqb c ":") && negb (Ascii.eqb c "010"))
    h.1 = true
  /\ all_chars (fun c => negb (Ascii.eqb c "010")) h.2 = true
  /\ skip_spaces h.2 = h.2.

End Text.

(* ===================================================================== *)
(** * HttpRequest (http_request.hpp, http_request.cpp) *)
(* ===================================================================== *)

Module HttpRequest.
Import Stdlib.Strings.Ascii Text.

Inductive HttpMethod : Type := GET | PUT | DELETE | UNKNOWN.

Record t : Type := mk_request {
  method_ : HttpMethod;
  path_ : string;
  body_ : string;
  headers_ : gmap string string
}.

(** [string_to_method]. *)
Definition string_to_method (method_str : string) : HttpMethod :=
  if String.eqb method_str "GET" then GET
  else if String.eqb method_str "PUT" then PUT
  else if String.eqb method_str "DELETE" then DELETE
  else UNKNOWN.

(** The header loop of [parse] on what is left of the stream: the headers
    and the body.  Every round takes at least one character from the
    stream, so [fuel] above its length is never used up. *)
Fixpoint parse_headers (fuel : nat) (stream : string)
    (headers : gmap string string) : gmap string string * string :=
  match fuel with
  | O => (headers, stream)
  | S fuel' =>
      match getline stream with
      | None => (headers, stream)
      | Some (line, after) =>
          let line := strip_cr line in
          match line with
          | EmptyString => (headers, after)
          | String _ _ =>
              match find_char ":" line with
              | None => parse_headers fuel' after headers
              | Some colon_pos =>
                  let header_name := to_lower (take colon_pos line) in
                  let header_value := skip_spaces (drop (S colon_pos) line) in
                  parse_headers fuel' after
                    (<[header_name := header_value]> headers)
              end
          end
      end
  end.

(** [HttpRequest::parse]. *)
Definition parse (raw_request : string) : option t :=
  match getline raw_request with
  | None => None
  | Some (line, stream) =>
      match extract (strip_cr line) with
      | None => None
      | Some (method_str, l1) =>
          match extract l1 with
          | None => None
          | Some (path, l2) =>
              match extract l2 with
              | None => None
              | Some (version, _) =>
                  let '(headers, remaining) :=
                    parse_headers (S (String.length stream)) stream ∅ in
                  Some {| method_ := string_to_method method_str;
                          path_ := path;
                          body_ := remaining;
                          headers_ := headers |}
              end
          end
      end
  end.

(** [get_header]. *)
Definition get_header (request : t) (name : string) : option string :=
  headers_ request !! to_lower name.

End HttpRequest.

(* ===================================================================== *)
(** * HttpResponse (http_response.hpp, http_response.cpp) *)
(* ===================================================================== *)

Module HttpResponse.
Import Stdlib.Strings.Ascii.

Record t : Type := mk_response {
  status_code_ : Z;
  status_text_ : string;
  body_ : string;
  headers_ : gmap string string
}.

(** The private constructor. *)
Definition make (status_code : Z) (status_text : string) : t :=
  {| status_code_ := status_code; status_text_ := status_text;
     body_ := ""; headers_ := <["Content-Type" := "text/plain"]> ∅ |}.

Definition ok : t := make 200 "OK".
Definition created : t := make 201 "Created".
Definition bad_request : t := make 400 "Bad Request".
Definition not_found : t := make 404 "Not Found".
Definition method_not_allowed : t := make 405 "Method Not Allowed".
Definition internal_error : t := make 500 "Internal Server Error".

(** [body]. *)
Definition body (r : t) (body_content : string) : t :=
  {| status_code_ := status_code_ r; status_text_ := status_text_ r;
     body_ := body_content; headers_ := headers_ r |}.

(** [header]. *)
Definition header (r : t) (name value : string) : t :=
  {| status_code_ := status_code_ r; status_text_ := status_text_ r;
     body_ := body_ r; headers_ := <[name := value]> (headers_ r) |}.

Definition crlf : string := String "013" (String "010" EmptyString).

(** The header lines written by the range-for of [build]. *)
Fixpoint header_lines (hs : list (string * string)) : string :=
  match hs with
  | [] => ""
  | (name, value) :: rest =>
      name +:+ ": " +:+ value +:+ crlf +:+ header_lines rest
  end.

(** [build]. *)
Definition build `{!ThreadSafeHashMap.IterationOrder string string}
    (r : t) : string :=
  "HTTP/1.1 " +:+ pretty (status_code_ r) +:+ " " +:+ status_text_ r +:+ crlf
  +:+ "Content-Length: " +:+ pretty (String.length (body_ r)) +:+ crlf
  +:+ "Connection: close" +:+ crlf
  +:+ header_lines (ThreadSafeHashMap.enumerate (headers_ r))
  +:+ crlf
  +:+ body_ r.

(** A request as a client writes it: the request line, the header lines,
    an empty line and the body. *)
Definition request_text (method_str path version : string)
    (hs : list (string * string)) (payload : string) : string :=
  method_str +:+ " " +:+ path +:+ " " +:+ version +:+ crlf
  +:+ header_lines hs +:+ crlf +:+ payload.

End HttpResponse.

(* ===================================================================== *)
(** * Router (router.hpp, router.cpp) *)
(* ===================================================================== *)

Module Router.
Import HttpRequest.

#[global] Instance method_eq_dec : EqDecision HttpMethod.
Proof. solve_decision. Defined.

(** [struct RouteParams]. *)
Record RouteParams : Type := mk_params { path_suffix : string }.

Section WithState.
(** What the handlers, which are closures, refer to and change. *)
Context {St : Type}.

Definition HandlerFunc : Type :=
  HttpRequest.t -> RouteParams -> St -> HttpResponse.t * St.

(** [struct Route]. *)
Record Route : Type := mk_route {
  method : HttpMethod;
  prefix : string;
  handler : HandlerFunc
}.

(** [add_route]: [routes_.push_back]. *)
Definition add_route (routes_ : list Route) (method : HttpMethod)
    (prefix : string) (handler : HandlerFunc) : list Route :=
  routes_ ++ [mk_route method prefix handler].

(** [route]: the loop over [routes_], then the 404 after it.
    [path.find(prefix)] is [String.index 0 prefix path]. *)
Fixpoint route (routes_ : list Route) (request : HttpRequest.t) (s : St)
    : HttpResponse.t * St :=
  match routes_ with
  | [] =>
      (HttpResponse.body HttpResponse.not_found
         ("Not Found: " +:+ path_ request), s)
  | r :: rest =>
      if negb (bool_decide (method r = method_ request))
      then route rest request s
      else if negb (bool_decide (String.index 0 (prefix r) (path_ request)
                                 = Some 0%nat))
      then route rest request s
      else handler r request
             {| path_suffix :=
                  Text.drop (String.length (prefix r)) (path_ request) |} s
  end.

(** What [route] answers when no route matches. *)
Definition no_route (request : HttpRequest.t) (s : St)
    : HttpResponse.t * St :=
  (HttpResponse.body HttpResponse.not_found
     ("Not Found: " +:+ path_ request), s).

End WithState.
Arguments Route : clear implicits.
Arguments HandlerFunc : clear implicits.

End Router.

(* ===================================================================== *)
(** * KvHandler (kv_handler.hpp, kv_handler.cpp) *)
(* ===================================================================== *)

Module KvHandler.
Import Stdlib.Strings.Ascii HttpRequest Router.

(** The handlers refer to the store; the lines they log are left out, as
    for the store. *)
Definition Handler : Type := HandlerFunc KeyValueStore.State.

(** [get_key]. *)
Definition get_key : Handler := fun _ params st =>
  let key := path_suffix params in
  match key with
  | EmptyString =>
      (HttpResponse.body HttpResponse.bad_request "Key cannot be empty", st)
  | String _ _ =>
      let '(value, st') := KeyValueStore.get key st in
      match value with
      | Some v => (HttpResponse.body HttpResponse.ok v, st')
      | None =>
          (HttpResponse.body HttpResponse.not_found
             ("Key not found: " +:+ key), st')
      end
  end.

(** The TTL [put_key] works out: 0 without an [X-TTL] header, and 0 when
    [std::stoi] throws on its value. *)
Definition ttl_of (request : HttpRequest.t) : Z :=
  match get_header request "X-TTL" with
  | Some ttl_header =>
      match Text.stoi ttl_header with
      | Some n => n
      | None => 0
      end
  | None => 0
  end.

(** [put_key]. *)
Definition put_key : Handler := fun request params st =>
  let key := path_suffix params in
  match key with
  | EmptyString =>
      (HttpResponse.body HttpResponse.bad_request "Key cannot be empty", st)
  | String _ _ =>
      let value := HttpRequest.body_ request in
      let ttl_seconds := ttl_of request in
      (HttpResponse.body HttpResponse.created "OK",
       KeyValueStore.set key value ttl_seconds st)
  end.

(** [delete_key]. *)
Definition delete_key : Handler := fun _ params st =>
  let key := path_suffix params in
  match key with
  | EmptyString =>
      (HttpResponse.body HttpResponse.bad_request "Key cannot be empty", st)
  | String _ _ =>
      let '(removed, st') := KeyValueStore.remove key st in
      if removed
      then (HttpResponse.body HttpResponse.ok ("Deleted: " +:+ key), st')
      else (HttpResponse.body HttpResponse.not_found
              ("Key not found: " +:+ key), st')
  end.

(** The loop of [list_keys] that writes the keys, a newline between two
    of them. *)
Fixpoint join_lines (all_keys : list string) : string :=
  match all_keys with
  | [] => ""
  | [key] => key
  | key :: rest => key +:+ String "010"%char (join_lines rest)
  end.

(** [list_keys]. *)
Definition list_keys
    `{!ThreadSafeHashMap.IterationOrder string KeyValueStore.StoreEntry}
    : Handler := fun _ _ st =>
  let '(all_keys, st') := KeyValueStore.keys st in
  (HttpResponse.body HttpResponse.ok (join_lines all_keys), st').

(** [register_routes]. *)
Definition register_routes
    `{!ThreadSafeHashMap.IterationOrder string KeyValueStore.StoreEntry}
    (routes_ : list (Route KeyValueStore.State))
    : list (Route KeyValueStore.State) :=
  add_route
    (add_route
       (add_route
          (add_route routes_ GET "/kv/" get_key)
          PUT "/kv/" put_key)
       DELETE "/kv/" delete_key)
    GET "/kv" list_keys.

End KvHandler.

(* ===================================================================== *)
(** * Application::handle_connection (application.cpp) *)
(* ===================================================================== *)

Module Application.

(** The router of the application after [setup_routes()]. *)
Definition router_
    `{!ThreadSafeHashMap.IterationOrder string KeyValueStore.StoreEntry}
    : list (Router.Route KeyValueStore.State) :=
  KvHandler.register_routes [].

(** [handle_connection]: [raw_request] is what [read_all] returned; the
    result is the text handed to [write_all], if any. *)
Definition handle_connection
    `{!ThreadSafeHashMap.IterationOrder string KeyValueStore.StoreEntry}
    `{!ThreadSafeHashMap.IterationOrder string string}
    (raw_request : string)
    (st : KeyValueStore.State) : option string * KeyValueStore.State :=
  match raw_request with
  | EmptyString => (None, st)
  | String _ _ =>
      match HttpRequest.parse raw_request with
      | None =>
          (Some (HttpResponse.build
                   (HttpResponse.body HttpResponse.bad_request
                      "Invalid HTTP request")), st)
      | Some request =>
          let '(response, st') := Router.route router_ request st in
          (Some (HttpResponse.build response), st')
      end
  end.

(** Connections served one after the other. *)
Fixpoint serve_connections
    `{!ThreadSafeHashMap.IterationOrder string KeyValueStore.StoreEntry}
    `{!ThreadSafeHashMap.IterationOrder string string}
    (raws : list string) (st : KeyValueStore.State)
    : list (option string) * KeyValueStore.State :=
  match raws with
  | [] => ([], st)
  | raw :: rest =>
      let '(out, st') := handle_connection raw st in
      let '(outs, st'') := serve_connections rest st' in
      (out :: outs, st'')
  end.

End Application.

(* ===================================================================== *)
(** * Socket: read_all and write_all (socket.cpp) *)
(* ===================================================================== *)

Module SocketIO.

(** [constexpr std::size_t BUFFER_SIZE = 4096]. *)
Definition BUFFER_SIZE : nat := 4096.

(** [Socket::read_all]: one call of [recv] on a buffer of [BUFFER_SIZE]
    bytes.  [pending] is what the peer has sent and [bytes_read] is what
    [recv] returns, at most the size of the buffer it was given; it has
    then put the first [bytes_read] bytes of [pending] into the buffer. *)
Definition read_all (pending : string) (bytes_read : Z) : string :=
  if bool_decide (bytes_read <= 0) then ""
  else Text.take (Z.to_nat bytes_read) pending.

(** How a run of [write_all] that is given [fuel] iterations ends. *)
Inductive Outcome : Type :=
| Returned (result : bool)
| StillSending.

(** The loop of [write_all].  [send_ret i len] is what the [i]-th call of
    [send] returns when it is offered [len] bytes; the bytes it has taken
    over are the first [send_ret i len] of those.  The result comes with
    the bytes taken over so far, in order. *)
Fixpoint write_loop (send_ret : nat -> nat -> Z) (data : string)
    (fuel i total_sent : nat) : Outcome * string :=
  match fuel with
  | O => (StillSending, "")
  | S fuel' =>
      if bool_decide (total_sent < String.length data)%nat
      then
        let bytes_sent := send_ret i (String.length data - total_sent)%nat in
        if bool_decide (bytes_sent < 0)
        then (Returned false, "")
        else
          let n := Z.to_nat bytes_sent in
          let '(out, wire) :=
            write_loop send_ret data fuel' (S i) (total_sent + n) in
          (out, Text.take n (Text.drop total_sent data) +:+ wire)
      else (Returned true, "")
  end.

(** What [send] may return when it is offered [len] bytes: not more
    than [len]. *)
Definition send_contract (send_ret : nat -> nat -> Z) : Prop :=
  forall i len, send_ret i len <= Z.of_nat len.

(** [Socket::write_all]. *)
Definition write_all (send_ret : nat -> nat -> Z) (data : string)
    (fuel : nat) : Outcome * string :=
  write_loop send_ret data fuel 0 0.

End SocketIO.

(* ===================================================================== *)
(** * ThreadPool (thread_pool.hpp, thread_pool.cpp) *)
(* ===================================================================== *)

Module ThreadPool.

(** [using Task = std::function<void()>].  A task is known by a number;
    what it does when it is called is its own affair. *)
Definition Task : Type := nat.

(** Where a worker thread stands inside [worker_loop].
    [condition_.wait(lock, pred)] is [while (!pred()) wait(lock);]. *)
Inductive WorkerPc : Type :=
| AtLock        (* about to lock [queue_mutex_]: at the head of the loop
                   body, or on the way out of [wait(lock)] after a wake-up *)
| AtPredicate   (* holds the mutex, about to evaluate the predicate *)
| Unsatisfied   (* holds the mutex, the predicate was false: about to
                   call [wait(lock)] *)
| Blocked       (* blocked inside [wait(lock)], the mutex released *)
| AtCheck       (* holds the mutex, the predicate was true: about to test
                   [stop_requested_.load() && task_queue_.empty()] *)
| Running (task : Task)   (* the mutex released, about to call [task()] *)
| Exited        (* [worker_loop] has returned *)
| Undefined.    (* [front()] was called on an empty queue *)

(** Where the thread that owns the pool stands: before the destructor, or
    inside it. *)
Inductive OwnerPc : Type :=
| Alive         (* the destructor has not been called *)
| AtNotifyAll   (* about to execute [condition_.notify_all()] *)
| AtJoin (i : nat)   (* in the loop over [workers_], at [workers_[i]] *)
| Returned.     (* the destructor has returned *)

(** The members of the pool, the program counter of its owner, and a
    record of what has happened to the tasks: those pushed by [submit],
    those taken from the queue by a worker, those whose call has returned,
    each in the order in which it happened.  [queue_mutex_] names the
    worker that holds it.  The lines written through [Logger] are left
    out. *)
Record Pool : Type := mk_pool {
  workers_ : list WorkerPc;
  task_queue_ : list Task;
  queue_mutex_ : option nat;
  stop_requested_ : bool;
  owner : OwnerPc;
  submitted : list Task;
  taken : list Task;
  finished : list Task
}.

(** The constructor: [num_threads] threads, each at the start of
    [worker_loop]. *)
Definition create (num_threads : nat) : Pool :=
  {| workers_ := replicate num_threads AtLock; task_queue_ := [];
     queue_mutex_ := None; stop_requested_ := false; owner := Alive;
     submitted := []; taken := []; finished := [] |}.

Definition with_worker (i : nat) (pc : WorkerPc) (s : Pool) : Pool :=
  {| workers_ := <[i := pc]> (workers_ s); task_queue_ := task_queue_ s;
     queue_mutex_ := queue_mutex_ s; stop_requested_ := stop_requested_ s;
     owner := owner s; submitted := submitted s; taken := taken s;
     finished := finished s |}.

Definition with_mutex (holder : option nat) (s : Pool) : Pool :=
  {| workers_ := workers_ s; task_queue_ := task_queue_ s;
     queue_mutex_ := holder; stop_requested_ := stop_requested_ s;
     owner := owner s; submitted := submitted s; taken := taken s;
     finished := finished s |}.

Definition with_owner (pc : OwnerPc) (s : Pool) : Pool :=
  {| workers_ := workers_ s; task_queue_ := task_queue_ s;
     queue_mutex_ := queue_mutex_ s; stop_requested_ := stop_requested_ s;
     owner := pc; submitted := submitted s; taken := taken s;
     finished := finished s |}.

(** The block of [submit] under the [lock_guard]: it is entered when the
    mutex is free, and until then the submitting thread waits. *)
Definition push (task : Task) (s : Pool) : Pool :=
  match queue_mutex_ s with
  | Some _ => s
  | None =>
      {| workers_ := workers_ s; task_queue_ := task_queue_ s ++ [task];
         queue_mutex_ := None; stop_requested_ := stop_requested_ s;
         owner := owner s; submitted := submitted s ++ [task];
         taken := taken s; finished := finished s |}
  end.

(** A wake-up of worker [i]: it leaves [wait(lock)] if it is blocked
    there, and has then to lock the mutex again. *)
Definition wake (i : nat) (s : Pool) : Pool :=
  match workers_ s !! i with
  | Some Blocked => with_worker i AtLock s
  | _ => s
  end.

(** The workers blocked inside [wait(lock)]. *)
Fixpoint blocked_from (i : nat) (ws : list WorkerPc) : list nat :=
  match ws with
  | [] => []
  | Blocked :: rest => i :: blocked_from (S i) rest
  | _ :: rest => blocked_from (S i) rest
  end.

(** [condition_.notify_one()]: one of the blocked workers, if there is
    one, is woken; [choice] says which. *)
Definition notify_one (choice : nat) (s : Pool) : Pool :=
  match blocked_from 0 (workers_ s) with
  | [] => s
  | b :: bs => wake (nth (choice mod length (b :: bs)) (b :: bs) b) s
  end.

(** [condition_.notify_all()]. *)
Definition notify_all (s : Pool) : Pool :=
  {| workers_ := (fun pc => match pc with Blocked => AtLock | _ => pc end)
                   <$> workers_ s;
     task_queue_ := task_queue_ s; queue_mutex_ := queue_mutex_ s;
     stop_requested_ := stop_requested_ s; owner := owner s;
     submitted := submitted s; taken := taken s; finished := finished s |}.

(** One step of [worker_loop] in the thread [workers_[i]]. *)
Definition worker_loop_step (i : nat) (s : Pool) : Pool :=
  match workers_ s !! i with
  | Some AtLock =>
      match queue_mutex_ s with
      | None => with_worker i AtPredicate (with_mutex (Some i) s)
      | Some _ => s
      end
  | Some AtPredicate =>
      if stop_requested_ s || negb (bool_decide (task_queue_ s = []))
      then with_worker i AtCheck s
      else with_worker i Unsatisfied s
  | Some Unsatisfied => with_worker i Blocked (with_mutex None s)
  | Some AtCheck =>
      if stop_requested_ s && bool_decide (task_queue_ s = [])
      then with_worker i Exited (with_mutex None s)
      else
        match task_queue_ s with
        | task :: rest =>
            {| workers_ := <[i := Running task]> (workers_ s);
               task_queue_ := rest; queue_mutex_ := None;
               stop_requested_ := stop_requested_ s; owner := owner s;
               submitted := submitted s; taken := taken s ++ [task];
               finished := finished s |}
        | [] => with_worker i Undefined s
        end
  | Some (Running task) =>
      {| workers_ := <[i := AtLock]> (workers_ s);
         task_queue_ := task_queue_ s; queue_mutex_ := queue_mutex_ s;
         stop_requested_ := stop_requested_ s; owner := owner s;
         submitted := submitted s; taken := taken s;
         finished := finished s ++ [task] |}
  | Some Blocked | Some Exited | Some Undefined | None => s
  end.

(** One step of the owner.  Its first step is the call of the destructor
    and the store to [stop_requested_]; [join()] lets it through when the
    worker has returned.  Every worker is joinable: none is joined or
    detached anywhere else. *)
Definition destructor_step (s : Pool) : Pool :=
  match owner s with
  | Alive =>
      {| workers_ := workers_ s; task_queue_ := task_queue_ s;
         queue_mutex_ := queue_mutex_ s; stop_requested_ := true;
         owner := AtNotifyAll; submitted := submitted s; taken := taken s;
         finished := finished s |}
  | AtNotifyAll => with_owner (AtJoin 0) (notify_all s)
  | AtJoin i =>
      match workers_ s !! i with
      | None => with_owner Returned s
      | Some Exited => with_owner (AtJoin (S i)) s
      | Some _ => s
      end
  | Returned => s
  end.

(** What can happen next: a thread inside [submit] gets to push its task;
    a thread inside [submit] calls [notify_one]; a blocked worker wakes up
    without a notification; a worker or the owner takes a step. *)
Inductive Event : Type :=
| Push (task : Task)
| NotifyOne (choice : nat)
| Spurious (i : nat)
| WorkerTurn (i : nat)
| OwnerTurn.

Definition step (e : Event) (s : Pool) : Pool :=
  match e with
  | Push task => push task s
  | NotifyOne choice => notify_one choice s
  | Spurious i => wake i s
  | WorkerTurn i => worker_loop_step i s
  | OwnerTurn => destructor_step s
  end.

Fixpoint run (sched : list Event) (s : Pool) : Pool :=
  match sched with
  | [] => s
  | e :: rest => run rest (step e s)
  end.

(** Does the worker hold the mutex where it stands? *)
Definition holds (pc : WorkerPc) : bool :=
  match pc with
  | AtPredicate | Unsatisfied | AtCheck => true
  | _ => false
  end.

(** The tasks taken from the queue whose call has not returned. *)
Definition running (ws : list WorkerPc) : list Task :=
  omap (fun pc => match pc with Running task => Some task | _ => None end) ws.

Definition is_push (e : Event) : bool :=
  match e with Push _ => true | _ => false end.

Definition is_owner_turn (e : Event) : bool :=
  match e with OwnerTurn => true | _ => false end.

(** Neither a call of [submit] nor a wake-up without a notification. *)
Definition is_turn (e : Event) : bool :=
  match e with WorkerTurn _ | OwnerTurn => true | _ => false end.

(** What every schedule keeps of a pool. *)
Record invariant (s : Pool) : Prop := mk_invariant {
  inv_queue : taken s ++ task_queue_ s = submitted s;
  inv_running : finished s ++ running (workers_ s) ≡ₚ taken s;
  inv_mutex : forall i,
    queue_mutex_ s = Some i
    <-> exists pc, workers_ s !! i = Some pc /\ holds pc = true;
  inv_check : forall i,
    workers_ s !! i = Some AtCheck ->
    stop_requested_ s = true \/ task_queue_ s <> [];
  inv_defined : forall i, workers_ s !! i <> Some Undefined;
  inv_alive : owner s = Alive -> stop_requested_ s = false;
  inv_exited : forall i,
    workers_ s !! i = Some Exited -> stop_requested_ s = true
}.

(** What holds in addition once the destructor has been called, when
    no task is pushed from then on: the queue is empty as soon as a worker
    has returned, and the workers the owner has joined have returned. *)
Record shutting_down (s : Pool) : Prop := mk_shutting_down {
  sd_invariant : invariant s;
  sd_empty : forall i, workers_ s !! i = Some Exited -> task_queue_ s = [];
  sd_joined : forall i pc,
    workers_ s !! i = Some pc ->
    match owner s with
    | AtJoin k => (i < k)%nat -> pc = Exited
    | Returned => pc = Exited
    | Alive | AtNotifyAll => True
    end
}.

(** The race in the destructor: worker 0 finds the predicate false, the
    owner stores the flag and notifies while nobody is blocked, and only
    then does the worker block. *)
Definition lost_wakeup : list Event :=
  [WorkerTurn 0; WorkerTurn 0; OwnerTurn; OwnerTurn; WorkerTurn 0].

(** Two workers, three tasks, then the destructor. *)
Definition busy_day : list Event :=
  [Push 7%nat; NotifyOne 0; Push 8%nat; WorkerTurn 0; WorkerTurn 0; WorkerTurn 0;
   Push 9%nat; NotifyOne 0; WorkerTurn 1; WorkerTurn 1; WorkerTurn 1;
   WorkerTurn 1; WorkerTurn 0].

Definition closing_time : list Event :=
  [OwnerTurn; WorkerTurn 0; OwnerTurn; WorkerTurn 0; WorkerTurn 0;
   WorkerTurn 1; WorkerTurn 0; WorkerTurn 1; WorkerTurn 0; WorkerTurn 1;
   WorkerTurn 0; WorkerTurn 0; WorkerTurn 0; OwnerTurn; OwnerTurn;
   OwnerTurn].

End ThreadPool.

(* ===================================================================== *)
(** * Socket: ownership of the file descriptor (socket.hpp, socket.cpp) *)
(* ===================================================================== *)

Module SocketOwner.

(** The [Socket] objects alive, each with its member [fd_], and the
    descriptors handed to [::close], in the order of the calls. *)
Record Heap : Type := mk_heap {
  objects : gmap nat Z;
  closes : list Z
}.

Definition empty : Heap := {| objects := ∅; closes := [] |}.

(** [close_socket()] on the object [o]. *)
Definition close_socket (o : nat) (h : Heap) : Heap :=
  match objects h !! o with
  | Some fd_ =>
      if bool_decide (0 <= fd_)
      then {| objects := <[o := -1]> (objects h);
              closes := closes h ++ [fd_] |}
      else h
  | None => h
  end.

(** What a program does with sockets: [Socket(fd)] makes the object [o],
    and so does [Socket()] with -1 for [fd]; [Socket(std::move(other))]
    makes [o] from [other]; [o = std::move(other)]; the destructor of [o]
    runs.  Copies are deleted. *)
Inductive Op : Type :=
| Construct (o : nat) (fd : Z)
| MoveConstruct (o other : nat)
| MoveAssign (o other : nat)
| Destroy (o : nat).

(** One operation.  There is no result when the operation makes an object
    where one is alive, or uses an object that is not alive. *)
Definition exec (op : Op) (h : Heap) : option Heap :=
  match op with
  | Construct o fd =>
      match objects h !! o with
      | None => Some {| objects := <[o := fd]> (objects h);
                        closes := closes h |}
      | Some _ => None
      end
  | MoveConstruct o other =>
      match objects h !! o, objects h !! other with
      | None, Some fd =>
          Some {| objects := <[o := fd]> (<[other := -1]> (objects h));
                  closes := closes h |}
      | _, _ => None
      end
  | MoveAssign o other =>
      match objects h !! o, objects h !! other with
      | Some _, Some fd =>
          if bool_decide (o = other) then Some h
          else
            let h1 := close_socket o h in
            Some {| objects := <[o := fd]> (<[other := -1]> (objects h1));
                    closes := closes h1 |}
      | _, _ => None
      end
  | Destroy o =>
      match objects h !! o with
      | Some _ =>
          let h1 := close_socket o h in
          Some {| objects := delete o (objects h1); closes := closes h1 |}
      | None => None
      end
  end.

Fixpoint run (ops : list Op) (h : Heap) : option Heap :=
  match ops with
  | [] => Some h
  | op :: rest =>
      match exec op h with
      | Some h' => run rest h'
      | None => None
      end
  end.

(** The descriptors the objects alive hold. *)
Definition held (m : gmap nat Z) : list Z :=
  filter (fun fd => 0 <= fd) (snd <$> map_to_list m).

(** The descriptors handed to constructors. *)
Definition handed (ops : list Op) : list Z :=
  filter (fun fd => 0 <= fd)
    (omap (fun op => match op with
                     | Construct _ fd => Some fd
                     | _ => None
                     end) ops).

(** A connection as [TcpServer::start] and [Application] pass it on: the
    socket [accept_connection] made is moved into the one a [shared_ptr]
    owns, from there into the parameter of [handle_connection], and the
    three are destroyed. *)
Definition connection (fd : Z) : list Op :=
  [Construct 0 fd; MoveConstruct 1 0; Destroy 0; MoveConstruct 2 1;
   Destroy 2; Destroy 1].

End SocketOwner.

(* ===================================================================== *)
(** * ThreadPool: winding down *)
(* ===================================================================== *)

Module PoolShutdown.
Import ThreadPool.

(** The steps a worker has still to take before it has returned, once the
    flag is set and the queue is empty. *)
Definition worker_left (pc : WorkerPc) : nat :=
  match pc with
  | Blocked | AtLock => 3
  | AtPredicate => 2
  | AtCheck => 1
  | _ => 0
  end.

(** The steps the owner has still to take in the destructor. *)
Definition owner_left (num_threads : nat) (pc : OwnerPc) : nat :=
  match pc with
  | Alive => num_threads + 3
  | AtNotifyAll => num_threads + 2
  | AtJoin k => num_threads + 1 - k
  | Returned => 0
  end.

Definition steps_left (s : Pool) : nat :=
  owner_left (length (workers_ s)) (owner s)
  + sum_list_with worker_left (workers_ s).

(** Every thread in turn: the workers, then the owner. *)
Definition round (num_threads : nat) : list Event :=
  (WorkerTurn <$> seq 0 num_threads) ++ [OwnerTurn].

Fixpoint rounds (k num_threads : nat) : list Event :=
  match k with
  | O => []
  | S k' => round num_threads ++ rounds k' num_threads
  end.

(** A pool whose workers were all blocked in [wait(lock)], the queue
    empty, when the destructor was called, while only the workers and the
    owner take turns. *)
Record winding_down (s : Pool) : Prop := mk_winding_down {
  wd_queue : task_queue_ s = [];
  wd_stop : owner s <> Alive -> stop_requested_ s = true;
  wd_workers : forall i pc,
    workers_ s !! i = Some pc ->
    match pc with
    | Blocked => owner s = Alive \/ owner s = AtNotifyAll
    | AtLock | AtPredicate | AtCheck | Exited =>
        owner s <> Alive /\ owner s <> AtNotifyAll
    | Unsatisfied | Running _ | Undefined => False
    end;
  wd_mutex : forall i,
    queue_mutex_ s = Some i
    <-> exists pc, workers_ s !! i = Some pc /\ holds pc = true;
  wd_join : forall k, owner s = AtJoin k -> (k <= length (workers_ s))%nat
}.

(** One task is run by worker 0; then both workers find the queue empty
    and block. *)
Definition quiet_day : list Event :=
  [Push 7%nat; NotifyOne 0; WorkerTurn 0; WorkerTurn 0; WorkerTurn 0;
   WorkerTurn 1; WorkerTurn 0; WorkerTurn 1; WorkerTurn 1; WorkerTurn 1;
   WorkerTurn 0; WorkerTurn 0; WorkerTurn 0].

End PoolShutdown.
(* ===================================================================== *)
(** * The steady clock never runs backwards *)
(* ===================================================================== *)

Section ClockFacts.
Import Chrono.

Lemma now_reading (c : steady_clock) : last (snd (now c)) = fst (now c).
Proof. reflexivity. Qed.

Lemma now_monotone (c : steady_clock) : last c <= fst (now c).
Proof. unfold now; simpl. lia. Qed.

Lemma after_reads_monotone (n : nat) (c : steady_clock) :
  last c <= last (after_reads c n).
Proof.
  revert c. induction n as [|n IH]; intros c; simpl; [lia|].
  etrans; [apply (now_monotone c)|]. rewrite <- now_reading. apply IH.
Qed.

Lemma after_reads_plus (n m : nat) (c : steady_clock) :
  after_reads c (n + m) = after_reads (after_reads c n) m.
Proof. revert c. induction n as [|n IH]; intros c; simpl; auto. Qed.

Lemma nth_reading_after (i : nat) (c : steady_clock) :
  nth_reading c i = last (after_reads c (S i)).
Proof. revert c. induction i as [|i IH]; intros c; [reflexivity|]. apply IH. Qed.

(** A reading is never before the clock's value when the traversal
    began, and never after its value once [n > i] readings were taken. *)
Lemma nth_reading_bounds (i n : nat) (c : steady_clock) :
  (i < n)%nat -> last c <= nth_reading c i <= last (after_reads c n).
Proof.
  intros Hin. rewrite nth_reading_after. split.
  - apply after_reads_monotone.
  - replace n with (S i + (n - S i))%nat by lia.
    rewrite after_reads_plus. apply after_reads_monotone.
Qed.

End ClockFacts.

(* ===================================================================== *)
(** * The order of a traversal *)
(* ===================================================================== *)

Section OrderFacts.
Context {Key : Type} `{Countable Key} {Value : Type}.
Context `{!ThreadSafeHashMap.IterationOrder Key Value}.
Implicit Types (m : gmap Key Value).

Lemma elem_of_enumerate m k v :
  (k, v) ∈ ThreadSafeHashMap.enumerate m <-> m !! k = Some v.
Proof.
  rewrite (ThreadSafeHashMap.enumerate_entries m). apply elem_of_map_to_list.
Qed.

Lemma NoDup_fst_enumerate m : NoDup (ThreadSafeHashMap.enumerate m).*1.
Proof.
  rewrite (ThreadSafeHashMap.enumerate_entries m). apply NoDup_fst_map_to_list.
Qed.

Lemma length_enumerate m :
  length (ThreadSafeHashMap.enumerate m) = base.size m.
Proof.
  rewrite (ThreadSafeHashMap.enumerate_entries m). apply length_map_to_list.
Qed.

End OrderFacts.

(** Every enumeration of the entries of a map is the order of some
    container with these entries: what is proved for every
    [IterationOrder] is proved for every order in which the entries can
    be met. *)
Lemma every_enumeration_is_an_order
    {Key : Type} `{Countable Key} {Value : Type} `{EqDecision Value}
    (m : gmap Key Value) (its : list (Key * Value)) :
  its ≡ₚ map_to_list m ->
  exists order : ThreadSafeHashMap.IterationOrder Key Value,
    ThreadSafeHashMap.enumerate m = its.
Proof.
  intros Hits.
  assert (Hall : forall m', (if decide (m' = m) then its else map_to_list m')
                            ≡ₚ map_to_list m').
  { intros m'. destruct (decide (m' = m)) as [->|]; [exact Hits|reflexivity]. }
  exists (ThreadSafeHashMap.mk_order Key Value _ _
            (fun m' => if decide (m' = m) then its else map_to_list m') Hall).
  cbn. by rewrite decide_True.
Qed.

(* ===================================================================== *)
(** * Traversals of the map *)
(* ===================================================================== *)

Section Traversal.
Import Timing.
Context {Key : Type} `{Countable Key} {Value St : Type}.
Implicit Types (its : list (Key * Value)) (m : gmap Key Value).
Variable predicate : Key -> Value -> St -> bool * St.

Lemma length_verdicts its (s : St) :
  length (verdicts predicate its s) = length its.
Proof.
  revert s. induction its as [|[k v] rest IH]; intros s; simpl; [done|].
  destruct (predicate k v s) as [hit s']; simpl. by rewrite IH.
Qed.

(** The loop of [remove_if] erases the entries the predicate accepted
    and no others, counts them, and leaves the predicate in the state
    the traversal brought it to. *)
Lemma remove_if_loop_spec its m (n : nat) (s : St) :
  NoDup its.*1 ->
  (forall k v, (k, v) ∈ its -> m !! k = Some v) ->
  exists m',
    ThreadSafeHashMap.remove_if_loop predicate its m n s
      = ((n + hits (verdicts predicate its s))%nat,
         m', final_state predicate its s)
    /\ (forall (i : nat) k v (hit : bool),
          its !! i = Some (k, v) ->
          verdicts predicate its s !! i = Some hit ->
          m' !! k = if hit then None else Some v)
    /\ (forall k, k ∉ its.*1 -> m' !! k = m !! k)
    /\ (base.size m' + hits (verdicts predicate its s))%nat = base.size m.
Proof.
  revert m n s. induction its as [|[k v] rest IH]; intros m n s Hnd Hin.
  - exists m. simpl. rewrite Nat.add_0_r.
    split; [done|]. split; [|split; [done|lia]].
    intros i k v hit Hi. by rewrite lookup_nil in Hi.
  - simpl in Hnd. apply NoDup_cons in Hnd as [Hk Hnd].
    assert (Hmk : m !! k = Some v) by (apply Hin; apply list_elem_of_here).
    cbn [ThreadSafeHashMap.remove_if_loop verdicts final_state].
    destruct (predicate k v s) as [hit s'] eqn:Hp.
    cbn [snd hits]. destruct hit.
    + destruct (IH (delete k m) (S n) s' Hnd) as (m' & Heq & Hat & Hout & Hsz).
      { intros k' v' Hin'. rewrite lookup_delete_ne.
        - apply Hin. by apply list_elem_of_further.
        - intros ->. apply Hk. apply list_elem_of_fmap. by exists (k', v'). }
      exists m'. rewrite Heq.
      split; [do 2 f_equal; lia|]. split; [|split].
      * intros [|i] k' v' hit Hi Hv; simpl in Hi, Hv.
        -- injection Hi as <- <-. injection Hv as <-. rewrite Hout by done.
           apply lookup_delete_eq.
        -- by apply (Hat i).
      * intros k' Hk'. rewrite Hout.
        -- apply lookup_delete_ne. intros ->. apply Hk'. apply list_elem_of_here.
        -- intros Hr. apply Hk'. by apply list_elem_of_further.
      * pose proof (map_size_delete k m) as Hd. rewrite Hmk in Hd.
        assert (base.size m <> 0%nat).
        { intros Hz. apply map_size_empty_inv in Hz. subst m.
          by rewrite lookup_empty in Hmk. }
        simpl in Hd. lia.
    + destruct (IH m n s' Hnd) as (m' & Heq & Hat & Hout & Hsz).
      { intros k' v' Hin'. apply Hin. by apply list_elem_of_further. }
      exists m'. rewrite Heq.
      split; [done|]. split; [|split].
      * intros [|i] k' v' hit Hi Hv; simpl in Hi, Hv.
        -- injection Hi as <- <-. injection Hv as <-. by rewrite Hout.
        -- by apply (Hat i).
      * intros k' Hk'. apply Hout. intros Hr. apply Hk'.
        by apply list_elem_of_further.
      * done.
Qed.

End Traversal.

Section WholeMap.
Import Timing.
Context {Key : Type} `{Countable Key} {Value St : Type}.
Context `{!ThreadSafeHashMap.IterationOrder Key Value}.
Implicit Types (m : gmap Key Value).
Variable predicate : Key -> Value -> St -> bool * St.

(** [remove_if] on the whole map, entry by entry. *)
Lemma remove_if_spec m (s : St) :
  let its := ThreadSafeHashMap.enumerate m in
  let vs := verdicts predicate its s in
  exists m',
    ThreadSafeHashMap.remove_if predicate m s
      = (hits vs, m', final_state predicate its s)
    /\ (forall (i : nat) k v (hit : bool),
          its !! i = Some (k, v) -> vs !! i = Some hit ->
          m' !! k = if hit then None else Some v)
    /\ (forall k, m !! k = None -> m' !! k = None)
    /\ (base.size m' + hits vs)%nat = base.size m.
Proof.
  intros its vs. unfold ThreadSafeHashMap.remove_if.
  destruct (remove_if_loop_spec predicate its m 0 s)
    as (m' & Heq & Hat & Hout & Hsz).
  - apply NoDup_fst_enumerate.
  - intros k v Hin. by apply elem_of_enumerate.
  - exists m'. split; [exact Heq|]. split; [exact Hat|]. split; [|exact Hsz].
    intros k Hk. rewrite Hout; [done|].
    intros Hin. apply list_elem_of_fmap in Hin as ([k' v] & -> & Hin).
    apply elem_of_enumerate in Hin. simpl in Hk. congruence.
Qed.

(** Each entry of the map sits at some position of the traversal, and
    the predicate gives an answer there. *)
Lemma traversal_position m k v (s : St) :
  m !! k = Some v ->
  exists (i : nat) (hit : bool),
    ThreadSafeHashMap.enumerate m !! i = Some (k, v)
    /\ verdicts predicate (ThreadSafeHashMap.enumerate m) s !! i = Some hit.
Proof.
  intros Hk. apply elem_of_enumerate in Hk.
  apply list_elem_of_lookup in Hk as [i Hi]. exists i.
  destruct (lookup_lt_is_Some_2 (verdicts predicate (ThreadSafeHashMap.enumerate m) s) i)
    as [hit Hhit].
  - rewrite length_verdicts. by eapply lookup_lt_Some.
  - by exists hit.
Qed.

(** What [remove_if] leaves behind is part of what was there, and the
    count is the loss in size. *)
Lemma remove_if_shrinks m (s : St) :
  let r := ThreadSafeHashMap.remove_if predicate m s in
  r.1.2 ⊆ m
  /\ (base.size r.1.2 <= base.size m)%nat
  /\ r.1.1 = (base.size m - base.size r.1.2)%nat.
Proof.
  destruct (remove_if_spec m s) as (m' & Heq & Hat & Hout & Hsz).
  cbv zeta. rewrite Heq. cbn [fst snd]. split; [|lia].
  apply map_subseteq_spec. intros k x Hx.
  destruct (m !! k) as [v|] eqn:Hk.
  - destruct (traversal_position m k v s Hk) as (i & hit & Hi & Hv).
    rewrite (Hat i k v hit Hi Hv) in Hx. by destruct hit.
  - rewrite (Hout k Hk) in Hx. done.
Qed.

End WholeMap.

Section PurePredicate.
Import Timing.
Context {Key : Type} `{Countable Key} {Value : Type}.
Context `{!ThreadSafeHashMap.IterationOrder Key Value}.
Implicit Types (m : gmap Key Value) (its : list (Key * Value)).
Variable p : Key -> Value -> bool.

Lemma verdicts_pure its (i : nat) k v :
  its !! i = Some (k, v) ->
  verdicts (ThreadSafeHashMap.pure_predicate p) its () !! i = Some (p k v).
Proof.
  revert i. induction its as [|[k0 v0] rest IH]; intros [|i] Hi;
    simpl in *; try done.
  - by injection Hi as -> ->.
  - by apply IH.
Qed.

Lemma remove_if_pure m k :
  (ThreadSafeHashMap.remove_if (ThreadSafeHashMap.pure_predicate p) m ()).1.2
    !! k
  = match m !! k with
    | Some v => if p k v then None else Some v
    | None => None
    end.
Proof.
  destruct (remove_if_spec (ThreadSafeHashMap.pure_predicate p) m ())
    as (m' & Heq & Hat & Hout & _).
  rewrite Heq. cbn [fst snd].
  destruct (m !! k) as [v|] eqn:Hk; [|by apply Hout].
  destruct (traversal_position (ThreadSafeHashMap.pure_predicate p) m k v () Hk)
    as (i & hit & Hi & Hv).
  rewrite (Hat i k v hit Hi Hv).
  rewrite (verdicts_pure _ i k v Hi) in Hv. by injection Hv as <-.
Qed.

End PurePredicate.

(* ===================================================================== *)
(** * ThreadSafeHashMap::remove_if *)
(* ===================================================================== *)

(** C10.  For every map and every predicate, with or without state of its
    own, the count [remove_if] returns is the size of the map before the
    call minus its size after it, and what is left is part of the map as
    it was.  For a predicate that is a function of the entry, exactly the
    entries that satisfy it are gone and the others are there with their
    value; with a predicate that is false everywhere the call returns 0
    and the map is the same. *)
Theorem remove_if_count_is_size_loss
    {Key : Type} `{Countable Key} {Value St : Type}
    `{!ThreadSafeHashMap.IterationOrder Key Value}
    (predicate : Key -> Value -> St -> bool * St) (s : St)
    (p : Key -> Value -> bool) (m : gmap Key Value) :
  let r := ThreadSafeHashMap.remove_if predicate m s in
  let q := ThreadSafeHashMap.remove_if (ThreadSafeHashMap.pure_predicate p) m () in
  (r.1.1 = (ThreadSafeHashMap.size m - ThreadSafeHashMap.size r.1.2)%nat
   /\ (ThreadSafeHashMap.size r.1.2 <= ThreadSafeHashMap.size m)%nat
   /\ r.1.2 ⊆ m)
  /\ q.1.1 = (ThreadSafeHashMap.size m - ThreadSafeHashMap.size q.1.2)%nat
  /\ q.1.2 = filter (fun kv => p kv.1 kv.2 = false) m
  /\ ((forall k v, p k v = false) -> q = (0%nat, m, ())).
Proof.
  intros r q. unfold ThreadSafeHashMap.size.
  destruct (remove_if_shrinks predicate m s) as (Hsub & Hle & Hcount).
  destruct (remove_if_shrinks (ThreadSafeHashMap.pure_predicate p) m ())
    as (_ & _ & Hq).
  split; [by repeat split|]. split; [exact Hq|]. split.
  - apply map_eq. intros k. subst q. rewrite remove_if_pure.
    destruct (m !! k) as [v|] eqn:Hk.
    + destruct (p k v) eqn:Hp.
      * symmetry. apply map_lookup_filter_None. right. intros x Hx. simpl.
        rewrite Hk in Hx. injection Hx as <-. by rewrite Hp.
      * symmetry. apply map_lookup_filter_Some. by split.
    + symmetry. apply map_lookup_filter_None. by left.
  - intros Hfalse. clear r Hsub Hle Hcount.
    assert (Hm : q.1.2 = m).
    { apply map_eq. intros k. subst q. rewrite remove_if_pure.
      destruct (m !! k) as [v|]; [|done]. by rewrite Hfalse. }
    change (q.1.1 = (base.size m - base.size q.1.2)%nat) in Hq.
    destruct q as [[n m'] []].
    simpl in Hq, Hm. subst m'. f_equal. f_equal. lia.
Qed.

(* ===================================================================== *)
(** * Expiry along a traversal *)
(* ===================================================================== *)

Section ExpiryFacts.
Import Chrono KeyValueStore Timing.
Implicit Types (its : list (string * StoreEntry)) (c : steady_clock).

Lemma is_expired_verdict (entry : StoreEntry) c :
  fst (is_expired entry c) = expired_at (fst (now c)) entry.
Proof. unfold is_expired, expired_at. by destruct (expires_at entry). Qed.

Lemma is_expired_clock (entry : StoreEntry) c :
  snd (is_expired entry c)
  = after_reads c (match expires_at entry with Some _ => 1 | None => 0 end).
Proof. unfold is_expired. by destruct (expires_at entry). Qed.

Lemma is_expired_permanent (entry : StoreEntry) c :
  expires_at entry = None -> is_expired entry c = (false, c).
Proof. unfold is_expired. by intros ->. Qed.

(** The answer for the entry at position [i] is its expiry as of the
    reading taken there. *)
Lemma verdicts_cleanup its c (i : nat) k entry :
  its !! i = Some (k, entry) ->
  verdicts cleanup_predicate its c !! i
  = Some (expired_at (inspected_at c its i) entry).
Proof.
  revert c i. induction its as [|[k0 e0] rest IH]; intros c [|i] Hi;
    simpl in Hi; try done.
  - injection Hi as -> ->. cbn [verdicts]. unfold cleanup_predicate.
    destruct (is_expired entry c) as [hit c'] eqn:He. simpl.
    f_equal. change hit with (fst (hit, c')). rewrite <- He.
    apply is_expired_verdict.
  - cbn [verdicts]. unfold cleanup_predicate at 1.
    destruct (is_expired e0 c) as [hit c'] eqn:He. simpl.
    rewrite (IH c' i Hi). f_equal. f_equal.
    unfold inspected_at. cbn [readings_before].
    change c' with (snd (hit, c')). rewrite <- He, is_expired_clock.
    by destruct (expires_at e0).
Qed.

(** A traversal takes one reading for each entry with an expiry. *)
Lemma final_state_cleanup its c :
  final_state cleanup_predicate its c
  = after_reads c (readings_before its (length its)).
Proof.
  revert c. induction its as [|[k0 e0] rest IH]; intros c; [done|].
  cbn [final_state length readings_before]. rewrite IH.
  unfold cleanup_predicate. rewrite is_expired_clock.
  by rewrite <- after_reads_plus.
Qed.

Lemma readings_before_monotone its (i j : nat) :
  (i <= j)%nat -> (readings_before its i <= readings_before its j)%nat.
Proof.
  revert i j. induction its as [|[k0 e0] rest IH]; intros [|i] [|j] Hij;
    simpl; try lia.
  specialize (IH i j). lia.
Qed.

Lemma readings_before_next its (i : nat) k entry t :
  its !! i = Some (k, entry) -> expires_at entry = Some t ->
  (readings_before its i < readings_before its (length its))%nat.
Proof.
  revert i. induction its as [|[k0 e0] rest IH]; intros [|i] Hi Ht;
    simpl in Hi; try done.
  - injection Hi as -> ->. simpl. rewrite Ht. lia.
  - simpl. specialize (IH i Hi Ht). lia.
Qed.

(** The reading an entry with an expiry is judged against lies between
    the clock's value before the traversal and its value after it. *)
Lemma inspected_at_bounds its c (i : nat) k entry t :
  its !! i = Some (k, entry) -> expires_at entry = Some t ->
  last c <= inspected_at c its i
         <= last (final_state cleanup_predicate its c).
Proof.
  intros Hi Ht. rewrite final_state_cleanup. unfold inspected_at.
  apply nth_reading_bounds. by eapply readings_before_next.
Qed.

(** The callback of [keys] appends the keys it is not told are expired. *)
Lemma for_each_loop_keys its (acc : list string) c :
  ThreadSafeHashMap.for_each_loop keys_callback its (acc, c)
  = (acc ++ spared (verdicts cleanup_predicate its c) its,
     final_state cleanup_predicate its c).
Proof.
  revert acc c. induction its as [|[k0 e0] rest IH]; intros acc c.
  - simpl. by rewrite app_nil_r.
  - cbn [ThreadSafeHashMap.for_each_loop verdicts final_state].
    change (cleanup_predicate k0 e0 c) with (is_expired e0 c).
    unfold keys_callback at 2. cbn [snd fst].
    destruct (is_expired e0 c) as [hit c'] eqn:He. cbn [snd].
    destruct hit; rewrite IH; cbn [spared]; [done|].
    by rewrite <- app_assoc.
Qed.

Lemma elem_of_spared {Key Value : Type} (vs : list bool)
    (l : list (Key * Value)) (k : Key) :
  k ∈ spared vs l
  <-> exists (i : nat) v, l !! i = Some (k, v) /\ vs !! i = Some false.
Proof.
  revert vs. induction l as [|[k0 v0] rest IH]; intros vs.
  - destruct vs; simpl; split.
    + by intros ?%elem_of_nil.
    + by intros (i & v & Hi & _).
    + by intros ?%elem_of_nil.
    + by intros (i & v & Hi & _).
  - destruct vs as [|hit vs]; cbn [spared].
    + split; [by intros ?%elem_of_nil|]. by intros (i & v & _ & Hv).
    + destruct hit.
      * rewrite IH. split.
        -- intros (i & v & Hi & Hv). by exists (S i), v.
        -- intros ([|i] & v & Hi & Hv); simpl in Hi, Hv; [done|].
           by exists i, v.
      * rewrite elem_of_cons, IH. split.
        -- intros [->|(i & v & Hi & Hv)].
           ++ by exists 0%nat, v0.
           ++ by exists (S i), v.
        -- intros ([|i] & v & Hi & Hv); simpl in Hi, Hv.
           ++ left. by injection Hi as -> _.
           ++ right. by exists i, v.
Qed.

Lemma spared_sublist {Key Value : Type} (vs : list bool)
    (l : list (Key * Value)) :
  spared vs l `sublist_of` l.*1.
Proof.
  revert vs. induction l as [|[k0 v0] rest IH]; intros [|hit vs];
    cbn [spared]; try apply sublist_nil_l.
  destruct hit; simpl.
  - by apply sublist_cons.
  - by apply sublist_skip.
Qed.

End ExpiryFacts.

(* ===================================================================== *)
(** * KeyValueStore: the sweep, entry by entry *)
(* ===================================================================== *)

Section SweepFacts.
Import Chrono KeyValueStore Timing.
Context `{!ThreadSafeHashMap.IterationOrder string KeyValueStore.StoreEntry}.
Implicit Types (st : State) (k : string) (entry : StoreEntry).

Lemma cleanup_expired_unfold st :
  cleanup_expired st
  = let r := ThreadSafeHashMap.remove_if cleanup_predicate
               (store_ st) (clock st) in
    (r.1.1, {| store_ := r.1.2; clock := r.2 |}).
Proof.
  unfold cleanup_expired.
  by destruct (ThreadSafeHashMap.remove_if _ _ _) as [[n m] c].
Qed.

Lemma cleanup_expired_clock st :
  clock (cleanup_expired st).2
  = final_state cleanup_predicate (ThreadSafeHashMap.enumerate (store_ st)) (clock st).
Proof.
  rewrite cleanup_expired_unfold. cbv zeta. cbn [snd clock].
  destruct (remove_if_spec cleanup_predicate (store_ st) (clock st))
    as (m' & Heq & _). by rewrite Heq.
Qed.

(** The fate of an entry of the store in a sweep. *)
Lemma cleanup_expired_lookup st k entry :
  store_ st !! k = Some entry ->
  exists i : nat,
    ThreadSafeHashMap.enumerate (store_ st) !! i = Some (k, entry)
    /\ store_ (cleanup_expired st).2 !! k
       = if expired_at (inspected_at (clock st) (ThreadSafeHashMap.enumerate (store_ st)) i)
              entry
         then None else Some entry.
Proof.
  intros Hk. rewrite cleanup_expired_unfold. cbv zeta. cbn [snd store_].
  destruct (remove_if_spec cleanup_predicate (store_ st) (clock st))
    as (m' & Heq & Hat & _). rewrite Heq. cbn [fst snd].
  destruct (traversal_position cleanup_predicate _ k entry (clock st) Hk)
    as (i & hit & Hi & Hv).
  exists i. split; [done|]. rewrite (Hat i k entry hit Hi Hv).
  rewrite (verdicts_cleanup _ _ i k entry Hi) in Hv. by injection Hv as <-.
Qed.

(** The fate of the entry a sweep meets at position [i]. *)
Lemma cleanup_expired_at st (i : nat) k entry :
  ThreadSafeHashMap.enumerate (store_ st) !! i = Some (k, entry) ->
  store_ (cleanup_expired st).2 !! k
  = if expired_at (inspected_at (clock st)
                     (ThreadSafeHashMap.enumerate (store_ st)) i) entry
    then None else Some entry.
Proof.
  intros Hi. rewrite cleanup_expired_unfold. cbv zeta. cbn [snd store_].
  destruct (remove_if_spec cleanup_predicate (store_ st) (clock st))
    as (m' & Heq & Hat & _). rewrite Heq. cbn [fst snd].
  destruct (lookup_lt_is_Some_2
              (verdicts cleanup_predicate
                 (ThreadSafeHashMap.enumerate (store_ st)) (clock st)) i)
    as [hit Hv].
  { rewrite length_verdicts. by eapply lookup_lt_Some. }
  rewrite (Hat i k entry hit Hi Hv).
  rewrite (verdicts_cleanup _ _ i k entry Hi) in Hv. by injection Hv as <-.
Qed.

Lemma cleanup_expired_absent st k :
  store_ st !! k = None -> store_ (cleanup_expired st).2 !! k = None.
Proof.
  intros Hk. rewrite cleanup_expired_unfold. cbv zeta. cbn [snd store_].
  destruct (remove_if_spec cleanup_predicate (store_ st) (clock st))
    as (m' & Heq & _ & Hout & _). rewrite Heq. by apply Hout.
Qed.

Lemma cleanup_expired_count st :
  (cleanup_expired st).1
  = (base.size (store_ st) - base.size (store_ (cleanup_expired st).2))%nat
  /\ (base.size (store_ (cleanup_expired st).2) <= base.size (store_ st))%nat.
Proof.
  rewrite cleanup_expired_unfold. cbv zeta. cbn [fst snd store_].
  destruct (remove_if_shrinks cleanup_predicate (store_ st) (clock st))
    as (_ & Hle & Hc). by split.
Qed.

(** An entry without expiry survives every sweep. *)
Lemma cleanup_expired_keeps_permanent st k entry :
  store_ st !! k = Some entry -> expires_at entry = None ->
  store_ (cleanup_expired st).2 !! k = Some entry.
Proof.
  intros Hk He. destruct (cleanup_expired_lookup st k entry Hk) as (i & _ & ->).
  unfold expired_at. by rewrite He.
Qed.

(** An entry that had expired when the sweep began is removed. *)
Lemma cleanup_expired_removes_elapsed st k entry t :
  store_ st !! k = Some entry -> expires_at entry = Some t ->
  t <= last (clock st) ->
  store_ (cleanup_expired st).2 !! k = None.
Proof.
  intros Hk He Ht. destruct (cleanup_expired_lookup st k entry Hk) as (i & Hi & ->).
  pose proof (inspected_at_bounds _ (clock st) i k entry t Hi He) as [Hlo _].
  unfold expired_at. rewrite He. rewrite bool_decide_eq_true_2; [done|].
  etrans; [exact Ht|exact Hlo].
Qed.

(** An entry that has not expired when the sweep returns is kept. *)
Lemma cleanup_expired_keeps_fresh st k entry t :
  store_ st !! k = Some entry -> expires_at entry = Some t ->
  last (clock (cleanup_expired st).2) < t ->
  store_ (cleanup_expired st).2 !! k = Some entry.
Proof.
  intros Hk He Ht. destruct (cleanup_expired_lookup st k entry Hk) as (i & Hi & ->).
  pose proof (inspected_at_bounds _ (clock st) i k entry t Hi He) as [_ Hhi].
  rewrite cleanup_expired_clock in Ht.
  unfold expired_at. rewrite He. rewrite bool_decide_eq_false_2; [done|].
  intros Hle. apply (Z.lt_irrefl t). eapply Z.le_lt_trans; [|exact Ht].
  etrans; [exact Hle|exact Hhi].
Qed.

End SweepFacts.

(* ===================================================================== *)
(** * KeyValueStore: get, set and remove *)
(* ===================================================================== *)

Section PointOperations.
Import Chrono KeyValueStore Timing.
Context `{!ThreadSafeHashMap.IterationOrder string KeyValueStore.StoreEntry}.
Implicit Types (st : State) (k key v : string) (entry : StoreEntry).

Lemma expired_at_true t entry :
  expired_at t entry = true
  <-> exists x, expires_at entry = Some x /\ x <= t.
Proof.
  unfold expired_at. destruct (expires_at entry) as [x|].
  - rewrite bool_decide_eq_true. split; [by exists x|].
    by intros (y & [= <-] & Hy).
  - split; [done|]. by intros (y & Hy & _).
Qed.

(** [get] on an entry that has no expiry. *)
Lemma get_permanent st k v :
  store_ st !! k = Some (mk_entry v None) -> get k st = (Some v, st).
Proof.
  intros Hk. unfold get, ThreadSafeHashMap.get. rewrite Hk.
  rewrite is_expired_permanent by done. by destruct st.
Qed.

Lemma calculate_expiry_none (ttl_seconds : Z) (c : steady_clock) :
  ttl_seconds <= 0 -> calculate_expiry ttl_seconds c = (None, c).
Proof.
  intros Hle. unfold calculate_expiry. by rewrite bool_decide_eq_true_2.
Qed.

Lemma calculate_expiry_some (ttl_seconds : Z) (c : steady_clock) :
  0 < ttl_seconds ->
  calculate_expiry ttl_seconds c
  = (Some (fst (now c) + seconds ttl_seconds), snd (now c)).
Proof.
  intros Hpos. unfold calculate_expiry.
  by rewrite bool_decide_eq_false_2 by lia.
Qed.

Lemma set_unfold st k v ttl_seconds :
  set k v ttl_seconds st
  = {| store_ := <[k := mk_entry v (calculate_expiry ttl_seconds (clock st)).1]>
                   (store_ st);
       clock := (calculate_expiry ttl_seconds (clock st)).2 |}.
Proof.
  unfold set. by destruct (calculate_expiry ttl_seconds (clock st)).
Qed.

Lemma set_lookup st k v ttl_seconds :
  store_ (set k v ttl_seconds st)
  = <[k := mk_entry v (calculate_expiry ttl_seconds (clock st)).1]> (store_ st).
Proof.
  unfold set. by destruct (calculate_expiry ttl_seconds (clock st)).
Qed.

(** Serving a request that does not write [k] leaves an entry of [k]
    without expiry where it is. *)
Lemma serve_keeps_permanent (r : Request) st k v :
  writes k r = false ->
  store_ st !! k = Some (mk_entry v None) ->
  store_ (serve r st) !! k = Some (mk_entry v None).
Proof.
  intros Hw Hk. destruct r as [key|key value ttl|key| |]; simpl in *.
  - unfold get, ThreadSafeHashMap.get.
    destruct (store_ st !! key) as [entry|] eqn:Hkey; [|done].
    destruct (is_expired entry (clock st)) as [hit c'] eqn:He.
    destruct hit; simpl; [|done].
    destruct (decide (key = k)) as [->|Hne].
    + rewrite Hk in Hkey. injection Hkey as <-.
      by rewrite is_expired_permanent in He.
    + by rewrite lookup_delete_ne.
  - apply bool_decide_eq_false in Hw. rewrite set_lookup.
    by rewrite lookup_insert_ne.
  - apply bool_decide_eq_false in Hw. unfold remove. simpl.
    by rewrite lookup_delete_ne.
  - unfold keys. by destruct (ThreadSafeHashMap.for_each _ _ _).
  - by apply cleanup_expired_keeps_permanent.
Qed.

Lemma serve_all_keeps_permanent (rs : list Request) st k v :
  forallb (fun r => negb (writes k r)) rs = true ->
  store_ st !! k = Some (mk_entry v None) ->
  store_ (serve_all rs st) !! k = Some (mk_entry v None).
Proof.
  revert st. induction rs as [|r rs IH]; intros st Hrs Hk; [done|].
  simpl in Hrs. apply andb_true_iff in Hrs as [Hr Hrs].
  apply negb_true_iff in Hr. simpl. apply IH; [done|].
  by apply serve_keeps_permanent.
Qed.

(** C1.  [get(k)] returns none when the store has no entry for [k], and
    then changes nothing.  When there is an entry and the time read by
    the call is at or past its [expires_at], [get(k)] returns none and
    leaves the store with [k] erased.  Otherwise it returns the value of
    the entry and leaves the store as it was. *)
Theorem get_lazy_deletion (k : string) (st : State) :
  let t := fst (now (clock st)) in
  (store_ st !! k = None -> get k st = (None, st))
  /\ (forall entry x,
        store_ st !! k = Some entry -> expires_at entry = Some x -> x <= t ->
        (get k st).1 = None
        /\ store_ (get k st).2 = delete k (store_ st))
  /\ (forall entry,
        store_ st !! k = Some entry -> expired_at t entry = false ->
        (get k st).1 = Some (value entry)
        /\ store_ (get k st).2 = store_ st).
Proof.
  intros t. subst t. unfold get, ThreadSafeHashMap.get. split; [|split].
  - by intros ->.
  - intros entry x Hk Hx Hle. rewrite Hk.
    pose proof (is_expired_verdict entry (clock st)) as Hv.
    destruct (is_expired entry (clock st)) as [hit c']. cbn [fst] in Hv.
    assert (Ht : hit = true).
    { rewrite Hv. apply expired_at_true. by exists x. }
    by rewrite Ht.
  - intros entry Hk Hf. rewrite Hk.
    pose proof (is_expired_verdict entry (clock st)) as Hv.
    destruct (is_expired entry (clock st)) as [hit c']. cbn [fst] in Hv.
    rewrite Hf in Hv. by rewrite Hv.
Qed.

(** C5.  [remove(k)] returns true exactly when the store holds an entry
    for [k] at the call, whatever its expiry, and leaves the store with
    [k] erased; the clock is not consulted.  On an absent key it returns
    false, and so does a second [remove(k)] after any first one; an entry
    that has expired but is still in the store makes it return true. *)
Theorem remove_reports_presence (k : string) (st : State) :
  ((remove k st).1 = true <-> is_Some (store_ st !! k))
  /\ store_ (remove k st).2 = delete k (store_ st)
  /\ clock (remove k st).2 = clock st
  /\ (store_ st !! k = None -> (remove k st).1 = false)
  /\ (remove k (remove k st).2).1 = false
  /\ (forall entry x,
        store_ st !! k = Some entry -> expires_at entry = Some x ->
        x <= last (clock st) ->
        (remove k st).1 = true).
Proof.
  unfold remove, ThreadSafeHashMap.remove. cbn [fst snd store_ clock].
  split; [apply bool_decide_eq_true|]. do 2 (split; [done|]).
  split; [|split].
  - intros ->. apply bool_decide_eq_false. by intros [x Hx].
  - apply bool_decide_eq_false. rewrite lookup_delete_eq. by intros [x Hx].
  - intros entry x -> _ _. by apply bool_decide_eq_true.
Qed.

(** C4.  A second [set] on a key replaces the entry of the first in
    full: the store is what the second [set] alone would have made of
    the store before the first, so neither the earlier value nor the
    earlier expiry is left.  When the second [set] has no TTL the
    entry has no expiry, and [get(k)] returns its value whatever the
    clock says afterwards, also when the first [set] had a TTL. *)
Theorem set_overwrites (k a b : string) (ttl1 ttl2 : Z) (st : State) :
  let st1 := set k a ttl1 st in
  let st2 := set k b ttl2 st1 in
  store_ st2
    = <[k := mk_entry b (calculate_expiry ttl2 (clock st1)).1]> (store_ st)
  /\ store_ st2 !! k = Some (mk_entry b (calculate_expiry ttl2 (clock st1)).1)
  /\ (ttl2 <= 0 ->
      store_ st2 !! k = Some (mk_entry b None)
      /\ forall c, (get k {| store_ := store_ st2; clock := c |}).1 = Some b)
  /\ (get k (set k "b" 0 (set k "a" 0 st))).1 = Some "b".
Proof.
  intros st1 st2. subst st2 st1.
  assert (Hnone : forall v ttl s, ttl <= 0 ->
            store_ (set k v ttl s) !! k = Some (mk_entry v None)).
  { intros v ttl s Hle. rewrite set_lookup, lookup_insert_eq.
    unfold calculate_expiry. by rewrite bool_decide_eq_true_2. }
  split; [|split; [|split]].
  - rewrite !set_lookup. unfold ThreadSafeHashMap.set.
    by rewrite insert_insert_eq.
  - by rewrite set_lookup, lookup_insert_eq.
  - intros Hle. split; [by apply Hnone|].
    intros c. by rewrite (get_permanent _ k b) by (by apply Hnone).
  - by rewrite (get_permanent _ k "b") by (by apply Hnone).
Qed.

(** C3.  After [set(k, v, ttl_seconds)] with [ttl_seconds <= 0] the entry
    of [k] has no expiry and the clock was not read; from then on, however
    much time passes and whatever requests that do not write [k] are
    served in between (reads, listings, sweeps, writes of other keys),
    [get(k)] returns [v].  With [ttl_seconds > 0] the entry's [expires_at]
    is the time read by the call plus [ttl_seconds] seconds. *)
Theorem set_expiry (k v : string) (ttl_seconds : Z) (st : State) :
  let st1 := set k v ttl_seconds st in
  (ttl_seconds <= 0 ->
     store_ st1 !! k = Some (mk_entry v None)
     /\ clock st1 = clock st
     /\ forall (rs : list Request) (c : steady_clock),
          forallb (fun r => negb (writes k r)) rs = true ->
          (get k (serve_all rs {| store_ := store_ st1; clock := c |})).1
          = Some v)
  /\ (0 < ttl_seconds ->
      store_ st1 !! k
      = Some (mk_entry v (Some (fst (now (clock st)) + seconds ttl_seconds)))).
Proof.
  intros st1. subst st1. split.
  - intros Hle.
    assert (Hk : store_ (set k v ttl_seconds st) !! k = Some (mk_entry v None)).
    { rewrite set_lookup, lookup_insert_eq.
      unfold calculate_expiry. by rewrite bool_decide_eq_true_2. }
    split; [exact Hk|]. split.
    + unfold set, calculate_expiry. by rewrite bool_decide_eq_true_2.
    + intros rs c Hrs. rewrite (get_permanent _ k v); [done|].
      by apply serve_all_keeps_permanent.
  - intros Hpos. rewrite set_lookup, lookup_insert_eq.
    unfold calculate_expiry. rewrite bool_decide_eq_false_2 by lia. done.
Qed.

End PointOperations.

(* ===================================================================== *)
(** * KeyValueStore: keys and cleanup_expired *)
(* ===================================================================== *)

Section Scans.
Import Chrono KeyValueStore Timing.
Context `{!ThreadSafeHashMap.IterationOrder string KeyValueStore.StoreEntry}.
Implicit Types (st : State) (k : string) (entry : StoreEntry).

Lemma first_reading_le_nth (c : steady_clock) (i : nat) :
  fst (now c) <= nth_reading c i.
Proof.
  destruct i as [|i]; [reflexivity|]. cbn [nth_reading].
  rewrite <- now_reading. apply (nth_reading_bounds i (S i)). lia.
Qed.

(** An entry that has expired by the first reading of a sweep is removed
    by it. *)
Lemma cleanup_expired_removes_due st k entry x :
  store_ st !! k = Some entry -> expires_at entry = Some x ->
  x <= fst (now (clock st)) ->
  store_ (cleanup_expired st).2 !! k = None.
Proof.
  intros Hk He Hx.
  destruct (cleanup_expired_lookup st k entry Hk) as (i & Hi & ->).
  unfold expired_at. rewrite He. rewrite bool_decide_eq_true_2; [done|].
  etrans; [exact Hx|]. apply first_reading_le_nth.
Qed.

(** The sweep of a store with one permanent entry and one entry that is
    due. *)
Lemma cleanup_expired_one_of_two (kp kt : string) (ep et : StoreEntry)
    (x : time_point) (c : steady_clock) :
  kp <> kt -> expires_at ep = None -> expires_at et = Some x ->
  x <= fst (now c) ->
  let st := {| store_ := <[kt := et]> (<[kp := ep]> ∅); clock := c |} in
  (cleanup_expired st).1 = 1%nat
  /\ store_ (cleanup_expired st).2 = {[kp := ep]}.
Proof.
  intros Hne Hp Ht Hx st.
  assert (Hkp : store_ st !! kp = Some ep).
  { simpl. by rewrite lookup_insert_ne, lookup_insert_eq. }
  assert (Hkt : store_ st !! kt = Some et).
  { simpl. by rewrite lookup_insert_eq. }
  assert (Hm : store_ (cleanup_expired st).2 = {[kp := ep]}).
  { apply map_eq. intros k.
    destruct (decide (k = kp)) as [->|Hnp].
    - rewrite lookup_singleton_eq.
      by apply cleanup_expired_keeps_permanent.
    - rewrite lookup_singleton_ne by done.
      destruct (decide (k = kt)) as [->|Hnt].
      + by apply (cleanup_expired_removes_due st kt et x).
      + apply cleanup_expired_absent. simpl.
        by rewrite !lookup_insert_ne, lookup_empty. }
  split; [|exact Hm].
  destruct (cleanup_expired_count st) as [-> _]. rewrite Hm.
  rewrite map_size_singleton. simpl.
  rewrite map_size_insert_None by (by rewrite lookup_insert_ne, lookup_empty).
  rewrite map_size_insert_None by apply lookup_empty.
  by rewrite map_size_empty.
Qed.

(** C6.  Whatever the order in which the map is traversed: [keys()]
    leaves the store as it was, expired entries included.  The traversal
    [its] meets each entry of the store once.  What [keys()] returns are
    the keys of the entries that were not expired as of the clock reading
    taken when the traversal inspected them, each once and in the order of
    the traversal; the clock has been read once for every entry that has
    an expiry. *)
Theorem keys_lists_unexpired_and_erases_nothing (st : State) :
  let its := ThreadSafeHashMap.enumerate (store_ st) in
  let r := keys st in
  store_ r.2 = store_ st
  /\ (NoDup its.*1
      /\ forall k entry, (k, entry) ∈ its <-> store_ st !! k = Some entry)
  /\ (forall k,
        k ∈ r.1
        <-> exists (i : nat) entry,
              its !! i = Some (k, entry)
              /\ expired_at (inspected_at (clock st) its i) entry = false)
  /\ r.1 `sublist_of` its.*1
  /\ NoDup r.1
  /\ clock r.2 = after_reads (clock st) (readings_before its (length its)).
Proof.
  intros its r. subst r. unfold keys, ThreadSafeHashMap.for_each.
  rewrite for_each_loop_keys. fold its. cbn [fst snd store_ clock app].
  split; [done|]. split; [|split; [|split; [|split]]].
  - split; [apply NoDup_fst_enumerate|]. intros k entry.
    apply elem_of_enumerate.
  - intros k. rewrite elem_of_spared. split.
    + intros (i & entry & Hi & Hv). exists i, entry. split; [done|].
      rewrite (verdicts_cleanup its _ i k entry Hi) in Hv. by injection Hv.
    + intros (i & entry & Hi & Hv). exists i, entry. split; [done|].
      by rewrite (verdicts_cleanup its _ i k entry Hi), Hv.
  - apply spared_sublist.
  - eapply sublist_NoDup; [|apply spared_sublist].
    apply NoDup_fst_enumerate.
  - apply final_state_cleanup.
Qed.

(** C2, as the code has it.  Whatever the order in which the map is
    traversed: [cleanup_expired()] reads the clock anew for every entry
    that has an expiry, when the traversal [its] reaches it, and judges the
    entry against that reading: the entry is erased when its [expires_at]
    is at or before the reading and kept as it is otherwise.  The traversal
    meets each entry of the store once.  So every entry that is due at the
    first reading of the call is erased.  Nothing is added, and the count
    returned is the number of entries erased. *)
Theorem cleanup_expired_judges_each_entry_at_its_reading (st : State) :
  let its := ThreadSafeHashMap.enumerate (store_ st) in
  let r := cleanup_expired st in
  (NoDup its.*1
   /\ forall k entry, (k, entry) ∈ its <-> store_ st !! k = Some entry)
  /\ (forall (i : nat) k entry,
        its !! i = Some (k, entry) ->
        store_ r.2 !! k
        = if expired_at (inspected_at (clock st) its i) entry
          then None else Some entry)
  /\ (forall k entry x,
        store_ st !! k = Some entry -> expires_at entry = Some x ->
        x <= fst (now (clock st)) ->
        store_ r.2 !! k = None)
  /\ (forall k, store_ st !! k = None -> store_ r.2 !! k = None)
  /\ r.1 = (base.size (store_ st) - base.size (store_ r.2))%nat
  /\ clock r.2 = after_reads (clock st) (readings_before its (length its)).
Proof.
  intros its r. subst its r. split; [|split; [|split; [|split; [|split]]]].
  - split; [apply NoDup_fst_enumerate|]. intros k entry.
    apply elem_of_enumerate.
  - intros i k entry. apply cleanup_expired_at.
  - intros k entry x. apply cleanup_expired_removes_due.
  - apply cleanup_expired_absent.
  - apply cleanup_expired_count.
  - rewrite cleanup_expired_clock. apply final_state_cleanup.
Qed.

(** C7, as the code has it.  Whatever the order in which the map is
    traversed: [cleanup_expired()] erases every entry whose TTL has elapsed
    by the first clock reading of the call, and leaves untouched (same key,
    value and expiry) every entry that has no expiry or whose expiry is
    still ahead when the call returns; an entry whose TTL runs out while
    the scan is under way is erased or kept according to the reading taken
    when the traversal [its] reaches it.  What is left is part of what was
    there, and the count returned is the number of entries erased.  With
    one permanent key and one key with a TTL that has elapsed since it was
    set, the call returns 1 and [get] still returns the value of the
    permanent key. *)
Theorem cleanup_expired_removes_the_elapsed (st : State) :
  let its := ThreadSafeHashMap.enumerate (store_ st) in
  let r := cleanup_expired st in
  (forall k entry x,
     store_ st !! k = Some entry -> expires_at entry = Some x ->
     x <= fst (now (clock st)) ->
     store_ r.2 !! k = None)
  /\ (forall k entry,
        store_ st !! k = Some entry ->
        (expires_at entry = None
         \/ exists x, expires_at entry = Some x /\ last (clock r.2) < x) ->
        store_ r.2 !! k = Some entry)
  /\ ((forall k entry, store_ st !! k = Some entry -> (k, entry) ∈ its)
      /\ forall (i : nat) k entry,
           its !! i = Some (k, entry) ->
           store_ r.2 !! k
           = if expired_at (inspected_at (clock st) its i) entry
             then None else Some entry)
  /\ store_ r.2 ⊆ store_ st
  /\ r.1 = (base.size (store_ st) - base.size (store_ r.2))%nat
  /\ (forall (kp vp kt vt : string) (ttl : Z) (c : steady_clock),
        kp <> kt -> 0 < ttl ->
        seconds ttl <= Z.of_N (elapse c (S (reads c))) ->
        let st2 := set kt vt ttl (set kp vp 0 {| store_ := ∅; clock := c |}) in
        (cleanup_expired st2).1 = 1%nat
        /\ (get kp (cleanup_expired st2).2).1 = Some vp).
Proof.
  intros its r. subst its r. split; [|split; [|split; [|split; [|split]]]].
  - intros k entry x. apply cleanup_expired_removes_due.
  - intros k entry Hk [He|(x & He & Hx)].
    + by apply cleanup_expired_keeps_permanent.
    + by apply (cleanup_expired_keeps_fresh st k entry x).
  - split; [intros k entry; apply elem_of_enumerate|].
    intros i k entry. apply cleanup_expired_at.
  - rewrite cleanup_expired_unfold. cbv zeta. cbn [snd store_].
    apply (remove_if_shrinks cleanup_predicate (store_ st) (clock st)).
  - apply cleanup_expired_count.
  - intros kp vp kt vt ttl c Hne Hpos Hgap st2.
    assert (Hst2 : st2 = {| store_ := <[kt := mk_entry vt
                               (Some (fst (now c) + seconds ttl))]>
                               (<[kp := mk_entry vp None]> ∅);
                            clock := snd (now c) |}).
    { subst st2. rewrite !set_unfold. cbn [clock store_].
      rewrite (calculate_expiry_none 0) by lia. cbn [fst snd].
      by rewrite (calculate_expiry_some ttl) by lia. }
    rewrite Hst2.
    destruct (cleanup_expired_one_of_two kp kt (mk_entry vp None)
                (mk_entry vt (Some (fst (now c) + seconds ttl)))
                (fst (now c) + seconds ttl) (snd (now c)))
      as [Hcount Hm]; try done.
    { unfold now. cbn [fst snd last reads elapse]. lia. }
    split; [exact Hcount|].
    rewrite (get_permanent _ kp vp); [done|].
    rewrite Hm. apply lookup_singleton_eq.
Qed.

End Scans.

(* ===================================================================== *)
(** * The sweep has no single "now" *)
(* ===================================================================== *)

Section NoSingleNow.
Import Chrono KeyValueStore Timing.

(** A sweep along a traversal that is known. *)
Lemma cleanup_expired_along
    `{!ThreadSafeHashMap.IterationOrder string StoreEntry}
    (st : State) (its : list (string * StoreEntry)) :
  ThreadSafeHashMap.enumerate (store_ st) = its ->
  cleanup_expired st
  = let r := ThreadSafeHashMap.remove_if_loop cleanup_predicate its
               (store_ st) 0 (clock st) in
    (r.1.1, {| store_ := r.1.2; clock := r.2 |}).
Proof.
  intros <-. rewrite cleanup_expired_unfold.
  by unfold ThreadSafeHashMap.remove_if.
Qed.

(** Every traversal of a store is one of the arrangements of its
    entries. *)
Lemma enumerate_arrangement
    `{!ThreadSafeHashMap.IterationOrder string StoreEntry} (st : State) :
  ThreadSafeHashMap.enumerate (store_ st)
  ∈ permutations (map_to_list (store_ st)).
Proof.
  apply permutations_Permutation. symmetry.
  apply ThreadSafeHashMap.enumerate_entries.
Qed.

(** In [Scenario.twins] the entry the traversal meets first is kept and
    the other one is erased. *)
Lemma twins_sweep
    `{!ThreadSafeHashMap.IterationOrder string StoreEntry} :
  let r := cleanup_expired Scenario.twins in
  r.1 = 1%nat
  /\ reads (clock r.2) = (reads (clock Scenario.twins) + 2)%nat
  /\ ((store_ r.2 !! "a" = Some (mk_entry "x" (Some 3000000000))
       /\ store_ r.2 !! "b" = None)
      \/ (store_ r.2 !! "a" = None
          /\ store_ r.2 !! "b" = Some (mk_entry "y" (Some 3000000000)))).
Proof.
  pose proof (enumerate_arrangement Scenario.twins) as Hin.
  assert (Hp : permutations (map_to_list (store_ Scenario.twins))
               = [[("a", mk_entry "x" (Some 3000000000));
                   ("b", mk_entry "y" (Some 3000000000))];
                  [("b", mk_entry "y" (Some 3000000000));
                   ("a", mk_entry "x" (Some 3000000000))]])
    by (vm_compute; reflexivity).
  rewrite Hp in Hin. clear Hp.
  rewrite !elem_of_cons, elem_of_nil in Hin.
  destruct Hin as [Hin|[Hin|[]]];
    rewrite (cleanup_expired_along _ _ Hin); cbv zeta.
  - split; [vm_compute; reflexivity|]. split; [vm_compute; reflexivity|].
    left. split; vm_compute; reflexivity.
  - split; [vm_compute; reflexivity|]. split; [vm_compute; reflexivity|].
    right. split; vm_compute; reflexivity.
Qed.

(** In [Scenario.trio] the permanent entry is kept, and of the two others
    the one the traversal meets first is kept and the other one is
    erased. *)
Lemma trio_sweep
    `{!ThreadSafeHashMap.IterationOrder string StoreEntry} :
  let r := cleanup_expired Scenario.trio in
  r.1 = 1%nat
  /\ ((store_ r.2 !! "t1" = Some (mk_entry "v1" (Some 5000000000))
       /\ store_ r.2 !! "t2" = None)
      \/ (store_ r.2 !! "t1" = None
          /\ store_ r.2 !! "t2" = Some (mk_entry "v2" (Some 5000000000)))).
Proof.
  pose proof (enumerate_arrangement Scenario.trio) as Hin.
  remember (permutations (map_to_list (store_ Scenario.trio))) as ps eqn:Hp.
  vm_compute in Hp. subst ps.
  rewrite !elem_of_cons, elem_of_nil in Hin.
  destruct Hin as [Hin|[Hin|[Hin|[Hin|[Hin|[Hin|[]]]]]]];
    rewrite (cleanup_expired_along _ _ Hin); cbv zeta;
    (split; [vm_compute; reflexivity|]);
    first [ left; split; vm_compute; reflexivity
          | right; split; vm_compute; reflexivity ].
Qed.

(** C2, as stated, fails, whatever the order in which the map is
    traversed.  In [Scenario.twins] both entries expire at the same
    instant, three seconds after the clock's epoch.  The sweep reaches its
    first entry 2.9 seconds after the epoch and its second entry a tenth
    of a second later: it reads the clock twice, keeps one entry and
    erases the other.  No single time point judges the two entries that
    way. *)
Lemma cleanup_expired_has_no_single_now :
  (store_ Scenario.twins !! "a" = Some (mk_entry "x" (Some 3000000000))
   /\ store_ Scenario.twins !! "b" = Some (mk_entry "y" (Some 3000000000)))
  /\ forall order : ThreadSafeHashMap.IterationOrder string StoreEntry,
       (cleanup_expired Scenario.twins).1 = 1%nat
       /\ reads (clock (cleanup_expired Scenario.twins).2)
          = (reads (clock Scenario.twins) + 2)%nat
       /\ ~ exists t : time_point,
              forall k entry,
                store_ Scenario.twins !! k = Some entry ->
                (store_ (cleanup_expired Scenario.twins).2 !! k = None
                 <-> expired_at t entry = true).
Proof.
  assert (Ha : store_ Scenario.twins !! "a"
               = Some (mk_entry "x" (Some 3000000000)))
    by (vm_compute; reflexivity).
  assert (Hb : store_ Scenario.twins !! "b"
               = Some (mk_entry "y" (Some 3000000000)))
    by (vm_compute; reflexivity).
  split; [split; [exact Ha|exact Hb]|]. intros order.
  destruct (@twins_sweep order) as (Hcount & Hreads & Hfate).
  split; [exact Hcount|]. split; [exact Hreads|].
  set (st := Scenario.twins) in *. set (r := cleanup_expired st) in *.
  clearbody r. clearbody st.
  intros [t Ht].
  pose proof (Ht "a" _ Ha) as Hta. pose proof (Ht "b" _ Hb) as Htb.
  unfold expired_at in Hta, Htb. cbn [expires_at] in Hta, Htb.
  destruct Hfate as [[Ha' Hb']|[Ha' Hb']].
  - pose proof (proj2 Hta (proj1 Htb Hb')) as Hgone.
    rewrite Ha' in Hgone. discriminate.
  - pose proof (proj2 Htb (proj1 Hta Ha')) as Hgone.
    rewrite Hb' in Hgone. discriminate.
Qed.

(** C7, as stated, fails, whatever the order in which the map is
    traversed.  In [Scenario.trio] the TTLs of two keys run out at the
    same instant, five seconds after the clock's epoch.  The sweep erases
    one of the two and returns 1: the store it leaves is not the store
    without the entries elapsed as of [t], whatever [t] is. *)
Lemma cleanup_expired_not_the_elapsed_at_an_instant :
  (store_ Scenario.trio !! "t1" = Some (mk_entry "v1" (Some 5000000000))
   /\ store_ Scenario.trio !! "t2" = Some (mk_entry "v2" (Some 5000000000)))
  /\ forall order : ThreadSafeHashMap.IterationOrder string StoreEntry,
       (cleanup_expired Scenario.trio).1 = 1%nat
       /\ ~ exists t : time_point,
              store_ (cleanup_expired Scenario.trio).2
              = filter (fun kv => expired_at t kv.2 = false)
                  (store_ Scenario.trio).
Proof.
  assert (H1 : store_ Scenario.trio !! "t1"
               = Some (mk_entry "v1" (Some 5000000000)))
    by (vm_compute; reflexivity).
  assert (H2 : store_ Scenario.trio !! "t2"
               = Some (mk_entry "v2" (Some 5000000000)))
    by (vm_compute; reflexivity).
  split; [split; [exact H1|exact H2]|]. intros order.
  destruct (@trio_sweep order) as (Hcount & Hfate).
  split; [exact Hcount|].
  set (st := Scenario.trio) in *. set (r := cleanup_expired st) in *.
  clearbody r. clearbody st.
  intros [t Ht]. rewrite Ht in Hfate.
  destruct Hfate as [[H1' H2']|[H1' H2']].
  - apply map_lookup_filter_Some in H1' as [_ Hfresh].
    apply map_lookup_filter_None in H2' as [Habs|Hdue]; [congruence|].
    apply (Hdue _ H2). exact Hfresh.
  - apply map_lookup_filter_Some in H2' as [_ Hfresh].
    apply map_lookup_filter_None in H1' as [Habs|Hdue]; [congruence|].
    apply (Hdue _ H1). exact Hfresh.
Qed.

End NoSingleNow.

(* ===================================================================== *)
(** * The statements at work on concrete stores *)
(* ===================================================================== *)

Section Instances.
Import Chrono KeyValueStore Timing.
Local Existing Instance ThreadSafeHashMap.canonical.

(** A predicate that is false everywhere, on a map with two entries. *)
Lemma remove_if_count_is_size_loss_witness :
  ThreadSafeHashMap.remove_if
    (ThreadSafeHashMap.pure_predicate (fun (_ : string) (_ : StoreEntry) => false))
    (store_ Scenario.mixed) ()
  = (0%nat, store_ Scenario.mixed, ()).
Proof.
  apply (proj2 (proj2 (proj2
           (remove_if_count_is_size_loss
              (ThreadSafeHashMap.pure_predicate (fun _ _ => false)) ()
              (fun _ _ => false) (store_ Scenario.mixed))))).
  reflexivity.
Defined.

(** An entry due at 5 is read at 7: [get] answers none and erases it. *)
Lemma get_lazy_deletion_witness :
  (get "session" (Scenario.session 0 7)).1 = None
  /\ store_ (get "session" (Scenario.session 0 7)).2
     = delete "session" (store_ (Scenario.session 0 7)).
Proof.
  apply (proj1 (proj2 (get_lazy_deletion "session" (Scenario.session 0 7)))
           (mk_entry "token" (Some 5)) 5).
  - vm_compute; reflexivity.
  - reflexivity.
  - vm_compute; discriminate.
Defined.

(** An expired entry that no sweep has met is still there to remove. *)
Lemma remove_reports_presence_witness :
  (remove "session" (Scenario.session 9 0)).1 = true.
Proof.
  apply (proj2 (proj2 (proj2 (proj2 (proj2
           (remove_reports_presence "session" (Scenario.session 9 0))))))
           (mk_entry "token" (Some 5)) 5).
  - vm_compute; reflexivity.
  - reflexivity.
  - vm_compute; discriminate.
Defined.

(** A one-second TTL is cleared by a later [set] without TTL: a thousand
    seconds on, [get] still returns the value. *)
Lemma set_overwrites_witness :
  store_ (set "k" "b" 0 (set "k" "a" 1 (Scenario.fresh []))) !! "k"
  = Some (mk_entry "b" None)
  /\ (get "k"
        {| store_ := store_ (set "k" "b" 0 (set "k" "a" 1 (Scenario.fresh [])));
           clock := clock_at 1000000000000 [] |}).1
     = Some "b".
Proof.
  destruct (proj1 (proj2 (proj2
              (set_overwrites "k" "a" "b" 1 0 (Scenario.fresh []))))
              ltac:(vm_compute; discriminate)) as [Hentry Hget].
  split; [exact Hentry|apply Hget].
Defined.

(** A key set without TTL outlives a sweep, reads, a listing and the
    writes of other keys; a key set for 60 seconds at tick 5 is due at
    tick 5 plus 60 seconds. *)
Lemma set_expiry_witness :
  (get "k" (serve_all [SWEEP; GET "k"; LIST; SET "other" "z" 3;
                       DELETE "other"; GET "other"]
              {| store_ := store_ (set "k" "v" 0 (Scenario.fresh [5%N]));
                 clock := clock_at 1000000000000 [7%N] |})).1
  = Some "v"
  /\ store_ (set "k" "v" 60 (Scenario.fresh [5%N])) !! "k"
     = Some (mk_entry "v" (Some 60000000005)).
Proof.
  split.
  - apply (proj2 (proj2 (proj1 (set_expiry "k" "v" 0 (Scenario.fresh [5%N]))
                           ltac:(vm_compute; discriminate)))).
    vm_compute; reflexivity.
  - apply (proj2 (set_expiry "k" "v" 60 (Scenario.fresh [5%N]))). reflexivity.
Defined.

(** A listing that meets a due entry leaves it in the store. *)
Lemma keys_lists_unexpired_witness :
  "a" ∈ (keys Scenario.mixed).1
  /\ store_ (keys Scenario.mixed).2 !! "b" = Some (mk_entry "2" (Some 5)).
Proof.
  destruct (keys_lists_unexpired_and_erases_nothing Scenario.mixed)
    as (Hstore & _ & Hlist & _).
  split.
  - apply Hlist. exists 0%nat, (mk_entry "1" None). split.
    + vm_compute; reflexivity.
    + reflexivity.
  - rewrite Hstore. vm_compute; reflexivity.
Defined.

(** A sweep whose first reading is 8 erases an entry due at 5. *)
Lemma cleanup_expired_judges_each_entry_witness :
  store_ (cleanup_expired Scenario.mixed).2 !! "b" = None.
Proof.
  apply (proj1 (proj2 (proj2
           (cleanup_expired_judges_each_entry_at_its_reading Scenario.mixed)))
           "b" (mk_entry "2" (Some 5)) 5).
  - vm_compute; reflexivity.
  - reflexivity.
  - vm_compute; discriminate.
Defined.

(** The test of the repository: a permanent key, a key with a TTL of one
    second, the sweep one and a half seconds later. *)
Lemma cleanup_expired_removes_the_elapsed_witness :
  (cleanup_expired
     (set "temporary" "goes away" 1
        (set "permanent" "stays forever" 0
           (Scenario.fresh [0; 1500000000]%N)))).1 = 1%nat
  /\ (get "permanent"
        (cleanup_expired
           (set "temporary" "goes away" 1
              (set "permanent" "stays forever" 0
                 (Scenario.fresh [0; 1500000000]%N)))).2).1
     = Some "stays forever".
Proof.
  apply (proj2 (proj2 (proj2 (proj2 (proj2
           (cleanup_expired_removes_the_elapsed (Scenario.fresh []))))))
           "permanent" "stays forever" "temporary" "goes away" 1
           (clock_at 0 [0; 1500000000]%N)).
  - discriminate.
  - reflexivity.
  - vm_compute; discriminate.
Defined.

End Instances.

(* ===================================================================== *)
(** * TcpServer::start when the listening socket cannot be set up *)
(* ===================================================================== *)

Section AcceptorFailure.
Import TcpServer.

(** C8.  When [socket], [bind] or [listen] fails, [start] returns, and
    returns whatever the number of loop iterations it is allowed: it has
    logged an error, it has never loaded the stop flag, called [accept]
    or submitted a task to the pool, and it has made none of the three
    calls a second time. *)
Theorem start_fails_before_accept_loop (w : World) (port_ : Z) (fuel : nat) :
  socket_ret w < 0 \/ bind_ret w < 0 \/ listen_ret w < 0 ->
  let r := start w port_ fuel in
  r.1 = HasReturned
  /\ existsb is_error_log r.2 = true
  /\ forallb (fun e => negb (in_accept_loop e)) r.2 = true
  /\ (calls sys_socket r.2 <= 1)%nat
  /\ (calls sys_bind r.2 <= 1)%nat
  /\ (calls sys_listen r.2 <= 1)%nat.
Proof.
  intros Hfail r. subst r.
  unfold start, create_tcp, bind_to, start_listening.
  destruct (bool_decide (socket_ret w < 0)) eqn:Hs;
    [cbn; repeat split; lia|].
  destruct (bool_decide (bind_ret w < 0)) eqn:Hb.
  { destruct (bool_decide (setsockopt_ret w < 0));
      cbn; repeat split; lia. }
  destruct (bool_decide (listen_ret w < 0)) eqn:Hl.
  { destruct (bool_decide (setsockopt_ret w < 0));
      cbn; repeat split; lia. }
  apply bool_decide_eq_false in Hs, Hb, Hl. lia.
Qed.

(** When the three calls succeed, [start] does reach the loop: the stop
    flag is loaded. *)
Lemma start_enters_accept_loop (w : World) (port_ : Z) (fuel : nat) :
  0 <= socket_ret w -> 0 <= bind_ret w -> 0 <= listen_ret w ->
  In StopLoaded (start w port_ (S fuel)).2.
Proof.
  intros Hs Hb Hl. unfold start, create_tcp, bind_to, start_listening.
  rewrite (bool_decide_eq_false_2 (socket_ret w < 0)) by lia.
  rewrite (bool_decide_eq_false_2 (bind_ret w < 0)) by lia.
  rewrite (bool_decide_eq_false_2 (listen_ret w < 0)) by lia.
  assert (Hloop : In StopLoaded (accept_loop w (S fuel) 0).2).
  { cbn [accept_loop]. destruct (stop_load w 0); [by left|].
    destruct (accept_connection w 0) as [[client|] ev];
      destruct (accept_loop w fuel 1) as [out rest]; by left. }
  destruct (accept_loop w (S fuel) 0) as [out ev4]. cbn [snd] in Hloop.
  destruct (bool_decide (setsockopt_ret w < 0)); cbn [negb snd];
    repeat (apply in_or_app; right); exact Hloop.
Qed.

(** The port is taken: [bind] fails. *)
Lemma start_fails_before_accept_loop_witness :
  (start port_taken 8080 1000).1 = HasReturned
  /\ existsb is_error_log (start port_taken 8080 1000).2 = true
  /\ forallb (fun e => negb (in_accept_loop e))
       (start port_taken 8080 1000).2 = true
  /\ (calls sys_socket (start port_taken 8080 1000).2 <= 1)%nat
  /\ (calls sys_bind (start port_taken 8080 1000).2 <= 1)%nat
  /\ (calls sys_listen (start port_taken 8080 1000).2 <= 1)%nat.
Proof.
  apply (start_fails_before_accept_loop port_taken 8080 1000).
  right; left. reflexivity.
Defined.

End AcceptorFailure.

(* ===================================================================== *)
(** * ExpiryManager::stop against the cleanup loop *)
(* ===================================================================== *)

Section SweeperStop.
Import ExpiryManager.
Context `{!ThreadSafeHashMap.IterationOrder string KeyValueStore.StoreEntry}.
Implicit Types (s : Sys) (sched : list Turn) (t : Turn).

(** [grants] is the subsequence test. *)
Lemma grants_sublist (pat : list bool) sched :
  grants pat sched = true <-> pat `sublist_of` (is_caller <$> sched).
Proof.
  revert pat. induction sched as [|t rest IH]; intros [|p ps]; simpl.
  - split; [intros _; apply sublist_nil_l|done].
  - split; [done|]. by intros ?%sublist_nil_r.
  - split; [intros _; apply sublist_nil_l|done].
  - rewrite sublist_cons_r. destruct (eqb p (is_caller t)) eqn:Hp.
    + apply eqb_prop in Hp as ->. rewrite IH. split.
      * intros Hps. right. by exists ps.
      * intros [Hall|(l' & [= <-] & Hps)]; [|done].
        etrans; [|exact Hall]. by apply sublist_cons.
    + apply eqb_false_iff in Hp. rewrite IH. split; [by left|].
      intros [Hall|(l' & [= -> _] & _)]; done.
Qed.

Lemma during_stop_step (b : bool) s0 s t :
  caller s0 = Returned -> joinable (cleanup_thread_ s0) = b ->
  during_stop b s0 s -> during_stop b s0 (step t s).
Proof.
  intros H0 Hb. unfold during_stop, call_stop.
  destruct s0 as [st0 iv0 th0 fl0 lg0 pc0]; simpl in H0, Hb; subst pc0.
  destruct s as [st iv th fl lg pc].
  destruct t as [|[]]; destruct pc, th as [|[]| |], fl, b;
    cbn; try done; intuition (simplify_eq /=; auto).
Qed.

Lemma during_stop_run (b : bool) s0 sched s :
  caller s0 = Returned -> joinable (cleanup_thread_ s0) = b ->
  during_stop b s0 s -> during_stop b s0 (run sched s).
Proof.
  intros H0 Hb. revert s. induction sched as [|t rest IH]; intros s Hs; [done|].
  simpl. apply IH. by apply during_stop_step.
Qed.

Lemma during_stop_call s0 :
  caller s0 = Returned ->
  during_stop (joinable (cleanup_thread_ s0)) s0 (call_stop s0).
Proof. intros H0. unfold during_stop. simpl. done. Qed.

Ltac sublist_by_matching :=
  repeat first [apply sublist_nil_l | apply sublist_skip | apply sublist_cons].

(** No turn sets the call back, and a turn of the thread the call is
    waiting for brings it forward. *)
Lemma remaining_turns_step (b : bool) s0 s t :
  caller s0 = Returned -> joinable (cleanup_thread_ s0) = b ->
  during_stop b s0 s ->
  remaining_turns (step t s) `sublist_of` remaining_turns s
  /\ (forall l', remaining_turns s = is_caller t :: l' ->
                 remaining_turns (step t s) `sublist_of` l').
Proof.
  intros H0 Hb. unfold during_stop, call_stop, remaining_turns.
  destruct s0 as [st0 iv0 th0 fl0 lg0 pc0]; simpl in H0, Hb; subst pc0.
  destruct s as [st iv th fl lg pc].
  destruct t as [|[]]; destruct pc, th as [|[]| |], fl, b;
    cbn; intros Hinv; try done;
    (split; [sublist_by_matching|intros l' Hl'; simplify_eq; sublist_by_matching]);
    intuition (simplify_eq /=).
Qed.

(** Under a schedule that grants the turns still needed, the call
    returns. *)
Lemma stop_returns_under (b : bool) s0 sched s :
  caller s0 = Returned -> joinable (cleanup_thread_ s0) = b ->
  during_stop b s0 s ->
  remaining_turns s `sublist_of` (is_caller <$> sched) ->
  caller (run sched s) = Returned.
Proof.
  intros H0 Hb. revert s. induction sched as [|t rest IH]; intros s Hinv Hsub.
  - apply sublist_nil_r in Hsub. simpl.
    unfold during_stop in Hinv. unfold remaining_turns in Hsub.
    destruct (caller s); try done.
    destruct Hinv as (_ & Hj & _).
    by destruct (cleanup_thread_ s) as [|[]| |].
  - simpl. destruct (remaining_turns_step b s0 s t H0 Hb Hinv) as [Hany Hturn].
    apply IH; [by apply during_stop_step|].
    simpl in Hsub. apply sublist_cons_r in Hsub as [Hall|(l' & Heq & Hl')].
    + by etrans.
    + etrans; [by apply Hturn|exact Hl'].
Qed.

(** [stop()] on a manager whose thread is not joinable. *)
Lemma stop_without_thread s sched :
  caller s = Returned -> joinable (cleanup_thread_ s) = false ->
  run sched (call_stop s)
  = if existsb is_caller sched then s else call_stop s.
Proof.
  intros H0 Hj.
  assert (Hidle : forall sched', run sched' s = s).
  { induction sched' as [|t rest IH]; [done|]. simpl.
    replace (step t s) with s; [done|].
    destruct s as [st iv th fl lg pc]; simpl in *; subst pc.
    by destruct t, th as [|[]| |]. }
  induction sched as [|t rest IH]; [done|]. simpl.
  destruct t as [|timed_out]; simpl.
  - replace (stop_step (call_stop s)) with s; [apply Hidle|].
    destruct s as [st iv th fl lg pc]; simpl in *; subst pc.
    unfold stop_step; simpl. by rewrite Hj.
  - replace (cleanup_loop_step timed_out (call_stop s)) with (call_stop s); [done|].
    destruct s as [st iv th fl lg pc]; simpl in *.
    by destruct th as [|[]| |].
Qed.

(** While the thread is running [cleanup_loop], the caller of [stop()]
    has not got past [join()]. *)
Lemma join_waits_for_the_loop s sched (pc : LoopPc) :
  caller s = Returned ->
  cleanup_thread_ (run sched (call_stop s)) = Running pc ->
  In (caller (run sched (call_stop s))) [AtJoinable; AtStore; AtNotify; AtJoin].
Proof.
  intros H0 Hpc.
  pose proof (during_stop_run _ s sched (call_stop s) H0 eq_refl
                (during_stop_call s H0)) as Hinv.
  unfold during_stop in Hinv.
  destruct (caller (run sched (call_stop s))) eqn:Hc; simpl; auto.
  - destruct Hinv as (_ & Hth & _). congruence.
  - destruct (joinable (cleanup_thread_ s)) eqn:Hj.
    + destruct Hinv as (Hth & _). congruence.
    + rewrite Hinv in Hpc. by rewrite Hpc in Hj.
Qed.

(** One turn of a call of [stop()] that has not got past [join()], with
    the thread running [cleanup_loop]: either the turn is the one at which
    the thread finds the flag set at the head of the loop and returns, or
    the thread is still running and the caller still not past [join()]. *)
Lemma turn_before_join s t (pc : LoopPc) :
  cleanup_thread_ s = Running pc ->
  In (caller s) [AtJoinable; AtStore; AtNotify; AtJoin] ->
  ((exists timed_out, t = SweeperTurn timed_out)
   /\ pc = LoopHead /\ stop_requested_ s = true
   /\ cleanup_thread_ (step t s) = Finished)
  \/ ((exists pc', cleanup_thread_ (step t s) = Running pc')
      /\ In (caller (step t s)) [AtJoinable; AtStore; AtNotify; AtJoin]
      /\ ((stop_requested_ s = true -> In (caller s) [AtNotify; AtJoin]) ->
          stop_requested_ (step t s) = true ->
          In (caller (step t s)) [AtNotify; AtJoin])).
Proof.
  intros Hpc Hin. destruct s as [st iv th fl lg c]. simpl in *. subst th.
  destruct t as [|timed_out].
  - right. destruct Hin as [<-|[<-|[<-|[<-|[]]]]]; cbn;
      (split; [eauto|]); simpl; intuition congruence.
  - destruct pc, fl; try destruct timed_out; cbn;
      first [ left; by eauto
            | right; (split; [eauto|]); (split; [exact Hin|]); naive_solver ].
Qed.

(** A call of [stop()] that finds the thread running [cleanup_loop]
    returns only after the thread has left the loop by itself: among the
    turns of the call there is one of the sweeper at which the thread
    stands at the head of the loop, finds the flag set and returns, and
    at that turn the caller has not got past [join()]. *)
Lemma loop_exit_precedes_return sched s :
  (exists pc, cleanup_thread_ s = Running pc) ->
  In (caller s) [AtJoinable; AtStore; AtNotify; AtJoin] ->
  caller (run sched s) = Returned ->
  exists pre timed_out post,
    sched = pre ++ SweeperTurn timed_out :: post
    /\ cleanup_thread_ (run pre s) = Running LoopHead
    /\ stop_requested_ (run pre s) = true
    /\ In (caller (run pre s)) [AtJoinable; AtStore; AtNotify; AtJoin]
    /\ ((stop_requested_ s = true -> In (caller s) [AtNotify; AtJoin]) ->
        In (caller (run pre s)) [AtNotify; AtJoin])
    /\ cleanup_thread_ (run (pre ++ [SweeperTurn timed_out]) s) = Finished.
Proof.
  revert s. induction sched as [|t rest IH]; intros s [pc Hpc] Hin Hret.
  - simpl in Hret. rewrite Hret in Hin. simpl in Hin.
    intuition discriminate.
  - simpl in Hret.
    destruct (turn_before_join s t pc Hpc Hin)
      as [([timed_out ->] & -> & Hfl & Hfin)|(Hpc' & Hin' & Hlate)].
    + exists [], timed_out, rest. simpl. split; [done|].
      split; [exact Hpc|]. split; [exact Hfl|]. split; [exact Hin|].
      split; [auto|exact Hfin].
    + destruct (IH (step t s) Hpc' Hin' Hret)
        as (pre & timed_out & post & -> & Hhead & Hfl & Hc & Hc' & Hfin).
      exists (t :: pre), timed_out, post. simpl. split; [done|].
      split; [exact Hhead|]. split; [exact Hfl|]. split; [exact Hc|].
      split; [|exact Hfin]. intros Hs. apply Hc'. by apply Hlate.
Qed.

(** C9.  Take a manager on which no [stop()] is in progress, call
    [stop()], and let the caller and the sweeper thread take turns in
    any order.  The call never throws.  Whenever it has returned, the
    thread is not running: if it was joinable at the call, the stop flag
    is set and the thread has left [cleanup_loop] and has been joined.
    Under every schedule that starves neither thread the call does
    return.  If the thread was not joinable at the call (never started,
    or stopped before), the call returns at the caller's first turn and
    the manager is exactly as it was; so a second [stop()] after a first
    one that has returned changes nothing.
    The call blocks until the loop has exited.  At no point of the call
    at which the thread is still running [cleanup_loop] has the caller
    got past [join()].  And if the thread was running the loop at the
    call and the call has returned, then among the turns of the call
    there is a turn of the sweeper thread at which the thread itself,
    standing at the head of the loop, finds the stop flag set and leaves
    [cleanup_loop]; at that turn the caller has not got past [join()],
    and it has executed [stop_requested_.store(true)] if the flag was not
    set at the call. *)
Theorem stop_joins_the_loop (s : Sys) (sched : list Turn) :
  caller s = Returned ->
  let s' := stop sched s in
  caller s' <> Threw
  /\ (caller s' = Returned ->
      joinable (cleanup_thread_ s') = false
      /\ (joinable (cleanup_thread_ s) = true ->
          cleanup_thread_ s' = Joined /\ stop_requested_ s' = true))
  /\ (fair sched = true -> caller s' = Returned)
  /\ (joinable (cleanup_thread_ s) = false ->
      existsb is_caller sched = true -> s' = s)
  /\ (caller s' = Returned ->
      forall again, existsb is_caller again = true -> stop again s' = s')
  /\ (forall pre post (pc : LoopPc),
        sched = pre ++ post ->
        cleanup_thread_ (stop pre s) = Running pc ->
        In (caller (stop pre s)) [AtJoinable; AtStore; AtNotify; AtJoin])
  /\ ((exists pc, cleanup_thread_ s = Running pc) ->
      caller s' = Returned ->
      exists pre timed_out post,
        sched = pre ++ SweeperTurn timed_out :: post
        /\ cleanup_thread_ (stop pre s) = Running LoopHead
        /\ stop_requested_ (stop pre s) = true
        /\ In (caller (stop pre s)) [AtJoinable; AtStore; AtNotify; AtJoin]
        /\ (stop_requested_ s = false ->
            In (caller (stop pre s)) [AtNotify; AtJoin])
        /\ cleanup_thread_ (stop (pre ++ [SweeperTurn timed_out]) s)
           = Finished).
Proof.
  intros H0 s'. unfold stop in *.
  pose proof (during_stop_run _ s sched (call_stop s) H0 eq_refl
                (during_stop_call s H0)) as Hinv.
  fold s' in Hinv.
  assert (Hret : fair sched = true -> caller s' = Returned).
  { intros Hfair. apply (stop_returns_under _ s sched (call_stop s) H0 eq_refl).
    - by apply during_stop_call.
    - by apply grants_sublist. }
  assert (Hdone : caller s' = Returned -> joinable (cleanup_thread_ s') = false).
  { intros Hr. unfold during_stop in Hinv. rewrite Hr in Hinv.
    destruct (joinable (cleanup_thread_ s)) eqn:Hj.
    - destruct Hinv as [-> _]. done.
    - by rewrite Hinv. }
  split; [|split; [|split; [|split; [|split; [|split]]]]].
  - intros Ht. unfold during_stop in Hinv. by rewrite Ht in Hinv.
  - intros Hr. split; [by apply Hdone|].
    intros Hj. unfold during_stop in Hinv. by rewrite Hr, Hj in Hinv.
  - exact Hret.
  - intros Hj Hturn. subst s'. by rewrite stop_without_thread, Hturn.
  - intros Hr again Hturn.
    rewrite stop_without_thread, Hturn; auto.
  - intros pre post pc _ Hpc. by apply (join_waits_for_the_loop s pre pc).
  - intros Hrun Hr.
    destruct (loop_exit_precedes_return sched (call_stop s) Hrun)
      as (pre & timed_out & post & Hsched & Hhead & Hfl & Hc & Hc' & Hfin);
      [simpl; auto|exact Hr|].
    exists pre, timed_out, post. do 4 (split; [done|]).
    split; [|exact Hfin]. intros Hclear. apply Hc'.
    cbn [call_stop stop_requested_]. congruence.
Qed.

(** [stop()] on a manager that was only constructed. *)
Lemma stop_before_start (st : KeyValueStore.State) (interval_seconds : Z) :
  stop [CallerTurn] (create st interval_seconds) = create st interval_seconds.
Proof. reflexivity. Qed.

(** [start()] leaves a joinable thread at the head of the loop, and cannot
    be called again before a [stop()]. *)
Lemma start_launches_loop (st : KeyValueStore.State) (interval_seconds : Z) :
  exists s,
    start (create st interval_seconds) = Some s
    /\ cleanup_thread_ s = Running LoopHead
    /\ stop_requested_ s = false
    /\ start s = None.
Proof. eexists. split; [reflexivity|]. by repeat split. Qed.

End SweeperStop.

Section SweeperInstances.
Import ExpiryManager.
Local Existing Instance ThreadSafeHashMap.canonical.

(** A manager whose thread is waiting; the caller and the sweeper take
    turns. *)
Lemma stop_joins_the_loop_witness :
  caller (stop turns sweeping) = Returned
  /\ cleanup_thread_ (stop turns sweeping) = Joined
  /\ exists pre timed_out post,
       turns = pre ++ SweeperTurn timed_out :: post
       /\ cleanup_thread_ (stop pre sweeping) = Running LoopHead
       /\ In (caller (stop pre sweeping)) [AtNotify; AtJoin]
       /\ cleanup_thread_ (stop (pre ++ [SweeperTurn timed_out]) sweeping)
          = Finished.
Proof.
  destruct (stop_joins_the_loop sweeping turns eq_refl)
    as (_ & Hdone & Hret & _ & _ & _ & Hexit).
  split; [exact (Hret eq_refl)|].
  split; [exact (proj1 (proj2 (Hdone (Hret eq_refl)) eq_refl))|].
  destruct (Hexit (ex_intro _ Waiting eq_refl) (Hret eq_refl))
    as (pre & timed_out & post & Hsched & Hhead & _ & _ & Hc & Hfin).
  exists pre, timed_out, post. split; [exact Hsched|].
  split; [exact Hhead|]. split; [exact (Hc eq_refl)|exact Hfin].
Defined.

End SweeperInstances.
(* ===================================================================== *)
(** * ThreadSafeHashMap: lookups, sizes and traversals *)
(* ===================================================================== *)

Section MapLaws.
Context {Key : Type} `{Countable Key} {Value : Type}.
Context `{!ThreadSafeHashMap.IterationOrder Key Value}.
Implicit Types (m : gmap Key Value) (k : Key) (v : Value).

(** X1.  After [set(k, v)], [get(k)] returns [v] and [get] of every other
    key returns what it did; [size()] grows by one when [k] was absent and
    stays the same when [k] was present. *)
Theorem map_set_then_get m k v :
  let m' := ThreadSafeHashMap.set m k v in
  ThreadSafeHashMap.get m' k = Some v
  /\ (forall k', k' <> k ->
        ThreadSafeHashMap.get m' k' = ThreadSafeHashMap.get m k')
  /\ ThreadSafeHashMap.size m'
     = match ThreadSafeHashMap.get m k with
       | Some _ => ThreadSafeHashMap.size m
       | None => S (ThreadSafeHashMap.size m)
       end.
Proof.
  unfold ThreadSafeHashMap.set, ThreadSafeHashMap.get, ThreadSafeHashMap.size.
  cbv zeta. split; [apply lookup_insert_eq|]. split.
  - intros k' Hne. by apply lookup_insert_ne.
  - destruct (m !! k) as [x|] eqn:Hk.
    + rewrite <- (insert_delete_eq m k v).
      rewrite map_size_insert_None by apply lookup_delete_eq.
      rewrite <- (insert_delete_id m k x Hk) at 2.
      by rewrite map_size_insert_None by apply lookup_delete_eq.
    + by apply map_size_insert_None.
Qed.

(** X2.  [remove(k)] leaves a map in which [get(k)] returns none and every
    other key is as before; [size()] drops by one when it returned true,
    and the map is unchanged when it returned false. *)
Theorem map_remove_then_get m k :
  let r := ThreadSafeHashMap.remove m k in
  ThreadSafeHashMap.get r.2 k = None
  /\ (forall k', k' <> k ->
        ThreadSafeHashMap.get r.2 k' = ThreadSafeHashMap.get m k')
  /\ ThreadSafeHashMap.size m
     = (ThreadSafeHashMap.size r.2 + if r.1 then 1 else 0)%nat
  /\ (r.1 = false -> r.2 = m).
Proof.
  unfold ThreadSafeHashMap.remove, ThreadSafeHashMap.get, ThreadSafeHashMap.size.
  cbn [fst snd]. split; [apply lookup_delete_eq|]. split.
  - intros k' Hne. by apply lookup_delete_ne.
  - destruct (m !! k) as [x|] eqn:Hk.
    + rewrite bool_decide_eq_true_2 by done. split; [|done].
      rewrite <- (insert_delete_id m k x Hk) at 1.
      rewrite map_size_insert_None by apply lookup_delete_eq. lia.
    + rewrite bool_decide_eq_false_2 by (by intros [x Hx]).
      rewrite delete_id by done. split; [lia|done].
Qed.

(** X3.  The snapshot [keys()] returns holds every key of the map once
    and nothing else, and is as long as [size()] says. *)
Theorem map_keys_snapshot m :
  NoDup (ThreadSafeHashMap.keys m)
  /\ length (ThreadSafeHashMap.keys m) = ThreadSafeHashMap.size m
  /\ (forall k, k ∈ ThreadSafeHashMap.keys m
                <-> is_Some (ThreadSafeHashMap.get m k)).
Proof.
  unfold ThreadSafeHashMap.keys, ThreadSafeHashMap.size, ThreadSafeHashMap.get.
  split; [apply NoDup_fst_enumerate|]. split.
  - by rewrite length_fmap, length_enumerate.
  - intros k. rewrite list_elem_of_fmap. split.
    + intros ([k' v] & -> & Hin). apply elem_of_enumerate in Hin. by exists v.
    + intros [v Hv]. exists (k, v). split; [done|]. by apply elem_of_enumerate.
Qed.

(** [for_each] is the fold of the callback over the traversal. *)
Lemma for_each_loop_app {St : Type} (callback : Key -> Value -> St -> St)
    (l1 l2 : list (Key * Value)) (s : St) :
  ThreadSafeHashMap.for_each_loop callback (l1 ++ l2) s
  = ThreadSafeHashMap.for_each_loop callback l2
      (ThreadSafeHashMap.for_each_loop callback l1 s).
Proof.
  revert s. induction l1 as [|[k v] l1 IH]; intros s; [done|]. simpl. apply IH.
Qed.

Lemma for_each_loop_note (l seen : list (Key * Value)) :
  ThreadSafeHashMap.for_each_loop Observe.note l seen = seen ++ l.
Proof.
  revert seen. induction l as [|[k v] l IH]; intros seen; simpl.
  - by rewrite app_nil_r.
  - rewrite IH. unfold Observe.note. by rewrite <- app_assoc.
Qed.

(** X4.  [for_each] calls the callback once for every entry of the map and
    for nothing else: a callback that writes down what it is shown ends
    with every entry of the map, each key once, [size()] entries in all;
    and a callback that rebuilds a map from what it is shown ends with the
    map itself. *)
Theorem map_for_each_visits_each_entry_once m :
  let seen := ThreadSafeHashMap.for_each Observe.note m [] in
  NoDup seen.*1
  /\ length seen = ThreadSafeHashMap.size m
  /\ (forall k v, (k, v) ∈ seen <-> ThreadSafeHashMap.get m k = Some v)
  /\ ThreadSafeHashMap.for_each
       (fun k v acc => ThreadSafeHashMap.set acc k v) m ∅ = m.
Proof.
  unfold ThreadSafeHashMap.for_each, ThreadSafeHashMap.size,
    ThreadSafeHashMap.get. cbv zeta.
  rewrite for_each_loop_note. cbn [app].
  split; [apply NoDup_fst_enumerate|].
  split; [apply length_enumerate|].
  split; [intros k v; apply elem_of_enumerate|].
  assert (Hfold : forall (l : list (Key * Value)) (acc : gmap Key Value),
            ThreadSafeHashMap.for_each_loop
              (fun k v acc => ThreadSafeHashMap.set acc k v) l acc
            = foldl (fun acc kv => <[kv.1 := kv.2]> acc) acc l).
  { induction l as [|[k v] l IH]; intros acc; [done|]. simpl. apply IH. }
  rewrite Hfold. apply map_eq. intros k.
  pose proof (NoDup_fst_enumerate m) as Hnd.
  assert (Hgen : forall (l : list (Key * Value)) (acc : gmap Key Value),
            NoDup l.*1 ->
            (forall v, (k, v) ∈ l ->
               foldl (fun acc kv => <[kv.1 := kv.2]> acc) acc l !! k = Some v)
            /\ (k ∉ l.*1 ->
                foldl (fun acc kv => <[kv.1 := kv.2]> acc) acc l !! k = acc !! k)).
  { induction l as [|[k0 v0] l IH]; intros acc Hl.
    - split; [by intros v ?%elem_of_nil|done].
    - apply NoDup_cons in Hl as [Hk0 Hl]. simpl.
      destruct (IH (<[k0 := v0]> acc) Hl) as [IH1 IH2]. split.
      + intros v [[= -> ->]|Hin]%elem_of_cons.
        * rewrite IH2 by done. apply lookup_insert_eq.
        * by apply IH1.
      + intros Hk. apply not_elem_of_cons in Hk as [Hne Hk].
        rewrite IH2 by done. by apply lookup_insert_ne. }
  destruct (Hgen (ThreadSafeHashMap.enumerate m) ∅ Hnd) as [Hin Hout].
  destruct (m !! k) as [v|] eqn:Hk.
  - apply Hin. by apply elem_of_enumerate.
  - rewrite Hout; [apply lookup_empty|].
    intros ([k' v] & -> & Hkv)%list_elem_of_fmap.
    apply elem_of_enumerate in Hkv. simpl in Hk. congruence.
Qed.

End MapLaws.

(* ===================================================================== *)
(** * KeyValueStore: how the operations compose *)
(* ===================================================================== *)

Section StoreLaws.
Import Chrono KeyValueStore Timing Observe.
Context `{!ThreadSafeHashMap.IterationOrder string KeyValueStore.StoreEntry}.
Implicit Types (st : State) (k : string) (entry : StoreEntry).

Lemma keys_unfold st :
  keys st
  = (spared (verdicts cleanup_predicate (ThreadSafeHashMap.enumerate (store_ st)) (clock st))
       (ThreadSafeHashMap.enumerate (store_ st)),
     {| store_ := store_ st;
        clock := final_state cleanup_predicate (ThreadSafeHashMap.enumerate (store_ st))
                   (clock st) |}).
Proof.
  unfold keys, ThreadSafeHashMap.for_each. by rewrite for_each_loop_keys.
Qed.

(** A listed key is a key of the store. *)
Lemma keys_are_present st k :
  k ∈ (keys st).1 -> is_Some (store_ st !! k).
Proof.
  rewrite keys_unfold. cbn [fst]. intros (i & entry & Hi & _)%elem_of_spared.
  exists entry. apply elem_of_enumerate. by eapply list_elem_of_lookup_2.
Qed.

Lemma get_unfold st k :
  get k st
  = match store_ st !! k with
    | None => (None, st)
    | Some entry =>
        if expired_at (fst (now (clock st))) entry
        then (None, {| store_ := delete k (store_ st);
                       clock := (is_expired entry (clock st)).2 |})
        else (Some (value entry),
              {| store_ := store_ st;
                 clock := (is_expired entry (clock st)).2 |})
    end.
Proof.
  unfold get, ThreadSafeHashMap.get, ThreadSafeHashMap.remove.
  destruct (store_ st !! k) as [entry|]; [|done].
  rewrite <- is_expired_verdict.
  by destruct (is_expired entry (clock st)) as [[] c'].
Qed.

(** X5.  A key set with a TTL of [ttl_seconds > 0] is found by the next
    [get] when less than [ttl_seconds] seconds have passed between the
    clock reading of the [set] and that of the [get], and the store is
    left alone; otherwise the [get] answers none, the entry is gone from
    the store, and a listing that follows does not show the key. *)
Theorem get_after_set_with_ttl (k v : string) (ttl_seconds : Z) (st : State) :
  0 < ttl_seconds ->
  let st1 := set k v ttl_seconds st in
  let set_at := fst (now (clock st)) in
  let get_at := fst (now (clock st1)) in
  let r := get k st1 in
  set_at <= get_at
  /\ (get_at < set_at + seconds ttl_seconds ->
      r.1 = Some v /\ store_ r.2 = store_ st1)
  /\ (set_at + seconds ttl_seconds <= get_at ->
      r.1 = None /\ store_ r.2 !! k = None /\ k ∉ (keys r.2).1).
Proof.
  intros Hpos st1 set_at get_at r.
  assert (Hst1 : st1 = {| store_ := <[k := mk_entry v (Some (set_at + seconds ttl_seconds))]>
                                      (store_ st);
                          clock := snd (now (clock st)) |}).
  { subst st1. rewrite set_unfold.
    by rewrite (calculate_expiry_some ttl_seconds) by done. }
  assert (Hk : store_ st1 !! k
               = Some (mk_entry v (Some (set_at + seconds ttl_seconds)))).
  { rewrite Hst1. apply lookup_insert_eq. }
  split.
  { subst get_at set_at. rewrite Hst1. cbn [clock].
    rewrite <- (now_reading (clock st)) at 1. apply now_monotone. }
  subst r. rewrite get_unfold, Hk. fold get_at.
  unfold expired_at. cbn [expires_at]. split.
  - intros Hlt. rewrite bool_decide_eq_false_2 by lia. done.
  - intros Hle. rewrite bool_decide_eq_true_2 by done. cbn [fst snd store_].
    split; [done|]. split; [apply lookup_delete_eq|].
    intros [x Hx]%keys_are_present. cbn [store_] in Hx.
    by rewrite lookup_delete_eq in Hx.
Qed.

(** What [get] leaves of the store. *)
Lemma get_frame (k : string) (st : State) :
  let r := get k st in
  (forall k', k' <> k -> store_ r.2 !! k' = store_ st !! k')
  /\ (r.1 = None -> store_ r.2 !! k = None)
  /\ (forall v, r.1 = Some v ->
        exists entry, store_ st !! k = Some entry
                      /\ store_ r.2 !! k = Some entry /\ value entry = v)
  /\ store_ r.2 ⊆ store_ st.
Proof.
  intros r. subst r. rewrite get_unfold.
  destruct (store_ st !! k) as [entry|] eqn:Hk.
  - destruct (expired_at _ entry); cbn [fst snd store_].
    + split; [intros k' Hne; by apply lookup_delete_ne|].
      split; [intros _; apply lookup_delete_eq|].
      split; [by intros v|]. apply delete_subseteq.
    + split; [done|]. split; [done|].
      split; [|done]. intros v [= <-]. by exists entry.
  - cbn [fst snd]. split; [done|]. split; [done|]. split; [by intros v|done].
Qed.

(** X6.  [get(k)] touches no key but [k] and adds nothing to the store.
    When it answers none, the store it leaves has no entry for [k]; when
    it answers a value, that is the value of the entry of [k], which is
    still there. *)
Theorem get_touches_only_its_key (k : string) (st : State) :
  let r := get k st in
  (forall k', k' <> k -> store_ r.2 !! k' = store_ st !! k')
  /\ (r.1 = None -> store_ r.2 !! k = None)
  /\ (forall v, r.1 = Some v ->
        exists entry, store_ st !! k = Some entry
                      /\ store_ r.2 !! k = Some entry /\ value entry = v)
  /\ store_ r.2 ⊆ store_ st.
Proof. apply get_frame. Qed.

(** Serving a request that is not a [set] of [k] does not bring [k] in. *)
Lemma serve_keeps_absent (r : Request) st k :
  sets k r = false -> store_ st !! k = None -> store_ (serve r st) !! k = None.
Proof.
  intros Hs Hk. destruct r as [key|key value ttl|key| |]; simpl in *.
  - destruct (get_frame key st) as (_ & _ & _ & Hsub).
    eapply lookup_weaken_None; [exact Hk|exact Hsub].
  - apply bool_decide_eq_false in Hs. rewrite set_lookup.
    by rewrite lookup_insert_ne.
  - unfold remove, ThreadSafeHashMap.remove. cbn [snd store_].
    eapply lookup_weaken_None; [exact Hk|apply delete_subseteq].
  - by rewrite keys_unfold.
  - by apply cleanup_expired_absent.
Qed.

Lemma serve_all_keeps_absent (rs : list Request) st k :
  forallb (fun r => negb (sets k r)) rs = true ->
  store_ st !! k = None -> store_ (serve_all rs st) !! k = None.
Proof.
  revert st. induction rs as [|r rs IH]; intros st Hrs Hk; [done|].
  simpl in Hrs. apply andb_true_iff in Hrs as [Hr Hrs].
  apply negb_true_iff in Hr. simpl. apply IH; [done|].
  by apply serve_keeps_absent.
Qed.

(** X7.  Once [get(k)] has answered none, it answers none again after any
    requests among which there is no [set] of [k], however much time
    passes: no read, listing, removal, sweep or write of another key
    brings an entry back. *)
Theorem key_stays_gone (k : string) (st : State) (rs : list Request) :
  (get k st).1 = None ->
  forallb (fun r => negb (sets k r)) rs = true ->
  store_ (serve_all rs (get k st).2) !! k = None
  /\ (get k (serve_all rs (get k st).2)).1 = None.
Proof.
  intros Hnone Hrs.
  destruct (get_frame k st) as (_ & Hgone & _).
  assert (Hk : store_ (serve_all rs (get k st).2) !! k = None)
    by (apply serve_all_keeps_absent; auto).
  split; [exact Hk|]. by rewrite get_unfold, Hk.
Qed.

(** An entry judged expired at one reading is judged expired at every
    later one. *)
Lemma expired_at_monotone (t t' : time_point) entry :
  t <= t' -> expired_at t entry = true -> expired_at t' entry = true.
Proof.
  intros Hle. rewrite !expired_at_true. intros (x & Hx & Hxt).
  exists x. split; [done|]. by etrans.
Qed.

(** X8.  A key that a listing does not show is not found by a [get] that
    follows it: either the store has no entry for it, or the listing saw
    the entry expired, and the clock has not gone back since. *)
Theorem key_not_listed_is_not_found (k : string) (st : State) :
  k ∉ (keys st).1 -> (get k (keys st).2).1 = None.
Proof.
  rewrite keys_unfold. cbn [fst snd]. intros Hout.
  rewrite get_unfold. cbn [store_ clock].
  destruct (store_ st !! k) as [entry|] eqn:Hk; [|done].
  destruct (traversal_position cleanup_predicate _ k entry (clock st) Hk)
    as (i & hit & Hi & Hv).
  destruct hit; last first.
  { exfalso. apply Hout. apply elem_of_spared. by exists i, entry. }
  rewrite (verdicts_cleanup _ _ i k entry Hi) in Hv. injection Hv as Hv.
  destruct (proj1 (expired_at_true _ _) Hv) as (x & Hx & _).
  pose proof (inspected_at_bounds _ (clock st) i k entry x Hi Hx) as [_ Hhi].
  rewrite (expired_at_monotone (inspected_at (clock st) (ThreadSafeHashMap.enumerate (store_ st)) i));
    [done| |done].
  etrans; [exact Hhi|]. apply now_monotone.
Qed.

End StoreLaws.

(* ===================================================================== *)
(** * KeyValueStore: a store without expiries; what the sweeper may do *)
(* ===================================================================== *)

Section PermanentStore.
Import Chrono KeyValueStore Timing Observe.
Context `{!ThreadSafeHashMap.IterationOrder string KeyValueStore.StoreEntry}.
Implicit Types (st : State) (its : list (string * StoreEntry)).

Lemma verdicts_all_permanent its (c : steady_clock) :
  (forall k entry, (k, entry) ∈ its -> expires_at entry = None) ->
  hits (verdicts cleanup_predicate its c) = 0%nat
  /\ spared (verdicts cleanup_predicate its c) its = its.*1
  /\ final_state cleanup_predicate its c = c.
Proof.
  revert c. induction its as [|[k entry] rest IH]; intros c Hall; [done|].
  assert (Hp : cleanup_predicate k entry c = (false, c)).
  { apply is_expired_permanent. eapply Hall. apply list_elem_of_here. }
  cbn [verdicts final_state]. rewrite Hp.
  cbn [hits spared snd fmap list_fmap].
  destruct (IH c) as (Hh & Hs & Hf).
  { intros k' e' Hin. eapply Hall. apply list_elem_of_further, Hin. }
  rewrite Hh, Hf. split; [done|]. split; [|done]. simpl. by rewrite Hs.
Qed.

(** X9.  On a store none of whose entries has an expiry, the clock is
    never read: [cleanup_expired()] returns 0 and [keys()] returns every
    key of the map, and both leave the store and the clock as they
    were. *)
Theorem permanent_store_is_never_swept (st : State) :
  all_permanent (store_ st) ->
  cleanup_expired st = (0%nat, st)
  /\ keys st = (ThreadSafeHashMap.keys (store_ st), st).
Proof.
  intros Hall.
  destruct (verdicts_all_permanent (ThreadSafeHashMap.enumerate (store_ st)) (clock st))
    as (Hh & Hs & Hf).
  { intros k entry Hin. apply (Hall k). by apply elem_of_enumerate. }
  split.
  - assert (Hm : store_ (cleanup_expired st).2 = store_ st).
    { apply map_eq. intros k. destruct (store_ st !! k) as [entry|] eqn:Hk.
      - apply cleanup_expired_keeps_permanent; [done|]. by apply (Hall k).
      - by apply cleanup_expired_absent. }
    pose proof (cleanup_expired_clock st) as Hc. rewrite Hf in Hc.
    destruct (cleanup_expired_count st) as [Hn _]. rewrite Hm in Hn.
    destruct (cleanup_expired st) as [n [m c]]. cbn [fst snd store_ clock] in *.
    subst. destruct st. f_equal. lia.
  - rewrite keys_unfold, Hs, Hf. unfold ThreadSafeHashMap.keys. by destruct st.
Qed.

End PermanentStore.

Section SweeperFrame.
Import ExpiryManager.
Context `{!ThreadSafeHashMap.IterationOrder string KeyValueStore.StoreEntry}.

Lemma step_only_removes (t : Turn) (s : Sys) :
  KeyValueStore.store_ (store (step t s)) ⊆ KeyValueStore.store_ (store s)
  /\ (forall k entry,
        KeyValueStore.store_ (store s) !! k = Some entry ->
        KeyValueStore.expires_at entry = None ->
        KeyValueStore.store_ (store (step t s)) !! k = Some entry).
Proof.
  destruct t as [|timed_out]; simpl.
  - unfold stop_step.
    destruct (caller s), (cleanup_thread_ s) as [|[]| |]; simpl; try done;
      destruct (joinable _); done.
  - unfold cleanup_loop_step.
    destruct (cleanup_thread_ s) as [|[]| |]; simpl; try done.
    + destruct (stop_requested_ s); done.
    + split.
      * rewrite cleanup_expired_unfold. cbv zeta. cbn [snd KeyValueStore.store_].
        apply (remove_if_shrinks KeyValueStore.cleanup_predicate).
      * intros k entry. apply cleanup_expired_keeps_permanent.
    + destruct (stop_requested_ s || timed_out); done.
Qed.

(** X10.  Whatever the interleaving of a [stop()] and the cleanup loop, the
    manager only ever removes entries from the store it refers to: every
    entry of the store afterwards was there before with the same value and
    expiry, and every entry without expiry is still there. *)
Theorem sweeper_only_removes (sched : list Turn) (s : Sys) :
  KeyValueStore.store_ (store (run sched s)) ⊆ KeyValueStore.store_ (store s)
  /\ (forall k entry,
        KeyValueStore.store_ (store s) !! k = Some entry ->
        KeyValueStore.expires_at entry = None ->
        KeyValueStore.store_ (store (run sched s)) !! k = Some entry).
Proof.
  revert s. induction sched as [|t rest IH]; intros s; [done|]. simpl.
  destruct (IH (step t s)) as [Hsub Hperm].
  destruct (step_only_removes t s) as [Hsub1 Hperm1]. split.
  - by etrans.
  - intros k entry Hk He. apply Hperm; [|done]. by apply Hperm1.
Qed.

(** The loop leaves only when it has seen the stop flag set. *)
Lemma loop_runs_until_stop_step (t : Turn) (s : Sys) :
  caller s = Returned ->
  (exists pc, cleanup_thread_ s = Running pc) -> stop_requested_ s = false ->
  caller (step t s) = Returned
  /\ (exists pc, cleanup_thread_ (step t s) = Running pc)
  /\ stop_requested_ (step t s) = false.
Proof.
  intros Hc [pc Hpc] Hf. destruct s as [st iv th fl lg c]. simpl in *. subst.
  destruct t as [|[]], pc; cbn; eauto.
Qed.

(** X11.  As long as nobody calls [stop()], the cleanup loop never ends:
    under every schedule the thread started by [start()] is still running
    [cleanup_loop], whether its waits time out or not. *)
Theorem loop_runs_until_stop (sched : list Turn) (s : Sys) :
  caller s = Returned ->
  (exists pc, cleanup_thread_ s = Running pc) -> stop_requested_ s = false ->
  (exists pc, cleanup_thread_ (run sched s) = Running pc)
  /\ stop_requested_ (run sched s) = false.
Proof.
  revert s. induction sched as [|t rest IH]; intros s Hc Hpc Hf; [done|].
  simpl. destruct (loop_runs_until_stop_step t s Hc Hpc Hf) as (Hc' & Hpc' & Hf').
  by apply IH.
Qed.

(** X12.  A manager can be started again after a [stop()] that has
    returned: [start()] clears the stop flag and launches the loop anew,
    and the next [stop()] joins it under every schedule that starves
    neither thread.  Whenever that next [stop()] has returned, the thread
    has left the loop by itself before: among the turns of the call there
    is a turn of the sweeper thread at which the thread, standing at the
    head of the loop, finds the stop flag set and leaves [cleanup_loop],
    the caller having executed [stop_requested_.store(true)] and not got
    past [join()].  While the thread is joinable, [start()] terminates
    the program instead. *)
Theorem manager_restarts_after_stop (s : Sys) (sched : list Turn) :
  caller s = Returned -> caller (stop sched s) = Returned ->
  exists s2,
    start (stop sched s) = Some s2
    /\ stop_requested_ s2 = false
    /\ cleanup_thread_ s2 = Running LoopHead
    /\ start s2 = None
    /\ (forall sched2, fair sched2 = true ->
          caller (stop sched2 s2) = Returned
          /\ cleanup_thread_ (stop sched2 s2) = Joined)
    /\ (forall sched2, caller (stop sched2 s2) = Returned ->
          cleanup_thread_ (stop sched2 s2) = Joined
          /\ exists pre timed_out post,
               sched2 = pre ++ SweeperTurn timed_out :: post
               /\ cleanup_thread_ (stop pre s2) = Running LoopHead
               /\ stop_requested_ (stop pre s2) = true
               /\ In (caller (stop pre s2)) [AtNotify; AtJoin]
               /\ cleanup_thread_ (stop (pre ++ [SweeperTurn timed_out]) s2)
                  = Finished).
Proof.
  intros H0 Hret. unfold stop in *.
  pose proof (during_stop_run _ s sched (call_stop s) H0 eq_refl
                (during_stop_call s H0)) as Hinv.
  set (s1 := run sched (call_stop s)) in *.
  assert (Hj : joinable (cleanup_thread_ s1) = false).
  { unfold during_stop in Hinv. rewrite Hret in Hinv.
    destruct (joinable (cleanup_thread_ s)) eqn:Hjs.
    - by destruct Hinv as [-> _].
    - by rewrite Hinv. }
  unfold start. rewrite Hj. eexists. split; [reflexivity|].
  cbn [stop_requested_ cleanup_thread_ joinable]. do 3 (split; [done|]).
  set (s2 := {| store := store s1; interval_ := _; cleanup_thread_ := _;
                stop_requested_ := _; log := _; caller := caller s1 |}).
  assert (H2 : caller s2 = Returned) by exact Hret.
  assert (Hjoined : forall sched2,
            caller (run sched2 (call_stop s2)) = Returned ->
            cleanup_thread_ (run sched2 (call_stop s2)) = Joined).
  { intros sched2 Hret2.
    pose proof (during_stop_run _ s2 sched2 (call_stop s2) H2 eq_refl
                  (during_stop_call s2 H2)) as Hinv2.
    unfold during_stop in Hinv2. rewrite Hret2 in Hinv2.
    cbn [joinable cleanup_thread_ s2] in Hinv2. by destruct Hinv2. }
  split.
  - intros sched2 Hfair.
    assert (Hret2 : caller (run sched2 (call_stop s2)) = Returned).
    { apply (stop_returns_under _ s2 sched2 (call_stop s2) H2 eq_refl).
      - by apply during_stop_call.
      - by apply grants_sublist. }
    split; [exact Hret2|by apply Hjoined].
  - intros sched2 Hret2. split; [by apply Hjoined|].
    destruct (loop_exit_precedes_return sched2 (call_stop s2))
      as (pre & timed_out & post & Hsched & Hhead & Hfl & _ & Hc & Hfin);
      [by exists LoopHead|simpl; auto|exact Hret2|].
    exists pre, timed_out, post. do 3 (split; [done|]).
    split; [|exact Hfin]. apply Hc. cbn. discriminate.
Qed.

End SweeperFrame.

(* ===================================================================== *)
(** * TcpServer::start once the socket is listening *)
(* ===================================================================== *)

Section AcceptLoop.
Import TcpServer Observe.
Implicit Types (w : World) (ev : list Event).

Lemma calls_app (c : Syscall) ev1 ev2 :
  calls c (ev1 ++ ev2) = (calls c ev1 + calls c ev2)%nat.
Proof.
  induction ev1 as [|[d|lvl msg| |fd] ev1 IH]; simpl; rewrite ?IH; lia.
Qed.

Lemma submissions_app ev1 ev2 :
  submissions (ev1 ++ ev2) = submissions ev1 ++ submissions ev2.
Proof.
  induction ev1 as [|[d|lvl msg| |fd] ev1 IH]; simpl; rewrite ?IH; done.
Qed.

(** One iteration of the loop that does not see the stop flag. *)
Lemma accept_loop_iteration w (fuel i : nat) :
  stop_load w i = false ->
  (accept_loop w (S fuel) i).1 = (accept_loop w fuel (S i)).1
  /\ submissions (accept_loop w (S fuel) i).2
     = filter (fun fd => 0 <= fd) [accept_ret w i]
       ++ submissions (accept_loop w fuel (S i)).2
  /\ (forall c, calls c (accept_loop w (S fuel) i).2
                = ((if same_call c sys_accept then 1 else 0)
                   + calls c (accept_loop w fuel (S i)).2)%nat).
Proof.
  intros Hstop. cbn [accept_loop]. rewrite Hstop. unfold accept_connection.
  destruct (accept_loop w fuel (S i)) as [out rest].
  rewrite filter_cons, filter_nil.
  destruct (decide (0 <= accept_ret w i)) as [Hok|Hbad].
  - rewrite bool_decide_eq_false_2 by lia. cbn [fst snd].
    split; [done|]. split; [done|]. intros c. cbn. by destruct c.
  - rewrite bool_decide_eq_true_2 by lia. cbn [fst snd].
    split; [done|]. split; [done|]. intros c. cbn. by destruct c.
Qed.

Lemma accept_loop_until_stop w (n : nat) : forall (fuel i : nat),
  (forall j, (j < n)%nat -> stop_load w (i + j) = false) ->
  stop_load w (i + n) = true -> (n < fuel)%nat ->
  (accept_loop w fuel i).1 = HasReturned
  /\ submissions (accept_loop w fuel i).2
     = filter (fun fd => 0 <= fd) (accept_ret w <$> seq i n)
  /\ calls sys_accept (accept_loop w fuel i).2 = n
  /\ calls sys_close (accept_loop w fuel i).2 = 1%nat.
Proof.
  induction n as [|n IH]; intros fuel i Hgo Hstop Hfuel.
  - destruct fuel as [|fuel]; [lia|]. rewrite Nat.add_0_r in Hstop.
    cbn [accept_loop]. by rewrite Hstop.
  - destruct fuel as [|fuel]; [lia|].
    assert (H0 : stop_load w i = false).
    { rewrite <- (Nat.add_0_r i). apply Hgo. lia. }
    destruct (accept_loop_iteration w fuel i H0) as (Hout & Hsub & Hcalls).
    destruct (IH fuel (S i)) as (Hout' & Hsub' & Hacc' & Hclose').
    { intros j Hj. replace (S i + j)%nat with (i + S j)%nat by lia.
      apply Hgo. lia. }
    { by replace (S i + n)%nat with (i + S n)%nat by lia. }
    { lia. }
    rewrite Hout, Hsub, !Hcalls, Hout', Hsub', Hacc', Hclose'.
    split; [done|]. split; [|done].
    cbn [seq fmap list_fmap].
    change (accept_ret w i :: (accept_ret w <$> seq (S i) n))
      with ([accept_ret w i] ++ (accept_ret w <$> seq (S i) n)).
    by rewrite filter_app.
Qed.

Lemma accept_loop_without_stop w : forall (fuel i : nat),
  (forall j, stop_load w j = false) ->
  (accept_loop w fuel i).1 = StillAccepting
  /\ calls sys_accept (accept_loop w fuel i).2 = fuel
  /\ calls sys_close (accept_loop w fuel i).2 = 0%nat.
Proof.
  induction fuel as [|fuel IH]; intros i Hgo; [done|].
  destruct (accept_loop_iteration w fuel i (Hgo i)) as (Hout & _ & Hcalls).
  destruct (IH (S i) Hgo) as (Hout' & Hacc' & Hclose').
  by rewrite Hout, !Hcalls, Hout', Hacc', Hclose'.
Qed.

Lemma accept_loop_closes_on_return w : forall (fuel i : nat),
  calls sys_close (accept_loop w fuel i).2
  = match (accept_loop w fuel i).1 with
    | HasReturned => 1%nat
    | StillAccepting => 0%nat
    end.
Proof.
  induction fuel as [|fuel IH]; intros i; [done|].
  destruct (stop_load w i) eqn:Hstop.
  - cbn [accept_loop]. by rewrite Hstop.
  - destruct (accept_loop_iteration w fuel i Hstop) as (Hout & _ & Hcalls).
    rewrite Hout, Hcalls. apply IH.
Qed.

(** [start] when the three calls succeed. *)
Lemma start_listening_unfold w (port_ : Z) (fuel : nat) :
  listening w ->
  exists setup,
    start w port_ fuel
    = ((accept_loop w fuel 0).1, setup ++ (accept_loop w fuel 0).2)
    /\ submissions setup = []
    /\ calls sys_accept setup = 0%nat
    /\ calls sys_close setup = 0%nat.
Proof.
  intros (Hs & Hb & Hl). unfold start, create_tcp, bind_to, start_listening.
  rewrite (bool_decide_eq_false_2 (socket_ret w < 0)) by lia.
  rewrite (bool_decide_eq_false_2 (bind_ret w < 0)) by lia.
  rewrite (bool_decide_eq_false_2 (listen_ret w < 0)) by lia.
  destruct (accept_loop w fuel 0) as [out ev4].
  destruct (bool_decide (setsockopt_ret w < 0)); cbn [negb fst snd];
    eexists; (split; [rewrite ?app_assoc; reflexivity|]); done.
Qed.

(** X13.  With the socket listening, [start] returns at the first load of
    the stop flag that reads true.  Until then it has called [accept] once
    per iteration and has handed to the pool exactly the connections that
    [accept] returned, each once and in the order of their arrival; failed
    calls of [accept] are skipped.  The listening socket is closed once. *)
Theorem start_dispatches_each_connection
    (w : World) (port_ : Z) (n fuel : nat) :
  listening w ->
  (forall i, (i < n)%nat -> stop_load w i = false) ->
  stop_load w n = true -> (n < fuel)%nat ->
  let r := start w port_ fuel in
  r.1 = HasReturned
  /\ submissions r.2 = accepted w n
  /\ calls sys_accept r.2 = n
  /\ calls sys_close r.2 = 1%nat.
Proof.
  intros Hl Hgo Hstop Hfuel r. subst r.
  destruct (start_listening_unfold w port_ fuel Hl) as (setup & -> & Hs & Ha & Hc).
  destruct (accept_loop_until_stop w n fuel 0) as (Hout & Hsub & Hacc & Hclose);
    auto.
  cbn [fst snd]. rewrite submissions_app, !calls_app, Hs, Ha, Hc.
  by rewrite Hout, Hsub, Hacc, Hclose.
Qed.

(** X14.  With the socket listening, [start] does not return as long as
    the stop flag reads false, also when [accept] fails every time: a
    failed [accept] is followed by the next one, so a budget of [fuel]
    iterations is used up by [fuel] calls of [accept]. *)
Theorem start_keeps_accepting (w : World) (port_ : Z) (fuel : nat) :
  listening w -> (forall i, stop_load w i = false) ->
  let r := start w port_ fuel in
  r.1 = StillAccepting
  /\ calls sys_accept r.2 = fuel
  /\ calls sys_close r.2 = 0%nat.
Proof.
  intros Hl Hgo r. subst r.
  destruct (start_listening_unfold w port_ fuel Hl) as (setup & -> & Hs & Ha & Hc).
  destruct (accept_loop_without_stop w fuel 0 Hgo) as (Hout & Hacc & Hclose).
  cbn [fst snd]. by rewrite !calls_app, Ha, Hc, Hout, Hacc, Hclose.
Qed.

(** X15.  On every path on which [start] returns, the listening socket is
    closed exactly once if [socket] had succeeded, and [close] is not
    called if it had failed. *)
Theorem start_closes_its_socket_once (w : World) (port_ : Z) (fuel : nat) :
  (start w port_ fuel).1 = HasReturned ->
  calls sys_close (start w port_ fuel).2
  = if bool_decide (0 <= socket_ret w) then 1%nat else 0%nat.
Proof.
  destruct (decide (socket_ret w < 0)) as [Hs|Hs].
  { intros _. unfold start, create_tcp.
    rewrite (bool_decide_eq_true_2 (socket_ret w < 0)) by done.
    by rewrite bool_decide_eq_false_2 by lia. }
  rewrite (bool_decide_eq_true_2 (0 <= socket_ret w)) by lia.
  destruct (decide (bind_ret w < 0)) as [Hb|Hb].
  { intros _. unfold start, create_tcp, bind_to.
    rewrite (bool_decide_eq_false_2 (socket_ret w < 0)) by done.
    rewrite (bool_decide_eq_true_2 (bind_ret w < 0)) by done.
    by destruct (bool_decide (setsockopt_ret w < 0)). }
  destruct (decide (listen_ret w < 0)) as [Hl|Hl].
  { intros _. unfold start, create_tcp, bind_to, start_listening.
    rewrite (bool_decide_eq_false_2 (socket_ret w < 0)) by done.
    rewrite (bool_decide_eq_false_2 (bind_ret w < 0)) by done.
    rewrite (bool_decide_eq_true_2 (listen_ret w < 0)) by done.
    by destruct (bool_decide (setsockopt_ret w < 0)). }
  destruct (start_listening_unfold w port_ fuel) as (setup & -> & _ & _ & Hc).
  { unfold listening. lia. }
  cbn [fst snd]. intros Hret.
  by rewrite calls_app, Hc, accept_loop_closes_on_return, Hret.
Qed.

End AcceptLoop.

(* ===================================================================== *)
(** * The added statements at work *)
(* ===================================================================== *)

Section MoreInstances.
Import Chrono KeyValueStore Timing Observe.
Local Existing Instance ThreadSafeHashMap.canonical.

(** Set for one second at tick 5, read two seconds later. *)
Lemma get_after_set_with_ttl_witness :
  (get "k" (set "k" "v" 1 (Scenario.fresh [5; 2000000000]%N))).1 = None.
Proof.
  apply (proj2 (proj2 (get_after_set_with_ttl "k" "v" 1
                         (Scenario.fresh [5; 2000000000]%N)
                         ltac:(reflexivity)))).
  vm_compute; discriminate.
Defined.

(** The session has expired; a sweep and the write of another key later
    it is still not found. *)
Lemma key_stays_gone_witness :
  (get "session"
     (serve_all [SWEEP; SET "other" "z" 3; LIST]
        (get "session" (Scenario.session 0 7)).2)).1 = None.
Proof.
  apply (key_stays_gone "session" (Scenario.session 0 7)
           [SWEEP; SET "other" "z" 3; LIST]).
  - vm_compute; reflexivity.
  - vm_compute; reflexivity.
Defined.

(** The listing of [Scenario.mixed] does not show "b". *)
Lemma key_not_listed_is_not_found_witness :
  (get "b" (keys Scenario.mixed).2).1 = None.
Proof.
  apply (key_not_listed_is_not_found "b" Scenario.mixed).
  vm_compute. intros Hin. inversion Hin as [|? ? ? Hin']; subst.
  inversion Hin'.
Defined.

(** Two keys set without TTL. *)
Lemma permanent_store_is_never_swept_witness :
  cleanup_expired (set "b" "2" 0 (set "a" "1" 0 (Scenario.fresh [4%N])))
  = (0%nat, set "b" "2" 0 (set "a" "1" 0 (Scenario.fresh [4%N]))).
Proof.
  refine (proj1 (permanent_store_is_never_swept
                   (set "b" "2" 0 (set "a" "1" 0 (Scenario.fresh [4%N]))) _)).
  intros k entry.
  change (store_ (set "b" "2" 0 (set "a" "1" 0 (Scenario.fresh [4%N]))))
    with (<["b" := mk_entry "2" None]>
            (<["a" := mk_entry "1" None]> (∅ : gmap string StoreEntry))).
  intros Hk. apply lookup_insert_Some in Hk as [[_ <-]|[_ Hk]]; [done|].
  apply lookup_insert_Some in Hk as [[_ <-]|[_ Hk]]; [done|].
  by rewrite lookup_empty in Hk.
Defined.

End MoreInstances.

Section ManagerInstances.
Import ExpiryManager.
Local Existing Instance ThreadSafeHashMap.canonical.

(** The sweeper is left alone for eleven turns. *)
Lemma loop_runs_until_stop_witness :
  (exists pc, cleanup_thread_ (run turns sweeping) = Running pc)
  /\ stop_requested_ (run turns sweeping) = false.
Proof.
  apply (loop_runs_until_stop turns sweeping).
  - reflexivity.
  - by exists Waiting.
  - reflexivity.
Defined.

(** Stopped, started again, stopped again. *)
Lemma manager_restarts_after_stop_witness :
  exists s2,
    start (stop turns sweeping) = Some s2
    /\ caller (stop turns s2) = Returned
    /\ cleanup_thread_ (stop turns s2) = Joined
    /\ exists pre timed_out post,
         turns = pre ++ SweeperTurn timed_out :: post
         /\ cleanup_thread_ (stop pre s2) = Running LoopHead
         /\ In (caller (stop pre s2)) [AtNotify; AtJoin]
         /\ cleanup_thread_ (stop (pre ++ [SweeperTurn timed_out]) s2)
            = Finished.
Proof.
  destruct (manager_restarts_after_stop sweeping turns eq_refl eq_refl)
    as (s2 & Hstart & _ & _ & _ & Hstop & Hexit).
  exists s2. split; [exact Hstart|].
  destruct (Hstop turns eq_refl) as [Hret Hjoined].
  split; [exact Hret|]. split; [exact Hjoined|].
  destruct (Hexit turns Hret)
    as (_ & pre & timed_out & post & Hsched & Hhead & _ & Hc & Hfin).
  exists pre, timed_out, post. by repeat split.
Defined.

End ManagerInstances.

Section ServerInstances.
Import TcpServer Observe.

(** Three calls of [accept], two connections. *)
Lemma start_dispatches_each_connection_witness :
  (start two_clients 8080 10).1 = HasReturned
  /\ submissions (start two_clients 8080 10).2 = [5; 6]
  /\ calls sys_accept (start two_clients 8080 10).2 = 3%nat
  /\ calls sys_close (start two_clients 8080 10).2 = 1%nat.
Proof.
  apply (start_dispatches_each_connection two_clients 8080 3 10).
  - repeat split; vm_compute; discriminate.
  - intros [|[|[|i]]] Hi; try reflexivity. lia.
  - reflexivity.
  - lia.
Defined.

(** Nobody connects and nobody stops the server. *)
Lemma start_keeps_accepting_witness :
  (start deaf 8080 25).1 = StillAccepting
  /\ calls sys_accept (start deaf 8080 25).2 = 25%nat
  /\ calls sys_close (start deaf 8080 25).2 = 0%nat.
Proof.
  apply (start_keeps_accepting deaf 8080 25).
  - repeat split; vm_compute; discriminate.
  - reflexivity.
Defined.

(** The port is taken: the socket that was created is closed. *)
Lemma start_closes_its_socket_once_witness :
  calls sys_close (start port_taken 8080 10).2 = 1%nat.
Proof.
  apply (start_closes_its_socket_once port_taken 8080 10). reflexivity.
Defined.

End ServerInstances.

(* ===================================================================== *)
(** * Strings and string streams *)
(* ===================================================================== *)

Section TextFacts.
Import Stdlib.Strings.Ascii Text.
Implicit Types (s r w line : string) (c : ascii).

Lemma app_cons c s r : String c s +:+ r = String c (s +:+ r).
Proof. reflexivity. Qed.

Lemma app_empty_l s : "" +:+ s = s.
Proof. reflexivity. Qed.

Lemma app_empty_r s : s +:+ "" = s.
Proof. induction s as [|c s IH]; [done|]. by rewrite app_cons, IH. Qed.

Lemma app_assoc_s s r w : (s +:+ r) +:+ w = s +:+ r +:+ w.
Proof. induction s as [|c s IH]; [done|]. by rewrite !app_cons, IH. Qed.

Lemma length_app_s s r :
  String.length (s +:+ r) = (String.length s + String.length r)%nat.
Proof. induction s as [|c s IH]; [done|]. rewrite app_cons. simpl. by rewrite IH. Qed.

Lemma take_app_length s r : take (String.length s) (s +:+ r) = s.
Proof. induction s as [|c s IH]; [by destruct r|]. rewrite app_cons. simpl. by rewrite IH. Qed.

Lemma drop_app_length s r : drop (String.length s) (s +:+ r) = r.
Proof. induction s as [|c s IH]; [by destruct r|]. rewrite app_cons. simpl. by rewrite IH. Qed.

Lemma take_drop_s (n : nat) s : take n s +:+ drop n s = s.
Proof.
  revert s. induction n as [|n IH]; intros [|c s]; simpl; try done.
  by rewrite app_cons, IH.
Qed.

Lemma all_chars_app (p : ascii -> bool) s r :
  all_chars p (s +:+ r) = all_chars p s && all_chars p r.
Proof.
  induction s as [|c s IH]; [done|]. rewrite app_cons. simpl.
  by rewrite IH, andb_assoc.
Qed.

Lemma isspace_lf : isspace "010" = true.
Proof. reflexivity. Qed.

Lemma eqb_lf_isspace c : Ascii.eqb c "010" = true -> isspace c = true.
Proof. by intros ->%Ascii.eqb_eq. Qed.

(** [getline] splits at the first line feed. *)
Lemma getline_from_line line r :
  all_chars (fun c => negb (Ascii.eqb c "010")) line = true ->
  getline_from (line +:+ String "010" r) = (line, r).
Proof.
  induction line as [|c line IH]; intros Hl; [done|].
  simpl in Hl. apply andb_true_iff in Hl as [Hc Hl].
  rewrite app_cons. cbn [getline_from].
  apply negb_true_iff in Hc. rewrite Hc. by rewrite IH.
Qed.

Lemma getline_from_split s :
  all_chars (fun c => negb (Ascii.eqb c "010")) (getline_from s).1 = true
  /\ (s = (getline_from s).1 +:+ String "010" (getline_from s).2
      \/ (s = (getline_from s).1 /\ (getline_from s).2 = "")).
Proof.
  induction s as [|c s [IH1 IH2]]; [by split; [|right]|].
  cbn [getline_from]. destruct (Ascii.eqb c "010") eqn:Hc.
  - apply Ascii.eqb_eq in Hc as ->. split; [done|]. by left.
  - destruct (getline_from s) as [l r]. cbn [fst snd] in *. split.
    + simpl. by rewrite Hc, IH1.
    + destruct IH2 as [->|[-> ->]]; [left|right]; by rewrite ?app_cons.
Qed.

Lemma getline_from_length s :
  (String.length (getline_from s).2 <= String.length s)%nat
  /\ (s <> "" -> (String.length (getline_from s).2 < String.length s)%nat).
Proof.
  induction s as [|c s [IH1 IH2]]; [by split|].
  cbn [getline_from]. destruct (Ascii.eqb c "010").
  - simpl. split; [lia|]. intros _. lia.
  - destruct (getline_from s) as [l r]. cbn [fst snd] in *. simpl. split; [lia|].
    intros _. lia.
Qed.

(** [strip_cr] takes one carriage return off the end. *)
Lemma strip_cr_app line : strip_cr (line +:+ String "013" "") = line.
Proof.
  induction line as [|c line IH]; [done|].
  rewrite app_cons. cbn [strip_cr]. rewrite IH.
  by destruct line.
Qed.

(** The words [operator>>] reads. *)
Lemma skip_ws_spaces w s :
  all_chars isspace w = true -> skip_ws (w +:+ s) = skip_ws s.
Proof.
  induction w as [|c w IH]; intros Hw; [done|].
  simpl in Hw. apply andb_true_iff in Hw as [Hc Hw].
  rewrite app_cons. cbn [skip_ws]. rewrite Hc. by apply IH.
Qed.

Lemma skip_ws_word w s : is_word w -> skip_ws (w +:+ s) = w +:+ s.
Proof.
  intros [Hne Hw]. destruct w as [|c w]; [done|].
  simpl in Hw. apply andb_true_iff in Hw as [Hc _].
  rewrite app_cons. cbn [skip_ws]. apply negb_true_iff in Hc. by rewrite Hc.
Qed.

Lemma read_word_word w r :
  all_chars (fun c => negb (isspace c)) w = true -> ends_word r ->
  read_word (w +:+ r) = (w, r).
Proof.
  intros Hw Hr. induction w as [|c w IH].
  - rewrite app_empty_l. destruct r as [|c r]; [done|]. simpl in Hr.
    cbn [read_word]. by rewrite Hr.
  - simpl in Hw. apply andb_true_iff in Hw as [Hc Hw].
    rewrite app_cons. cbn [read_word]. apply negb_true_iff in Hc.
    rewrite Hc. by rewrite IH.
Qed.

Lemma extract_word w0 w r :
  all_chars isspace w0 = true -> is_word w -> ends_word r ->
  extract (w0 +:+ w +:+ r) = Some (w, r).
Proof.
  intros H0 Hw Hr. unfold extract.
  rewrite skip_ws_spaces by done. rewrite skip_ws_word by done.
  rewrite read_word_word by (done || apply Hw).
  destruct Hw as [Hne _]. by destruct w.
Qed.

Lemma skip_ws_split s :
  exists w0, s = w0 +:+ skip_ws s /\ all_chars isspace w0 = true
             /\ match skip_ws s with
                | EmptyString => True
                | String c _ => isspace c = false
                end.
Proof.
  induction s as [|c s (w0 & Hs & Hw0 & Hhd)]; [by exists ""|].
  cbn [skip_ws]. destruct (isspace c) eqn:Hc.
  - exists (String c w0). rewrite app_cons, <- Hs. simpl. by rewrite Hc, Hw0.
  - by exists "".
Qed.

Lemma read_word_split s :
  s = (read_word s).1 +:+ (read_word s).2
  /\ all_chars (fun c => negb (isspace c)) (read_word s).1 = true
  /\ ends_word (read_word s).2.
Proof.
  induction s as [|c s (Hs & Hw & Hr)]; [done|].
  cbn [read_word]. destruct (isspace c) eqn:Hc; [done|].
  destruct (read_word s) as [w r]. cbn [fst snd] in *.
  rewrite app_cons, <- Hs. simpl. by rewrite Hc, Hw.
Qed.

Lemma extract_split s w r :
  extract s = Some (w, r) ->
  exists w0, s = w0 +:+ w +:+ r /\ all_chars isspace w0 = true
             /\ is_word w /\ ends_word r.
Proof.
  unfold extract. intros He.
  destruct (skip_ws_split s) as (w0 & Hs & Hw0 & _).
  destruct (read_word_split (skip_ws s)) as (Hs' & Hw & Hr).
  destruct (read_word (skip_ws s)) as [w' r']. cbn [fst snd] in *.
  destruct w' as [|c w']; [done|]. injection He as <- <-.
  exists w0. rewrite <- Hs'. by repeat split.
Qed.

Lemma extract_none s :
  extract s = None -> all_chars isspace s = true.
Proof.
  unfold extract. intros He.
  destruct (skip_ws_split s) as (w0 & Hs & Hw0 & Hhd).
  destruct (read_word_split (skip_ws s)) as (Hs' & Hw & Hr).
  destruct (read_word (skip_ws s)) as [w' r']. cbn [fst snd] in *.
  destruct w' as [|c w']; [|done]. rewrite app_empty_l in Hs'.
  rewrite <- Hs' in Hr. clear Hs' He Hw.
  destruct (skip_ws s) as [|c r].
  - rewrite app_empty_r in Hs. by subst w0.
  - simpl in Hr. congruence.
Qed.

(** [find] and [substr] around the first colon. *)
Lemma find_char_first c s r :
  all_chars (fun d => negb (Ascii.eqb d c)) s = true ->
  find_char c (s +:+ String c r) = Some (String.length s).
Proof.
  induction s as [|d s IH]; intros Hs.
  - rewrite app_empty_l. cbn [find_char]. by rewrite Ascii.eqb_refl.
  - simpl in Hs. apply andb_true_iff in Hs as [Hd Hs].
    rewrite app_cons. cbn [find_char]. apply negb_true_iff in Hd.
    rewrite Hd, IH by done. done.
Qed.

Lemma find_char_split c s (n : nat) :
  find_char c s = Some n ->
  s = take n s +:+ String c (drop (S n) s) /\ String.length (take n s) = n.
Proof.
  revert n. induction s as [|d s IH]; intros n Hn; [done|].
  cbn [find_char] in Hn. destruct (Ascii.eqb d c) eqn:Hd.
  - injection Hn as <-. apply Ascii.eqb_eq in Hd as ->. done.
  - destruct (find_char c s) as [m|] eqn:Hm; [|done]. injection Hn as <-.
    destruct (IH m eq_refl) as [Hs Hl]. cbn [take drop String.length].
    rewrite app_cons. split; [by f_equal|by rewrite Hl].
Qed.

(** [tolower] does nothing to what it returns. *)
Lemma tolower_idemp c : tolower (tolower c) = tolower c.
Proof.
  destruct c as [[] [] [] [] [] [] [] []]; reflexivity.
Qed.

Lemma to_lower_idemp s : to_lower (to_lower s) = to_lower s.
Proof.
  induction s as [|c s IH]; [done|]. simpl. by rewrite tolower_idemp, IH.
Qed.

End TextFacts.

(* ===================================================================== *)
(** * HttpRequest::parse *)
(* ===================================================================== *)

Section ParseFacts.
Import Stdlib.Strings.Ascii Text HttpRequest.
Implicit Types (s r w line raw : string) (c : ascii).

Ltac norm_app :=
  repeat (rewrite app_assoc_s || rewrite app_cons || rewrite app_empty_l).

Lemma ends_word_spaces w r :
  w <> "" -> all_chars isspace w = true -> ends_word (w +:+ r).
Proof.
  intros Hne Hw. destruct w as [|c w]; [done|]. rewrite app_cons. simpl.
  simpl in Hw. by apply andb_true_iff in Hw as [-> _].
Qed.

Lemma three_extracts line :
  three_words line
  <-> exists m l1 p l2 v l3,
        extract line = Some (m, l1) /\ extract l1 = Some (p, l2)
        /\ extract l2 = Some (v, l3).
Proof.
  split.
  - intros (w0 & a & w1 & b & w2 & c & rest & -> & H0 & Ha & Hn1 & H1 & Hb
            & Hn2 & H2 & Hc & Hr).
    exists a, (w1 +:+ b +:+ w2 +:+ c +:+ rest), b, (w2 +:+ c +:+ rest), c, rest.
    split; [|split].
    + apply extract_word; [done..|]. by apply ends_word_spaces.
    + apply extract_word; [done..|]. by apply ends_word_spaces.
    + by apply extract_word.
  - intros (m & l1 & p & l2 & v & l3 & Hm & Hp & Hv).
    apply extract_split in Hm as (w0 & -> & H0 & Hwm & He1).
    apply extract_split in Hp as (w1 & -> & H1 & Hwp & He2).
    apply extract_split in Hv as (w2 & -> & H2 & Hwv & He3).
    exists w0, m, w1, p, w2, v, l3. split; [done|].
    assert (Hnonempty : forall w x y, is_word x -> ends_word (w +:+ x +:+ y) ->
                                      w <> "").
    { intros w x y [Hx Hxw] He ->. rewrite app_empty_l in He.
      destruct x as [|d x]; [done|]. rewrite app_cons in He. simpl in *.
      apply andb_true_iff in Hxw as [Hd _]. apply negb_true_iff in Hd.
      congruence. }
    repeat split; try done; try apply Hwm; try apply Hwp; try apply Hwv.
    + by apply (Hnonempty w1 p (w2 +:+ v +:+ l3)).
    + by apply (Hnonempty w2 v l3).
Qed.

(** X16.  [parse] rejects a request exactly when its first line, without
    the carriage return at its end, does not hold three words separated by
    white space; the empty request is one such.  What follows the first
    line never makes [parse] fail. *)
Theorem parse_rejects_short_request_line (raw : string) :
  parse raw = None <-> ~ three_words (strip_cr (getline_from raw).1).
Proof.
  rewrite three_extracts. unfold parse, getline.
  destruct raw as [|c0 raw].
  - split; [|done]. intros _ (m & l1 & p & l2 & v & l3 & Hm & _). done.
  - destruct (getline_from (String c0 raw)) as [line stream]. cbn [fst].
    destruct (extract (strip_cr line)) as [[m l1]|] eqn:Hm.
    2:{ split; [|done]. intros _ (? & ? & ? & ? & ? & ? & ? & _). done. }
    destruct (extract l1) as [[p l2]|] eqn:Hp.
    2:{ split; [|done]. intros _ (? & ? & ? & ? & ? & ? & [= <- <-] & ? & _).
        congruence. }
    destruct (extract l2) as [[v l3]|] eqn:Hv.
    2:{ split; [|done].
        intros _ (? & ? & ? & ? & ? & ? & [= <- <-] & Hp' & Hv').
        rewrite Hp in Hp'. injection Hp' as <- <-. congruence. }
    destruct (parse_headers _ stream ∅) as [headers remaining].
    split; [done|]. intros Hno. exfalso. apply Hno.
    by exists m, l1, p, l2, v, l3.
Qed.

(** The header loop stores names in lower case only. *)
Lemma parse_headers_lower (fuel : nat) : forall stream headers,
  (forall name v, headers !! name = Some v -> to_lower name = name) ->
  forall name v, (parse_headers fuel stream headers).1 !! name = Some v ->
                 to_lower name = name.
Proof.
  induction fuel as [|fuel IH]; intros stream headers Hlow; [done|].
  cbn [parse_headers]. destruct (getline stream) as [[line after]|]; [|done].
  destruct (strip_cr line) as [|c l] eqn:Hline; [done|].
  destruct (find_char ":" (String c l)) as [colon_pos|]; [|by apply IH].
  apply IH. intros name v Hn.
  apply lookup_insert_Some in Hn as [[<- _]|[_ Hn]].
  - apply to_lower_idemp.
  - by eapply Hlow.
Qed.

(** X17.  In a request that [parse] returns, every header name is in lower
    case, so every header that was read is found by [get_header] under any
    capitalisation of its name. *)
Theorem parsed_headers_are_found_in_any_case (raw : string) (request : t) :
  parse raw = Some request ->
  forall name value,
    headers_ request !! name = Some value ->
    to_lower name = name
    /\ forall asked, to_lower asked = name ->
                     get_header request asked = Some value.
Proof.
  unfold parse. intros Hparse name value Hname.
  destruct (getline raw) as [[line stream]|]; [|done].
  destruct (extract (strip_cr line)) as [[m l1]|]; [|done].
  destruct (extract l1) as [[p l2]|]; [|done].
  destruct (extract l2) as [[v l3]|]; [|done].
  destruct (parse_headers _ stream ∅) as [headers remaining] eqn:Hh.
  injection Hparse as <-. cbn [headers_] in Hname.
  assert (Hlow : to_lower name = name).
  { apply (parse_headers_lower (S (String.length stream)) stream ∅)
      with (v := value); [by intros ? ? ?%lookup_empty_Some|].
    by rewrite Hh. }
  split; [done|]. by intros asked <-.
Qed.

(** The headers a client wrote, as the loop stores them. *)
Lemma header_line_split (name value rest : string) :
  name +:+ ": " +:+ value +:+ HttpResponse.crlf +:+ rest
  = (name +:+ String ":" (String " " (value +:+ String "013" "")))
    +:+ String "010" rest.
Proof. unfold HttpResponse.crlf. by norm_app. Qed.

Lemma parse_headers_text (hs : list (string * string)) :
  forall (headers : gmap string string) (fuel : nat) (payload : string),
  Forall plain_header hs -> (length hs < fuel)%nat ->
  parse_headers fuel
    (HttpResponse.header_lines hs +:+ HttpResponse.crlf +:+ payload) headers
  = (foldl (fun h nv => <[to_lower nv.1 := nv.2]> h) headers hs, payload).
Proof.
  induction hs as [|[name value] hs IH]; intros headers fuel payload Hhs Hfuel.
  - destruct fuel as [|fuel]; [simpl in Hfuel; lia|]. done.
  - destruct fuel as [|fuel]; [simpl in Hfuel; lia|].
    apply Forall_cons in Hhs as [(Hname & Hvalue & Hsp) Hhs].
    cbn [fst snd] in Hname, Hvalue, Hsp.
    cbn [HttpResponse.header_lines foldl fst snd]. rewrite !app_assoc_s.
    rewrite header_line_split.
    set (line := name +:+ String ":" (String " " (value +:+ String "013" ""))).
    set (after := HttpResponse.header_lines hs +:+ HttpResponse.crlf +:+ payload).
    assert (Hline : all_chars (fun c => negb (Ascii.eqb c "010")) line = true).
    { subst line. rewrite all_chars_app. cbn [all_chars].
      rewrite all_chars_app, Hvalue. cbn.
      rewrite andb_true_r. clear -Hname.
      induction name as [|c name IHn]; [done|]. simpl in *.
      apply andb_true_iff in Hname as [Hc Hn].
      apply andb_true_iff in Hc as [_ ->]. by rewrite IHn. }
    assert (Hget : getline (line +:+ String "010" after) = Some (line, after)).
    { unfold getline. rewrite <- (getline_from_line line after Hline).
      subst line. by destruct name. }
    cbn [parse_headers]. rewrite Hget.
    assert (Hstrip : strip_cr line = name +:+ String ":" (String " " value)).
    { subst line.
      replace (name +:+ String ":" (String " " (value +:+ String "013" "")))
        with ((name +:+ String ":" (String " " value)) +:+ String "013" "")
        by (by norm_app).
      apply strip_cr_app. }
    rewrite Hstrip.
    assert (Hcolon : find_char ":" (name +:+ String ":" (String " " value))
                     = Some (String.length name)).
    { apply find_char_first. clear -Hname.
      induction name as [|c name IHn]; [done|]. simpl in *.
      apply andb_true_iff in Hname as [Hc Hn].
      apply andb_true_iff in Hc as [-> _]. by rewrite IHn. }
    destruct (name +:+ String ":" (String " " value)) as [|c0 l0] eqn:Hl.
    { by destruct name. }
    rewrite Hcolon. rewrite <- Hl.
    rewrite take_app_length.
    replace (drop (S (String.length name))
               (name +:+ String ":" (String " " value)))
      with (String " " value).
    2:{ clear. induction name as [|c name IHn]; [done|].
        rewrite app_cons. by cbn [String.length drop]. }
    cbn [skip_spaces]. rewrite Ascii.eqb_refl, Hsp.
    apply IH; [done|]. simpl in Hfuel. lia.
Qed.

Lemma header_lines_length (hs : list (string * string)) (s : string) :
  (length hs <= String.length (HttpResponse.header_lines hs +:+ s))%nat.
Proof.
  induction hs as [|[name value] hs IH]; [simpl; lia|].
  cbn [HttpResponse.header_lines length]. rewrite !app_assoc_s.
  rewrite !length_app_s. rewrite length_app_s in IH. simpl. lia.
Qed.

Lemma parse_request_text
    (method_str path version : string) (hs : list (string * string))
    (payload : string) :
  is_word method_str -> is_word path -> is_word version ->
  Forall plain_header hs ->
  parse (HttpResponse.request_text method_str path version hs payload)
  = Some {| method_ := string_to_method method_str;
            path_ := path;
            body_ := payload;
            headers_ := foldl (fun h nv => <[to_lower nv.1 := nv.2]> h) ∅ hs |}.
Proof.
  intros Hm Hp Hv Hhs. unfold HttpResponse.request_text.
  set (after := HttpResponse.header_lines hs +:+ HttpResponse.crlf +:+ payload).
  set (line := method_str +:+ " " +:+ path +:+ " " +:+ version).
  assert (Hraw : method_str +:+ " " +:+ path +:+ " " +:+ version
                   +:+ HttpResponse.crlf +:+ after
                 = (line +:+ String "013" "") +:+ String "010" after).
  { subst line. unfold HttpResponse.crlf. by norm_app. }
  rewrite Hraw. clear Hraw.
  assert (Hnolf : forall w, is_word w ->
            all_chars (fun c => negb (Ascii.eqb c "010")) w = true).
  { intros w [_ Hw]. induction w as [|c w IHw]; [done|]. simpl in *.
    apply andb_true_iff in Hw as [Hc Hw]. rewrite IHw by done.
    rewrite andb_true_r. apply negb_true_iff.
    destruct (Ascii.eqb c "010") eqn:Hlf; [|done].
    apply eqb_lf_isspace in Hlf. apply negb_true_iff in Hc. congruence. }
  assert (Hline : all_chars (fun c => negb (Ascii.eqb c "010"))
                    (line +:+ String "013" "") = true).
  { subst line. rewrite !all_chars_app.
    rewrite (Hnolf method_str), (Hnolf path), (Hnolf version) by done.
    reflexivity. }
  unfold parse.
  assert (Hget : getline ((line +:+ String "013" "") +:+ String "010" after)
                 = Some (line +:+ String "013" "", after)).
  { unfold getline. rewrite <- (getline_from_line _ after Hline).
    subst line. destruct Hm as [Hne _]. by destruct method_str. }
  rewrite Hget, strip_cr_app. subst line.
  pose proof (extract_word "" method_str (" " +:+ path +:+ " " +:+ version)
                eq_refl Hm eq_refl) as E1.
  pose proof (extract_word " " path (" " +:+ version) eq_refl Hp eq_refl)
    as E2.
  pose proof (extract_word " " version "" eq_refl Hv I) as E3.
  rewrite app_empty_l in E1. rewrite app_empty_r in E3.
  rewrite E1, E2, E3.
  pose proof (header_lines_length hs (HttpResponse.crlf +:+ payload)) as Hlen.
  fold after in Hlen. unfold after at 2.
  rewrite parse_headers_text; [done|done|lia].
Qed.

(** X18.  A request written as a request line of three words, header
    lines ["name: value"] and an empty line, each ended by CR LF, and then
    a body, is read back by [parse]: the method is the one the first word
    names, the path is the second word, every header is stored under its
    name in lower case (a later header of the same name replaces an earlier
    one), and the body is all that follows the empty line, whatever bytes
    it holds. *)
Theorem parse_reads_back_a_written_request
    (method_str path version : string) (hs : list (string * string))
    (payload : string) :
  is_word method_str -> is_word path -> is_word version ->
  Forall plain_header hs ->
  parse (HttpResponse.request_text method_str path version hs payload)
  = Some {| method_ := string_to_method method_str;
            path_ := path;
            body_ := payload;
            headers_ := foldl (fun h nv => <[to_lower nv.1 := nv.2]> h) ∅ hs |}.
Proof. apply parse_request_text. Qed.

End ParseFacts.

(* ===================================================================== *)
(** * Router and the routes of the application *)
(* ===================================================================== *)

Section RoutingFacts.
Import Stdlib.Strings.Ascii Text HttpRequest Router KvHandler Application.
Context `{!ThreadSafeHashMap.IterationOrder string KeyValueStore.StoreEntry}.
Context `{!ThreadSafeHashMap.IterationOrder string string}.

Lemma prefix_app (p s : string) :
  String.prefix p s = true <-> exists r, s = p +:+ r.
Proof.
  revert s. induction p as [|a p IH]; intros s.
  - split; [intros _; by exists s|]. intros _. by destruct s.
  - destruct s as [|b s].
    + split; [done|]. intros [r Hr]. by rewrite app_cons in Hr.
    + simpl. destruct (ascii_dec a b) as [->|Hab].
      * rewrite IH. split; intros [r Hr]; exists r.
        -- by rewrite app_cons, Hr.
        -- rewrite app_cons in Hr. by injection Hr.
      * split; [done|]. intros [r Hr]. rewrite app_cons in Hr.
        injection Hr as -> _. done.
Qed.

Lemma index_zero_prefix (p s : string) :
  String.index 0 p s = Some 0%nat <-> String.prefix p s = true.
Proof.
  destruct s as [|b s].
  - destruct p; simpl; split; congruence.
  - cbn [String.index]. destruct (String.prefix p (String b s)); [done|].
    destruct (String.index 0 p s); split; congruence.
Qed.

Lemma starts_with_dec (p s : string) :
  bool_decide (String.index 0 p s = Some 0%nat) = true
  <-> exists r, s = p +:+ r.
Proof. by rewrite bool_decide_eq_true, index_zero_prefix, prefix_app. Qed.

Lemma drop_prefix (p r : string) : drop (String.length p) (p +:+ r) = r.
Proof. apply drop_app_length. Qed.

Lemma starts_with_not (p s : string) :
  (forall r, s <> p +:+ r) ->
  bool_decide (String.index 0 p s = Some 0%nat) = false.
Proof.
  intros Hno. apply not_true_is_false. rewrite starts_with_dec.
  intros [r Hr]. by apply (Hno r).
Qed.

Lemma router_unfold :
  router_ = [ mk_route GET "/kv/" get_key; mk_route PUT "/kv/" put_key;
              mk_route DELETE "/kv/" delete_key; mk_route GET "/kv" list_keys ].
Proof. reflexivity. Qed.

(** X19.  The routing table of the application.  A path that starts with
    ["/kv/"] goes to [get_key], [put_key] or [delete_key] by its method, with
    the rest of the path as the key.  A GET on any other path that starts
    with ["/kv"] lists the keys, whatever follows.  Everything else, in
    particular every request with a method other than GET, PUT and DELETE,
    is answered with 404 and leaves the store and the clock alone. *)
Theorem kv_routing_table (request : HttpRequest.t)
    (st : KeyValueStore.State) :
  let no_route :=
    (HttpResponse.body HttpResponse.not_found
       ("Not Found: " +:+ path_ request), st) in
  (forall key, path_ request = "/kv/" +:+ key ->
     route router_ request st
     = match method_ request with
       | GET => get_key request {| path_suffix := key |} st
       | PUT => put_key request {| path_suffix := key |} st
       | DELETE => delete_key request {| path_suffix := key |} st
       | UNKNOWN => no_route
       end)
  /\ (forall rest, path_ request = "/kv" +:+ rest ->
        (forall key, rest <> "/" +:+ key) ->
        route router_ request st
        = match method_ request with
          | GET => list_keys request {| path_suffix := rest |} st
          | _ => no_route
          end)
  /\ ((forall rest, path_ request <> "/kv" +:+ rest) ->
        route router_ request st = no_route).
Proof.
  intros no_route. rewrite router_unfold. split; [|split].
  - intros key Hpath.
    assert (Hkv : bool_decide (String.index 0 "/kv/" (path_ request)
                               = Some 0%nat) = true).
    { apply starts_with_dec. by exists key. }
    assert (Hdrop : drop (String.length "/kv/") (path_ request) = key).
    { rewrite Hpath. apply drop_prefix. }
    assert (Hlist : bool_decide (String.index 0 "/kv" (path_ request)
                                 = Some 0%nat) = true).
    { apply starts_with_dec. exists ("/" +:+ key). by rewrite Hpath. }
    cbn [route method prefix handler]. rewrite Hkv, Hdrop.
    destruct (method_ request); reflexivity.
  - intros rest Hpath Hrest.
    assert (Hkv : bool_decide (String.index 0 "/kv/" (path_ request)
                               = Some 0%nat) = false).
    { apply starts_with_not. intros r Hr. apply (Hrest r).
      rewrite Hpath in Hr. by injection Hr. }
    assert (Hlist : bool_decide (String.index 0 "/kv" (path_ request)
                                 = Some 0%nat) = true).
    { apply starts_with_dec. by exists rest. }
    assert (Hdrop : drop (String.length "/kv") (path_ request) = rest).
    { rewrite Hpath. apply drop_prefix. }
    cbn [route method prefix handler]. rewrite Hkv, Hlist, Hdrop.
    destruct (method_ request); reflexivity.
  - intros Hno.
    assert (Hkv : bool_decide (String.index 0 "/kv/" (path_ request)
                               = Some 0%nat) = false).
    { apply starts_with_not. intros r Hr. apply (Hno ("/" +:+ r)).
      by rewrite Hr. }
    assert (Hlist : bool_decide (String.index 0 "/kv" (path_ request)
                                 = Some 0%nat) = false).
    { by apply starts_with_not. }
    cbn [route method prefix handler]. rewrite Hkv, Hlist.
    destruct (method_ request); reflexivity.
Qed.

End RoutingFacts.

(* ===================================================================== *)
(** * Decimal numbers and std::stoi *)
(* ===================================================================== *)

Section NumberFacts.
Import Stdlib.Strings.Ascii Text.

Lemma pretty_N_char_digit (d : N) :
  (d < 10)%N ->
  isdigit (pretty_N_char d) = true
  /\ Z.of_N (N_of_ascii (pretty_N_char d)) - 48 = Z.of_N d.
Proof.
  intros Hd.
  assert (d = 0 \/ d = 1 \/ d = 2 \/ d = 3 \/ d = 4 \/ d = 5 \/ d = 6
          \/ d = 7 \/ d = 8 \/ d = 9)%N as Hcases by lia.
  repeat (destruct Hcases as [->|Hcases]; [by vm_compute|]).
  subst d. by vm_compute.
Qed.

Lemma isdigit_not_space (c : ascii) :
  isdigit c = true ->
  isspace c = false /\ Ascii.eqb c "-" = false /\ Ascii.eqb c "+" = false.
Proof.
  unfold isdigit, isspace. intros Hd. cbn zeta in *.
  apply andb_true_iff in Hd as [H1%N.leb_le H2%N.leb_le].
  split; [|split].
  - apply orb_false_iff. split; [apply N.eqb_neq; lia|].
    apply andb_false_iff. right. apply N.leb_gt. lia.
  - apply Ascii.eqb_neq. intros ->. vm_compute in H1. by apply H1.
  - apply Ascii.eqb_neq. intros ->. vm_compute in H1. by apply H1.
Qed.

Lemma pretty_N_go_app (x : N) (s rest : string) :
  pretty_N_go x s +:+ rest = pretty_N_go x (s +:+ rest).
Proof.
  revert s. induction (N.lt_wf_0 x) as [x _ IH]; intros s.
  assert (x = 0 \/ 0 < x)%N as [->|Hx] by lia.
  - by rewrite !pretty_N_go_0.
  - rewrite (pretty_N_go_step x s), (pretty_N_go_step x (s +:+ rest)) by done.
    rewrite IH by (by apply N.div_lt). by rewrite app_cons.
Qed.

(** The digits written for [x] are read back as [x]. *)
Lemma read_digits_pretty_N_go (x : N) :
  forall s, exists k : Z, 0 <= k /\ forall acc,
    read_digits acc (pretty_N_go x s)
    = read_digits (acc * 10 ^ k + Z.of_N x) s.
Proof.
  induction (N.lt_wf_0 x) as [x _ IH]; intros s.
  assert (x = 0 \/ 0 < x)%N as [->|Hx] by lia.
  - exists 0. split; [done|]. intros acc. rewrite pretty_N_go_0.
    f_equal. lia.
  - destruct (IH (x `div` 10)%N (N.div_lt x 10 Hx eq_refl)
                (String (pretty_N_char (x `mod` 10)) s)) as (k & Hk & Hread).
    exists (k + 1). split; [lia|]. intros acc.
    rewrite pretty_N_go_step by done. rewrite Hread.
    destruct (pretty_N_char_digit (x `mod` 10)%N) as [Hd Hv].
    { by apply N.mod_lt. }
    cbn [read_digits]. rewrite Hd, Hv. f_equal.
    rewrite Z.pow_add_r by lia.
    pose proof (N.div_mod x 10 ltac:(done)) as Hx10.
    rewrite N2Z.inj_div, N2Z.inj_mod. change (Z.of_N 10) with 10.
    pose proof (Z.div_mod (Z.of_N x) 10 ltac:(done)) as Hdm.
    change (10 ^ 1) with 10.
    revert Hdm. generalize (Z.of_N x `div` 10) (Z.of_N x `mod` 10) (10 ^ k).
    intros q r pw ->. ring.
Qed.

Lemma pretty_N_go_head (x : N) (s : string) :
  (0 < x)%N ->
  exists c tail, pretty_N_go x s = String c tail /\ isdigit c = true.
Proof.
  revert s. induction (N.lt_wf_0 x) as [x _ IH]; intros s Hx.
  rewrite pretty_N_go_step by done.
  destruct (N.eq_0_gt_0_cases (x `div` 10)) as [->|Hx'].
  - rewrite pretty_N_go_0. eexists _, _. split; [done|].
    apply pretty_N_char_digit. by apply N.mod_lt.
  - apply IH; [|done]. by apply N.div_lt.
Qed.

Lemma read_digits_stop (acc : Z) (rest : string) :
  ends_number rest -> read_digits acc rest = (acc, rest).
Proof. destruct rest as [|c rest]; [done|]. simpl. by intros ->. Qed.

Lemma read_digits_N (x : N) (rest : string) :
  (0 < x)%N -> ends_number rest ->
  exists c tail, pretty_N_go x "" +:+ rest = String c tail
                 /\ isdigit c = true
                 /\ (read_digits 0 (String c tail)).1 = Z.of_N x.
Proof.
  intros Hx Hrest. rewrite pretty_N_go_app, app_empty_l.
  destruct (pretty_N_go_head x rest Hx) as (c & tail & Heq & Hc).
  exists c, tail. split; [done|]. split; [done|]. rewrite <- Heq.
  destruct (read_digits_pretty_N_go x rest) as (k & _ & Hread).
  rewrite Hread, read_digits_stop by done. cbn [fst]. lia.
Qed.

Lemma stoi_decimal (z : Z) (rest : string) :
  ends_number rest ->
  stoi (pretty z +:+ rest)
  = if bool_decide (-2147483648 <= z <= 2147483647) then Some z else None.
Proof.
  intros Hrest. destruct z as [|p|p].
  - change (pretty 0) with "0". rewrite app_cons, app_empty_l.
    unfold stoi. cbn [skip_ws]. change (isspace "0") with false. cbv iota.
    change (Ascii.eqb "0" "-") with false.
    change (Ascii.eqb "0" "+") with false. cbv iota.
    change (isdigit "0") with true. cbv iota.
    cbn [read_digits]. change (isdigit "0") with true. cbv iota.
    rewrite read_digits_stop by done. done.
  - assert (Hp : pretty (Z.pos p) = pretty_N_go (N.pos p) "") by done.
    rewrite Hp.
    destruct (read_digits_N (N.pos p) rest) as (c & tail & -> & Hc & Hv);
      [done|done|].
    destruct (isdigit_not_space c Hc) as (Hsp & Hminus & Hplus).
    unfold stoi. cbn [skip_ws]. rewrite Hsp, Hminus, Hplus, Hc, Hv. done.
  - assert (Hp : pretty (Z.neg p) = "-" +:+ pretty_N_go (N.pos p) "") by done.
    rewrite Hp, app_assoc_s, app_cons, app_empty_l.
    destruct (read_digits_N (N.pos p) rest) as (c & tail & -> & Hc & Hv);
      [done|done|].
    unfold stoi. cbn [skip_ws]. change (isspace "-") with false. cbv iota.
    change (Ascii.eqb "-" "-") with true. cbv iota.
    rewrite Hc, Hv. done.
Qed.

Lemma all_chars_skip_ws (p : ascii -> bool) (s : string) :
  all_chars p s = true -> all_chars p (skip_ws s) = true.
Proof.
  induction s as [|c s IH]; [done|]. cbn [skip_ws all_chars].
  intros [Hc Hs]%andb_true_iff. destruct (isspace c); [by apply IH|].
  cbn [all_chars]. by rewrite Hc, Hs.
Qed.

(** Without a digit there is nothing to convert. *)
Lemma stoi_no_digit (s : string) :
  all_chars (fun c => negb (isdigit c)) s = true -> stoi s = None.
Proof.
  intros Hs%all_chars_skip_ws. unfold stoi.
  destruct (skip_ws s) as [|c rest]; [done|].
  cbn [all_chars] in Hs. apply andb_true_iff in Hs as [Hc Hrest].
  apply negb_true_iff in Hc.
  assert (Hhead : match rest with
                  | String d _ => isdigit d = false
                  | EmptyString => True
                  end).
  { destruct rest as [|d rest]; [done|]. cbn [all_chars] in Hrest.
    apply andb_true_iff in Hrest as [Hd _]. by apply negb_true_iff. }
  destruct (Ascii.eqb c "-"); [|destruct (Ascii.eqb c "+")].
  - destruct rest as [|d rest]; [done|]. by rewrite Hhead.
  - destruct rest as [|d rest]; [done|]. by rewrite Hhead.
  - by rewrite Hc.
Qed.

End NumberFacts.

(* ===================================================================== *)
(** * KvHandler and Application::handle_connection *)
(* ===================================================================== *)

Section HandlerFacts.
Import Stdlib.Strings.Ascii Text HttpRequest Router KvHandler Application.
Import Chrono KeyValueStore.
Context `{!ThreadSafeHashMap.IterationOrder string KeyValueStore.StoreEntry}.
Context `{!ThreadSafeHashMap.IterationOrder string string}.

Lemma route_cases (request : HttpRequest.t) (st : State) :
  route router_ request st
  = if bool_decide (String.index 0 "/kv/" (path_ request) = Some 0%nat)
    then match method_ request with
         | GET => get_key request
                    {| path_suffix := drop 4 (path_ request) |} st
         | PUT => put_key request
                    {| path_suffix := drop 4 (path_ request) |} st
         | DELETE => delete_key request
                       {| path_suffix := drop 4 (path_ request) |} st
         | UNKNOWN => no_route request st
         end
    else if bool_decide (String.index 0 "/kv" (path_ request) = Some 0%nat)
    then match method_ request with
         | GET => list_keys request
                    {| path_suffix := drop 3 (path_ request) |} st
         | _ => no_route request st
         end
    else no_route request st.
Proof.
  rewrite router_unfold. cbn [route method prefix handler].
  destruct (method_ request);
    destruct (bool_decide (String.index 0 "/kv/" (path_ request) = _));
    destruct (bool_decide (String.index 0 "/kv" (path_ request) = _));
    reflexivity.
Qed.

Lemma route_key (request : HttpRequest.t) (key : string) (st : State) :
  path_ request = "/kv/" +:+ key ->
  route router_ request st
  = match method_ request with
    | GET => get_key request {| path_suffix := key |} st
    | PUT => put_key request {| path_suffix := key |} st
    | DELETE => delete_key request {| path_suffix := key |} st
    | UNKNOWN => no_route request st
    end.
Proof.
  intros Hpath. rewrite route_cases.
  rewrite (proj2 (starts_with_dec "/kv/" (path_ request)))
    by (by exists key).
  rewrite Hpath. change 4%nat with (String.length "/kv/").
  by rewrite drop_app_length.
Qed.

Lemma handle_connection_parsed (raw : string) (request : HttpRequest.t)
    (st : State) :
  parse raw = Some request ->
  handle_connection raw st
  = (Some (HttpResponse.build (route router_ request st).1),
     (route router_ request st).2).
Proof.
  intros Hparse. unfold handle_connection.
  destruct raw as [|c raw]; [done|]. rewrite Hparse.
  by destruct (route router_ request st).
Qed.

Lemma ttl_of_absent (request : HttpRequest.t) :
  get_header request "X-TTL" = None -> ttl_of request = 0.
Proof. unfold ttl_of. by intros ->. Qed.

Lemma put_key_stores (request : HttpRequest.t) (key : string) (st : State) :
  key <> "" ->
  put_key request {| path_suffix := key |} st
  = (HttpResponse.body HttpResponse.created "OK",
     KeyValueStore.set key (HttpRequest.body_ request) (ttl_of request) st).
Proof. intros Hkey. unfold put_key. cbn [path_suffix]. by destruct key. Qed.

(** X20.  How [put_key] reads the [X-TTL] header.  A value that begins
    with a decimal number that fits an [int] gives that number as the TTL,
    whatever follows the digits.  Without the header, with a value that
    holds no digit, or with a number that does not fit an [int], the key is
    stored with a TTL of 0, that is without expiry, and the answer is 201
    all the same. *)
Theorem put_key_reads_the_ttl_header (request : HttpRequest.t)
    (key : string) (st : State) :
  key <> "" ->
  let stored ttl_seconds :=
    put_key request {| path_suffix := key |} st
    = (HttpResponse.body HttpResponse.created "OK",
       KeyValueStore.set key (HttpRequest.body_ request) ttl_seconds st) in
  (forall z rest,
      get_header request "X-TTL" = Some (pretty z +:+ rest) ->
      ends_number rest ->
      stored (if bool_decide (-2147483648 <= z <= 2147483647)
              then z else 0))
  /\ (get_header request "X-TTL" = None -> stored 0)
  /\ (forall v, get_header request "X-TTL" = Some v ->
        all_chars (fun c => negb (isdigit c)) v = true -> stored 0).
Proof.
  intros Hkey stored. subst stored. cbv beta.
  rewrite put_key_stores by done. unfold ttl_of. split; [|split].
  - intros z rest -> Hrest. rewrite stoi_decimal by done.
    by destruct (bool_decide _).
  - by intros ->.
  - intros v -> Hv. by rewrite stoi_no_digit.
Qed.

Lemma is_word_target (key : string) : is_word key -> is_word ("/kv/" +:+ key).
Proof.
  intros [Hne Hw]. split; [done|].
  rewrite all_chars_app, Hw. reflexivity.
Qed.

Lemma headers_without (name : string) (hs : list (string * string)) :
  Forall (fun h => to_lower h.1 <> name) hs ->
  forall headers : gmap string string,
    foldl (fun h nv => <[to_lower nv.1 := nv.2]> h) headers hs !! name
    = headers !! name.
Proof.
  induction 1 as [|[n v] hs Hn _ IH]; intros headers; [done|].
  cbn [foldl]. rewrite IH. by apply lookup_insert_ne.
Qed.

(** A PUT without [X-TTL], as [read_all] returned it. *)
Lemma put_over_the_wire (key value : string) (hs : list (string * string))
    (st : State) :
  is_word key -> Forall plain_header hs ->
  Forall (fun h => to_lower h.1 <> "x-ttl") hs ->
  handle_connection
    (HttpResponse.request_text "PUT" ("/kv/" +:+ key) "HTTP/1.1" hs value) st
  = (Some (HttpResponse.build (HttpResponse.body HttpResponse.created "OK")),
     {| store_ := <[key := mk_entry value None]> (store_ st);
        clock := clock st |}).
Proof.
  intros Hkey Hhs Httl.
  assert (Hne : key <> "") by apply Hkey.
  rewrite (handle_connection_parsed _ _ st
             (parse_request_text "PUT" ("/kv/" +:+ key) "HTTP/1.1" hs value
                ltac:(split; [discriminate|reflexivity])
                (is_word_target key Hkey)
                ltac:(split; [discriminate|reflexivity]) Hhs)).
  rewrite (route_key _ key) by done.
  change (string_to_method "PUT") with PUT. cbv iota.
  rewrite put_key_stores by done. cbn [fst snd HttpRequest.body_].
  rewrite ttl_of_absent.
  2:{ unfold get_header. cbn [HttpRequest.headers_].
      change (to_lower "X-TTL") with "x-ttl".
      by rewrite headers_without. }
  rewrite set_unfold. by rewrite (calculate_expiry_none 0).
Qed.

(** X21.  The life of a key, as a client sees it.  The four requests are
    the texts [read_all] returns; [hs] are any headers but [X-TTL].  A PUT
    is answered 201 and stores the body under the key, without expiry; a
    GET then answers 200 with that body and changes nothing; a DELETE
    answers 200 and takes the key out; a GET then answers 404. *)
Theorem kv_lifecycle_over_the_wire (key value : string)
    (hs : list (string * string)) (st : State) :
  is_word key -> Forall plain_header hs ->
  Forall (fun h => to_lower h.1 <> "x-ttl") hs ->
  let ask method_str payload :=
    HttpResponse.request_text method_str ("/kv/" +:+ key) "HTTP/1.1" hs
      payload in
  let answer response := Some (HttpResponse.build response) in
  let st1 := {| store_ := <[key := mk_entry value None]> (store_ st);
                clock := clock st |} in
  let st2 := {| store_ := delete key (store_ st); clock := clock st |} in
  handle_connection (ask "PUT" value) st
  = (answer (HttpResponse.body HttpResponse.created "OK"), st1)
  /\ handle_connection (ask "GET" "") st1
     = (answer (HttpResponse.body HttpResponse.ok value), st1)
  /\ handle_connection (ask "DELETE" "") st1
     = (answer (HttpResponse.body HttpResponse.ok ("Deleted: " +:+ key)),
        st2)
  /\ handle_connection (ask "GET" "") st2
     = (answer (HttpResponse.body HttpResponse.not_found
                  ("Key not found: " +:+ key)), st2).
Proof.
  intros Hkey Hhs Httl ask answer st1 st2.
  assert (Hparse : forall m payload,
            is_word m ->
            parse (ask m payload)
            = Some {| method_ := string_to_method m;
                      path_ := "/kv/" +:+ key;
                      body_ := payload;
                      headers_ := foldl (fun h nv => <[to_lower nv.1 := nv.2]> h)
                                    ∅ hs |}).
  { intros m payload Hm.
    apply parse_request_text;
      [done|by apply is_word_target|split; [discriminate|reflexivity]|done]. }
  assert (Hword : forall m, m = "PUT" \/ m = "GET" \/ m = "DELETE" ->
                            is_word m).
  { intros m [->|[->| ->]]; (split; [discriminate|reflexivity]). }
  assert (Hne : key <> "") by apply Hkey.
  split; [|split; [|split]].
  - by apply put_over_the_wire.
  - rewrite (handle_connection_parsed _ _ st1 (Hparse "GET" "" ltac:(auto))).
    rewrite (route_key _ key) by done.
    change (string_to_method "GET") with GET. cbv iota.
    unfold get_key. cbn [path_suffix]. destruct key as [|c key]; [done|].
    rewrite get_unfold. subst st1. cbn [store_].
    rewrite lookup_insert_eq. reflexivity.
  - rewrite (handle_connection_parsed _ _ st1
               (Hparse "DELETE" "" ltac:(auto))).
    rewrite (route_key _ key) by done.
    change (string_to_method "DELETE") with DELETE. cbv iota.
    unfold delete_key. cbn [path_suffix]. destruct key as [|c key]; [done|].
    unfold KeyValueStore.remove, ThreadSafeHashMap.remove. subst st1.
    cbn [store_ clock]. rewrite lookup_insert_eq. cbn [fst snd].
    subst st2. by rewrite delete_insert_eq.
  - rewrite (handle_connection_parsed _ _ st2 (Hparse "GET" "" ltac:(auto))).
    rewrite (route_key _ key) by done.
    change (string_to_method "GET") with GET. cbv iota.
    unfold get_key. cbn [path_suffix]. destruct key as [|c key]; [done|].
    rewrite get_unfold. subst st2. cbn [store_].
    rewrite lookup_delete_eq. reflexivity.
Qed.

End HandlerFacts.

(* ===================================================================== *)
(** * What one connection does to the store *)
(* ===================================================================== *)

Section ConnectionFacts.
Import Stdlib.Strings.Ascii Text HttpRequest Router KvHandler Application.
Import Chrono KeyValueStore.
Context `{!ThreadSafeHashMap.IterationOrder string KeyValueStore.StoreEntry}.
Context `{!ThreadSafeHashMap.IterationOrder string string}.

Lemma path_of_suffix (request : HttpRequest.t) :
  bool_decide (String.index 0 "/kv/" (path_ request) = Some 0%nat) = true ->
  path_ request = "/kv/" +:+ drop 4 (path_ request).
Proof.
  intros [key Hkey]%starts_with_dec. rewrite Hkey at 2.
  change 4%nat with (String.length "/kv/"). by rewrite drop_app_length.
Qed.

Lemma empty_key_is_refused (request : HttpRequest.t) (st : State) :
  get_key request {| path_suffix := "" |} st
  = (HttpResponse.body HttpResponse.bad_request "Key cannot be empty", st)
  /\ put_key request {| path_suffix := "" |} st
     = (HttpResponse.body HttpResponse.bad_request "Key cannot be empty", st)
  /\ delete_key request {| path_suffix := "" |} st
     = (HttpResponse.body HttpResponse.bad_request "Key cannot be empty", st).
Proof. done. Qed.

Lemma get_key_state (request : HttpRequest.t) (key : string) (st : State) :
  key <> "" ->
  (get_key request {| path_suffix := key |} st).2 = (get key st).2.
Proof.
  intros Hkey. unfold get_key. cbn [path_suffix].
  destruct key as [|c key]; [done|].
  by destruct (get (String c key) st) as [[v|] st'].
Qed.

Lemma delete_key_state (request : HttpRequest.t) (key : string) (st : State) :
  key <> "" ->
  (delete_key request {| path_suffix := key |} st).2
  = {| store_ := delete key (store_ st); clock := clock st |}.
Proof.
  intros Hkey. unfold delete_key. cbn [path_suffix].
  destruct key as [|c key]; [done|].
  unfold remove, ThreadSafeHashMap.remove.
  by destruct (store_ st !! String c key).
Qed.

(** What a routed request does to the store. *)
Lemma route_frame (request : HttpRequest.t) (st : State) :
  let st' := (route router_ request st).2 in
  (forall k, path_ request <> "/kv/" +:+ k ->
             store_ st' !! k = store_ st !! k)
  /\ (method_ request <> PUT -> store_ st' ⊆ store_ st)
  /\ (method_ request = UNKNOWN -> st' = st).
Proof.
  cbv zeta. rewrite route_cases.
  destruct (bool_decide (String.index 0 "/kv/" (path_ request) = _))
    eqn:Hkv.
  - apply path_of_suffix in Hkv.
    remember (drop 4 (path_ request)) as key eqn:Hkey. clear Hkey.
    destruct (decide (key = "")) as [->|Hne].
    { destruct (empty_key_is_refused request st) as (-> & -> & ->).
      by destruct (method_ request). }
    destruct (method_ request) eqn:Hm.
    + rewrite get_key_state by done.
      destruct (get_frame key st) as (Hother & _ & _ & Hsub).
      split; [|done]. intros k Hk. apply Hother. congruence.
    + rewrite put_key_stores by done.
      cbn [snd]. split; [|split; [done|done]].
      intros k Hk. rewrite set_lookup. apply lookup_insert_ne. congruence.
    + rewrite delete_key_state by done. cbn [store_].
      split; [|split; [intros _; apply delete_subseteq|done]].
      intros k Hk. apply lookup_delete_ne. congruence.
    + done.
  - destruct (bool_decide (String.index 0 "/kv" (path_ request) = _));
      [|done].
    destruct (method_ request); try done.
    unfold list_keys. rewrite keys_unfold. done.
Qed.

(** X22.  What one connection can do to the store.  It touches no key
    but the one its path names after ["/kv/"]; unless its method is PUT it
    adds no entry and changes none; and a request that is not understood
    (nothing read, no request line of three words, a method other than GET,
    PUT and DELETE) leaves the store and the clock as they were. *)
Theorem a_request_touches_only_its_key (raw : string) (st : State) :
  let st' := (handle_connection raw st).2 in
  (forall k,
      (forall request, parse raw = Some request ->
                       path_ request <> "/kv/" +:+ k) ->
      store_ st' !! k = store_ st !! k)
  /\ ((forall request, parse raw = Some request -> method_ request <> PUT) ->
      store_ st' ⊆ store_ st)
  /\ ((forall request, parse raw = Some request ->
                       method_ request = UNKNOWN) ->
      st' = st).
Proof.
  cbv zeta. destruct (parse raw) as [request|] eqn:Hparse.
  - rewrite (handle_connection_parsed raw request st Hparse). cbn [snd].
    destruct (route_frame request st) as (Hother & Hsub & Hunknown).
    split; [|split].
    + intros k Hk. apply Hother. by apply Hk.
    + intros Hm. apply Hsub. by apply Hm.
    + intros Hm. apply Hunknown. by apply Hm.
  - assert (Hsame : (handle_connection raw st).2 = st).
    { unfold handle_connection. destruct raw; [done|]. by rewrite Hparse. }
    rewrite Hsame. done.
Qed.

End ConnectionFacts.

(* ===================================================================== *)
(** * Socket::read_all and Socket::write_all *)
(* ===================================================================== *)

Section SocketFacts.
Import Stdlib.Strings.Ascii Text HttpRequest Application SocketIO.
Import Chrono KeyValueStore.
Context `{!ThreadSafeHashMap.IterationOrder string KeyValueStore.StoreEntry}.
Context `{!ThreadSafeHashMap.IterationOrder string string}.

Lemma take_app_s (n : nat) (s r : string) :
  (String.length s <= n)%nat ->
  take n (s +:+ r) = s +:+ take (n - String.length s) r.
Proof.
  revert n. induction s as [|c s IH]; intros n Hn.
  - rewrite !app_empty_l. simpl. by rewrite Nat.sub_0_r.
  - destruct n as [|n]; [simpl in Hn; lia|].
    rewrite !app_cons. cbn [take String.length Nat.sub].
    rewrite IH by (simpl in Hn; lia). done.
Qed.

Lemma take_length_le (n : nat) (s : string) :
  (String.length (take n s) <= n)%nat.
Proof.
  revert s. induction n as [|n IH]; intros [|c s]; simpl; try lia.
  specialize (IH s). lia.
Qed.

Lemma request_text_split (m p v : string) (hs : list (string * string))
    (payload : string) :
  HttpResponse.request_text m p v hs payload
  = HttpResponse.request_text m p v hs "" +:+ payload.
Proof.
  unfold HttpResponse.request_text. rewrite !app_assoc_s.
  by rewrite app_empty_l.
Qed.

(** X23.  A request is read with one call of [recv] on a buffer of
    [BUFFER_SIZE] bytes, and a [Content-Length] header is not looked at:
    when [recv] returns after the empty line, but before the end of the
    body of a PUT, the value stored is the part of the body that has been
    read, at most [BUFFER_SIZE] bytes less the lines before it, and the
    answer is 201 as for a whole value. *)
Theorem a_long_put_is_cut_at_the_buffer (key value : string)
    (hs : list (string * string)) (bytes_read : Z) (st : State) :
  is_word key -> Forall plain_header hs ->
  Forall (fun h => to_lower h.1 <> "x-ttl") hs ->
  let text :=
    HttpResponse.request_text "PUT" ("/kv/" +:+ key) "HTTP/1.1" hs value in
  let head := (String.length text - String.length value)%nat in
  Z.of_nat head <= bytes_read <= Z.of_nat BUFFER_SIZE ->
  let kept := take (Z.to_nat bytes_read - head) value in
  handle_connection (read_all text bytes_read) st
  = (Some (HttpResponse.build (HttpResponse.body HttpResponse.created "OK")),
     {| store_ := <[key := mk_entry kept None]> (store_ st);
        clock := clock st |})
  /\ (String.length kept <= BUFFER_SIZE - head)%nat.
Proof.
  intros Hkey Hhs Httl text head Hread kept.
  set (before :=
         HttpResponse.request_text "PUT" ("/kv/" +:+ key) "HTTP/1.1" hs "").
  assert (Htext : text = before +:+ value) by apply request_text_split.
  assert (Hhead : head = String.length before).
  { subst head. rewrite Htext, length_app_s. lia. }
  assert (Hpos : (0 < String.length before)%nat).
  { subst before. unfold HttpResponse.request_text.
    rewrite app_cons. simpl. lia. }
  split.
  - unfold read_all. rewrite bool_decide_eq_false_2 by lia.
    rewrite Htext, take_app_s by lia. rewrite <- Hhead. fold kept.
    subst before. rewrite <- request_text_split.
    by apply put_over_the_wire.
  - subst kept. pose proof (take_length_le (Z.to_nat bytes_read - head) value).
    lia.
Qed.

Lemma drop_drop_s (n m : nat) (s : string) :
  drop n (drop m s) = drop (m + n) s.
Proof.
  revert s. induction m as [|m IH]; intros s; [done|].
  destruct s as [|c s]; [by destruct n|]. simpl. apply IH.
Qed.

Lemma drop_length_s (n : nat) (s : string) :
  String.length (drop n s) = (String.length s - n)%nat.
Proof.
  revert s. induction n as [|n IH]; intros [|c s]; simpl; try lia.
  apply IH.
Qed.

Lemma drop_all_s (n : nat) (s : string) :
  (String.length s <= n)%nat -> drop n s = "".
Proof.
  intros Hn. pose proof (drop_length_s n s) as Hlen.
  destruct (drop n s); [done|]. simpl in Hlen. lia.
Qed.

(** The loop of [write_all], from any iteration on. *)
Lemma write_loop_spec (send_ret : nat -> nat -> Z) (data : string) :
  send_contract send_ret ->
  forall fuel i total_sent,
    let r := write_loop send_ret data fuel i total_sent in
    exists unsent,
      drop total_sent data = r.2 +:+ unsent
      /\ (r.1 = Returned true -> unsent = "")
      /\ (r.1 = Returned false -> unsent <> "").
Proof.
  intros Hsend. induction fuel as [|fuel IH]; intros i total_sent.
  - exists (drop total_sent data). by rewrite app_empty_l.
  - cbn [write_loop]. case_bool_decide as Hmore.
    + case_bool_decide as Hfail.
      * exists (drop total_sent data). rewrite app_empty_l.
        split; [done|]. split; [done|]. intros _ Hnil.
        pose proof (drop_length_s total_sent data) as Hlen.
        rewrite Hnil in Hlen. simpl in Hlen. lia.
      * set (n := Z.to_nat (send_ret i (String.length data - total_sent)%nat)).
        destruct (IH (S i) (total_sent + n)%nat) as (unsent & Hsplit & Hr).
        destruct (write_loop send_ret data fuel (S i) (total_sent + n))
          as [out wire]. cbn [fst snd] in *.
        exists unsent. split; [|done].
        rewrite app_assoc_s, <- Hsplit, <- drop_drop_s.
        by rewrite take_drop_s.
    + exists "". cbn [fst snd]. rewrite app_empty_l.
      split; [|done]. apply drop_all_s. lia.
Qed.

Lemma write_loop_ends (send_ret : nat -> nat -> Z) (data : string) :
  send_contract send_ret ->
  (forall i len, (0 < len)%nat -> send_ret i len <> 0) ->
  forall fuel i total_sent,
    (String.length data - total_sent < fuel)%nat ->
    (write_loop send_ret data fuel i total_sent).1 <> StillSending.
Proof.
  intros Hsend Hprogress.
  induction fuel as [|fuel IH]; intros i total_sent Hfuel; [lia|].
  cbn [write_loop]. case_bool_decide as Hmore; [|done].
  case_bool_decide as Hfail; [done|].
  set (len := (String.length data - total_sent)%nat) in *.
  pose proof (Hsend i len). pose proof (Hprogress i len ltac:(lia)).
  specialize (IH (S i) (total_sent + Z.to_nat (send_ret i len))%nat
                ltac:(lia)).
  by destruct (write_loop send_ret data fuel (S i) _).
Qed.

(** X24.  [write_all], when [send] never claims more bytes than it was
    offered.  The bytes handed over are a prefix of [data], in order and
    without repetition, however the calls of [send] cut them up; when
    [write_all] returns true they are all of [data], and when it returns
    false a part of [data] has not been sent.  If [send] never returns 0 for
    a request that is not empty, [write_all] returns after at most one call
    for each byte of [data]. *)
Theorem write_all_sends_a_prefix (send_ret : nat -> nat -> Z)
    (data : string) (fuel : nat) :
  send_contract send_ret ->
  let r := write_all send_ret data fuel in
  (exists unsent, data = r.2 +:+ unsent
                  /\ (r.1 = Returned true -> unsent = "")
                  /\ (r.1 = Returned false -> unsent <> ""))
  /\ ((forall i len, (0 < len)%nat -> send_ret i len <> 0) ->
      (String.length data < fuel)%nat -> r.1 <> StillSending).
Proof.
  intros Hsend r. split.
  - apply (write_loop_spec send_ret data Hsend fuel 0%nat 0%nat).
  - intros Hprogress Hfuel. apply write_loop_ends; [done|done|lia].
Qed.

End SocketFacts.

(* ===================================================================== *)
(** * ThreadPool: what every interleaving keeps *)
(* ===================================================================== *)

Section PoolFacts.
Import ThreadPool.
Implicit Types (s : Pool) (ws : list WorkerPc) (pc : WorkerPc) (i j : nat).

Lemma run_app (sched1 sched2 : list Event) s :
  run (sched1 ++ sched2) s = run sched2 (run sched1 s).
Proof.
  revert s. induction sched1 as [|e sched1 IH]; intros s; [done|]. apply IH.
Qed.

Lemma running_cons pc ws : running (pc :: ws) = running [pc] ++ running ws.
Proof. by destruct pc. Qed.

Lemma running_insert ws i pc pc' :
  ws !! i = Some pc ->
  running (<[i := pc']> ws) ++ running [pc] ≡ₚ running [pc'] ++ running ws.
Proof.
  revert i. induction ws as [|w ws IH]; intros [|i] Hi; try done.
  - injection Hi as ->. cbn [insert list_insert].
    rewrite (running_cons pc' ws), (running_cons pc ws).
    rewrite <- app_assoc. f_equiv. apply Permutation_app_comm.
  - cbn [insert list_insert].
    rewrite (running_cons w (<[i := pc']> ws)), (running_cons w ws).
    rewrite <- app_assoc, (IH i Hi).
    rewrite !app_assoc. f_equiv. apply Permutation_app_comm.
Qed.

Lemma lookup_moved ws i j pc pc' :
  ws !! i = Some pc ->
  <[i := pc']> ws !! j = if decide (i = j) then Some pc' else ws !! j.
Proof.
  intros Hi. destruct (decide (i = j)) as [<-|Hne].
  - apply list_lookup_insert_eq. by eapply lookup_lt_Some.
  - by apply list_lookup_insert_ne.
Qed.

(** A worker goes from [pc] to [pc'], neither with a task in hand, and
    nothing else changes but the holder of the mutex. *)
Lemma invariant_move s s' i pc pc' :
  invariant s -> workers_ s !! i = Some pc ->
  workers_ s' = <[i := pc']> (workers_ s) ->
  task_queue_ s' = task_queue_ s ->
  stop_requested_ s' = stop_requested_ s -> owner s' = owner s ->
  submitted s' = submitted s -> taken s' = taken s ->
  finished s' = finished s ->
  running [pc] = [] -> running [pc'] = [] ->
  queue_mutex_ s'
  = (if holds pc' then Some i
     else if holds pc then None else queue_mutex_ s) ->
  (holds pc' = true -> holds pc = true \/ queue_mutex_ s = None) ->
  (pc' = AtCheck -> stop_requested_ s = true \/ task_queue_ s <> []) ->
  pc' <> Undefined ->
  (pc' = Exited -> stop_requested_ s = true) ->
  invariant s'.
Proof.
  intros [Hq Hr Hm Hc Hd Ha He] Hi Hws Hqueue Hstop Howner Hsub Htaken Hfin
    Hpc Hpc' Hmutex Hlock Hcheck Hdef Hexit.
  assert (Hlook : forall j, workers_ s' !! j
                            = if decide (i = j) then Some pc'
                              else workers_ s !! j).
  { intros j. rewrite Hws. by eapply lookup_moved. }
  split.
  - by rewrite Htaken, Hqueue, Hsub.
  - rewrite Hfin, Htaken, <- Hr. f_equiv.
    pose proof (running_insert (workers_ s) i pc pc' Hi) as Hp.
    rewrite Hpc, Hpc', app_nil_r in Hp. by rewrite Hws.
  - intros j. rewrite Hlook, Hmutex. pose proof (Hm i) as Hmi.
    specialize (Hm j).
    destruct (decide (i = j)) as [<-|Hne].
    + destruct (holds pc') eqn:Hh'.
      * split; [by exists pc'|done].
      * split.
        -- destruct (holds pc) eqn:Hh; [done|]. intros Hj.
           apply Hmi in Hj as (pc0 & Hpc0 & Hh0). congruence.
        -- intros (pc0 & Hpc0 & Hh0). congruence.
    + rewrite <- Hm. destruct (holds pc') eqn:Hh'.
      * destruct (Hlock eq_refl) as [Hh|Hnone].
        -- assert (queue_mutex_ s = Some i) as -> by (apply Hmi; eauto).
           split; congruence.
        -- rewrite Hnone. split; congruence.
      * destruct (holds pc) eqn:Hh; [|done].
        assert (queue_mutex_ s = Some i) as -> by (apply Hmi; eauto).
        split; congruence.
  - intros j. rewrite Hlook, Hstop, Hqueue.
    destruct (decide (i = j)) as [<-|Hne]; [|apply Hc].
    intros [= ->]. by apply Hcheck.
  - intros j. rewrite Hlook.
    destruct (decide (i = j)) as [<-|Hne]; [congruence|apply Hd].
  - rewrite Howner, Hstop. apply Ha.
  - intros j. rewrite Hlook, Hstop.
    destruct (decide (i = j)) as [<-|Hne]; [|apply He].
    intros [= ->]. by apply Hexit.
Qed.

Lemma push_invariant (task : Task) s : invariant s -> invariant (push task s).
Proof.
  intros Hinv. unfold push. destruct (queue_mutex_ s) as [holder|] eqn:Hmx;
    [done|].
  destruct Hinv as [Hq Hr Hm Hc Hd Ha He]. split; cbn; try done.
  - by rewrite app_assoc, Hq.
  - intros i. rewrite <- Hm, Hmx. done.
  - intros i Hi. assert (queue_mutex_ s = Some i) by (apply Hm; eauto).
    congruence.
Qed.

Lemma wake_invariant i s : invariant s -> invariant (wake i s).
Proof.
  intros Hinv. unfold wake.
  destruct (workers_ s !! i) as [[]|] eqn:Hi; try done.
  eapply (invariant_move s _ i Blocked AtLock); try done.
Qed.

Lemma notify_one_invariant (choice : nat) s :
  invariant s -> invariant (notify_one choice s).
Proof.
  intros Hinv. unfold notify_one.
  destruct (blocked_from 0 (workers_ s)); [done|]. by apply wake_invariant.
Qed.

Lemma running_notify_all ws :
  running ((fun pc => match pc with Blocked => AtLock | _ => pc end) <$> ws)
  = running ws.
Proof.
  induction ws as [|pc ws IH]; [done|]. rewrite fmap_cons.
  rewrite (running_cons pc), running_cons, IH. by destruct pc.
Qed.

Lemma lookup_notify_all ws i pc :
  ((fun pc => match pc with Blocked => AtLock | _ => pc end) <$> ws) !! i
  = Some pc ->
  ws !! i = Some pc \/ (ws !! i = Some Blocked /\ pc = AtLock).
Proof.
  rewrite list_lookup_fmap. destruct (ws !! i) as [[]|]; cbn; intros [= <-];
    auto.
Qed.

Lemma notify_all_invariant s : invariant s -> invariant (notify_all s).
Proof.
  intros [Hq Hr Hm Hc Hd Ha He]. split; cbn; try done.
  - by rewrite running_notify_all.
  - intros i. rewrite Hm, list_lookup_fmap. split.
    + intros (pc & -> & Hh). exists pc. by destruct pc.
    + intros (pc & Hpc & Hh).
      destruct (workers_ s !! i) as [pc0|]; [|done]. exists pc0.
      split; [done|]. cbn in Hpc. injection Hpc as <-. by destruct pc0.
  - intros i [Hi|[_ ?]]%lookup_notify_all; [by eapply Hc|done].
  - intros i [Hi|[_ ?]]%lookup_notify_all; [by eapply Hd|done].
  - intros i [Hi|[_ ?]]%lookup_notify_all; [by eapply He|done].
Qed.

Lemma worker_loop_step_invariant i s :
  invariant s -> invariant (worker_loop_step i s).
Proof.
  intros Hinv. unfold worker_loop_step.
  destruct (workers_ s !! i) as [pc|] eqn:Hi; [|done].
  destruct pc; try done.
  - (* AtLock *)
    destruct (queue_mutex_ s) eqn:Hmx; [done|].
    eapply (invariant_move s _ i AtLock AtPredicate); try done. by right.
  - (* AtPredicate *)
    assert (Hmx : queue_mutex_ s = Some i)
      by (apply (inv_mutex s Hinv i); eauto).
    destruct (stop_requested_ s || negb (bool_decide (task_queue_ s = [])))
      eqn:Hpred.
    + eapply (invariant_move s _ i AtPredicate AtCheck); try done.
      * by left.
      * intros _. apply orb_true_iff in Hpred as [Hstop|Hne]; [by left|].
        right. apply negb_true_iff in Hne. by apply bool_decide_eq_false in Hne.
    + eapply (invariant_move s _ i AtPredicate Unsatisfied); try done.
      by left.
  - (* Unsatisfied *)
    eapply (invariant_move s _ i Unsatisfied Blocked); try done.
  - (* AtCheck *)
    destruct (stop_requested_ s && bool_decide (task_queue_ s = []))
      eqn:Hexit.
    + apply andb_true_iff in Hexit as [Hstop _].
      eapply (invariant_move s _ i AtCheck Exited); try done.
    + destruct Hinv as [Hq Hr Hm Hc Hd Ha He].
      destruct (task_queue_ s) as [|task rest] eqn:Hqueue.
      { destruct (Hc i Hi) as [Hstop|Hne]; [|done].
        rewrite Hstop in Hexit. done. }
      assert (Hmx : queue_mutex_ s = Some i) by (apply Hm; eauto).
      assert (Hlook : forall j, <[i := Running task]> (workers_ s) !! j
                                = if decide (i = j) then Some (Running task)
                                  else workers_ s !! j).
      { intros j. by eapply lookup_moved. }
      split; cbn.
      * by rewrite <- app_assoc.
      * pose proof (running_insert (workers_ s) i AtCheck (Running task) Hi)
          as Hp.
        cbn in Hp. rewrite app_nil_r in Hp. rewrite Hp, <- Hr.
        rewrite <- app_assoc. f_equiv.
        change (task :: running (workers_ s))
          with ([task] ++ running (workers_ s)).
        apply Permutation_app_comm.
      * intros j. rewrite Hlook. split; [done|].
        intros (pc & Hpc & Hh). destruct (decide (i = j)) as [<-|Hne].
        -- by injection Hpc as <-.
        -- assert (queue_mutex_ s = Some j) by (apply Hm; eauto). congruence.
      * intros j. rewrite Hlook. destruct (decide (i = j)) as [<-|Hne];
          [done|].
        intros Hj. assert (queue_mutex_ s = Some j) by (apply Hm; eauto).
        congruence.
      * intros j. rewrite Hlook. destruct (decide (i = j)) as [<-|Hne];
          [done|apply Hd].
      * done.
      * intros j. rewrite Hlook. destruct (decide (i = j)) as [<-|Hne];
          [done|apply He].
  - (* Running *)
    destruct Hinv as [Hq Hr Hm Hc Hd Ha He].
    assert (Hlook : forall j, <[i := AtLock]> (workers_ s) !! j
                              = if decide (i = j) then Some AtLock
                                else workers_ s !! j).
    { intros j. by eapply lookup_moved. }
    split; cbn.
    * done.
    * pose proof (running_insert (workers_ s) i (Running task) AtLock Hi)
        as Hp.
      cbn in Hp. rewrite <- Hr, <- app_assoc. f_equiv.
      rewrite <- Hp. apply Permutation_app_comm.
    * intros j. rewrite Hlook, Hm. destruct (decide (i = j)) as [<-|Hne];
        [|done].
      rewrite Hi. split; intros (pc & [= <-] & Hh); done.
    * intros j. rewrite Hlook. destruct (decide (i = j)) as [<-|Hne];
        [done|apply Hc].
    * intros j. rewrite Hlook. destruct (decide (i = j)) as [<-|Hne];
        [done|apply Hd].
    * done.
    * intros j. rewrite Hlook. destruct (decide (i = j)) as [<-|Hne];
        [done|apply He].
Qed.

Lemma destructor_step_invariant s :
  invariant s -> invariant (destructor_step s).
Proof.
  intros Hinv. unfold destructor_step. destruct (owner s) eqn:Howner.
  - destruct Hinv as [Hq Hr Hm Hc Hd Ha He]. split; cbn; try done.
    intros i _. by left.
  - apply notify_all_invariant in Hinv.
    destruct Hinv as [Hq Hr Hm Hc Hd Ha He]. split; try done.
  - destruct (workers_ s !! i) as [[]|]; try done.
    + destruct Hinv as [Hq Hr Hm Hc Hd Ha He]. split; try done.
    + destruct Hinv as [Hq Hr Hm Hc Hd Ha He]. split; try done.
  - done.
Qed.

Lemma step_invariant (e : Event) s : invariant s -> invariant (step e s).
Proof.
  destruct e; cbn [step].
  - apply push_invariant.
  - apply notify_one_invariant.
  - apply wake_invariant.
  - apply worker_loop_step_invariant.
  - apply destructor_step_invariant.
Qed.

Lemma create_invariant (num_threads : nat) : invariant (create num_threads).
Proof.
  assert (Hall : forall i pc, replicate num_threads AtLock !! i = Some pc ->
                              pc = AtLock).
  { intros i pc Hi. by apply lookup_replicate in Hi as [-> _]. }
  split; cbn; try done.
  - induction num_threads as [|n IH]; [done|]. cbn. apply IH.
    intros i pc Hi. by apply lookup_replicate in Hi as [-> _].
  - intros i. split; [done|]. intros (pc & Hpc & Hh).
    apply Hall in Hpc as ->. done.
  - intros i Hi. by apply Hall in Hi.
  - intros i Hi. by apply Hall in Hi.
  - intros i Hi. by apply Hall in Hi.
Qed.

Lemma run_invariant (sched : list Event) s :
  invariant s -> invariant (run sched s).
Proof.
  revert s. induction sched as [|e sched IH]; intros s Hinv; [done|].
  cbn [run]. by apply IH, step_invariant.
Qed.

(** X25.  What a pool keeps under every interleaving of submitters,
    workers and owner, wake-ups without notification included.  The tasks
    are taken from the queue in the order in which they were pushed, none
    twice and none skipped: those taken, followed by those still queued,
    are those pushed.  A task whose call has returned was taken, and the
    tasks taken whose call has not returned are in the hands of workers.
    No worker calls [front()] on an empty queue, no two workers are between
    locking and unlocking the mutex at once, and no worker returns before
    the destructor has stored the flag. *)
Theorem tasks_are_taken_in_order (num_threads : nat) (sched : list Event) :
  let s := run sched (create num_threads) in
  taken s ++ task_queue_ s = submitted s
  /\ finished s ++ running (workers_ s) ≡ₚ taken s
  /\ (forall i, workers_ s !! i <> Some Undefined)
  /\ (forall i j pc pc',
        workers_ s !! i = Some pc -> workers_ s !! j = Some pc' ->
        holds pc = true -> holds pc' = true -> i = j)
  /\ (forall i, workers_ s !! i = Some Exited -> owner s <> Alive).
Proof.
  intros s.
  destruct (run_invariant sched _ (create_invariant num_threads))
    as [Hq Hr Hm Hc Hd Ha He].
  fold s in Hq, Hr, Hm, Hc, Hd, Ha, He.
  split; [done|]. split; [done|]. split; [done|]. split.
  - intros i j pc pc' Hi Hj Hh Hh'.
    assert (queue_mutex_ s = Some i) by (apply Hm; eauto).
    assert (queue_mutex_ s = Some j) by (apply Hm; eauto). congruence.
  - intros i Hi Halive. apply He in Hi. apply Ha in Halive. congruence.
Qed.

Lemma shutting_down_move s s' i pc pc' :
  shutting_down s -> invariant s' ->
  workers_ s !! i = Some pc -> pc <> Exited ->
  workers_ s' = <[i := pc']> (workers_ s) -> owner s' = owner s ->
  (pc' = Exited -> task_queue_ s' = []) ->
  (task_queue_ s = [] -> task_queue_ s' = []) ->
  shutting_down s'.
Proof.
  intros [Hinv Hempty Hjoined] Hinv' Hi Hpc Hws Howner Hexit Hqueue.
  assert (Hlook : forall j, workers_ s' !! j
                            = if decide (i = j) then Some pc'
                              else workers_ s !! j).
  { intros j. rewrite Hws. by eapply lookup_moved. }
  split; [done| |].
  - intros j. rewrite Hlook. destruct (decide (i = j)) as [<-|Hne].
    + intros [= ->]. by apply Hexit.
    + intros Hj. apply Hqueue. by eapply Hempty.
  - intros j pc0. rewrite Hlook, Howner.
    destruct (decide (i = j)) as [<-|Hne]; [|apply Hjoined].
    intros _. specialize (Hjoined i pc Hi).
    destruct (owner s); try done.
    intros Hlt. by destruct Hpc; apply Hjoined.
Qed.

Lemma wake_shutting_down i s : shutting_down s -> shutting_down (wake i s).
Proof.
  intros Hsd. pose proof (wake_invariant i s (sd_invariant s Hsd)) as Hinv'.
  unfold wake in *. destruct (workers_ s !! i) as [[]|] eqn:Hi; try done.
  by eapply (shutting_down_move s _ i Blocked AtLock).
Qed.

Lemma worker_loop_step_shutting_down i s :
  shutting_down s -> shutting_down (worker_loop_step i s).
Proof.
  intros Hsd.
  pose proof (worker_loop_step_invariant i s (sd_invariant s Hsd)) as Hinv'.
  unfold worker_loop_step in *.
  destruct (workers_ s !! i) as [pc|] eqn:Hi; [|done].
  destruct pc; try done.
  - destruct (queue_mutex_ s); [done|].
    by eapply (shutting_down_move s _ i AtLock AtPredicate).
  - destruct (stop_requested_ s || negb (bool_decide (task_queue_ s = []))).
    + by eapply (shutting_down_move s _ i AtPredicate AtCheck).
    + by eapply (shutting_down_move s _ i AtPredicate Unsatisfied).
  - by eapply (shutting_down_move s _ i Unsatisfied Blocked).
  - destruct (stop_requested_ s && bool_decide (task_queue_ s = []))
      eqn:Hexit.
    + apply andb_true_iff in Hexit as [_ Hnil%bool_decide_eq_true].
      by eapply (shutting_down_move s _ i AtCheck Exited).
    + destruct (task_queue_ s) as [|task rest] eqn:Hqueue.
      * by eapply (shutting_down_move s _ i AtCheck Undefined).
      * eapply (shutting_down_move s _ i AtCheck (Running task)); try done.
        by rewrite Hqueue.
  - by eapply (shutting_down_move s _ i (Running task) AtLock).
Qed.

Lemma destructor_step_shutting_down s :
  shutting_down s -> shutting_down (destructor_step s).
Proof.
  intros Hsd.
  pose proof (destructor_step_invariant s (sd_invariant s Hsd)) as Hinv'.
  destruct Hsd as [Hinv Hempty Hjoined].
  unfold destructor_step in *. destruct (owner s) eqn:Howner.
  - split; [done|done|]. by intros i pc _.
  - split; [done| |].
    + intros i [Hi|[_ ?]]%lookup_notify_all; [by eapply Hempty|done].
    + cbn. intros i pc _. lia.
  - destruct (workers_ s !! i) as [pc|] eqn:Hi.
    + destruct pc; try (split; [done|done|by rewrite Howner]).
      split; [done|done|]. cbn. intros j pc Hj Hlt.
      destruct (decide (j = i)) as [->|Hne]; [congruence|].
      apply (Hjoined j pc Hj). lia.
    + split; [done|done|]. cbn. intros j pc Hj.
      apply (Hjoined j pc Hj). apply lookup_lt_Some in Hj.
      apply lookup_ge_None in Hi. lia.
  - split; [done|done|by rewrite Howner].
Qed.

Lemma run_shutting_down (sched : list Event) s :
  forallb (fun e => negb (is_push e)) sched = true ->
  shutting_down s -> shutting_down (run sched s).
Proof.
  revert s. induction sched as [|e sched IH]; intros s Hsched Hsd; [done|].
  cbn in Hsched. apply andb_true_iff in Hsched as [He Hsched].
  cbn [run]. apply IH; [done|]. destruct e; cbn [step]; try done.
  - unfold notify_one. destruct (blocked_from 0 (workers_ s)); [done|].
    by apply wake_shutting_down.
  - by apply wake_shutting_down.
  - by apply worker_loop_step_shutting_down.
  - by apply destructor_step_shutting_down.
Qed.

Lemma step_alive (e : Event) s :
  is_owner_turn e = false -> owner (step e s) = owner s.
Proof.
  destruct e; cbn [step]; try done; intros _.
  - unfold push. by destruct (queue_mutex_ s).
  - unfold notify_one, wake. destruct (blocked_from 0 (workers_ s)); [done|].
    by destruct (workers_ s !! _) as [[]|].
  - unfold wake. by destruct (workers_ s !! i) as [[]|].
  - unfold worker_loop_step.
    destruct (workers_ s !! i) as [[]|]; try done.
    + by destruct (queue_mutex_ s).
    + by destruct (stop_requested_ s || _).
    + destruct (stop_requested_ s && _); [done|].
      by destruct (task_queue_ s).
Qed.

Lemma run_alive (sched : list Event) s :
  forallb (fun e => negb (is_owner_turn e)) sched = true ->
  owner (run sched s) = owner s.
Proof.
  revert s. induction sched as [|e sched IH]; intros s Hsched; [done|].
  cbn in Hsched. apply andb_true_iff in Hsched as [He Hsched].
  cbn [run]. rewrite IH by done. apply step_alive. by apply negb_true_iff.
Qed.

Lemma running_exited ws :
  (forall i pc, ws !! i = Some pc -> pc = Exited) -> running ws = [].
Proof.
  induction ws as [|w ws IH]; intros Hall; [done|].
  rewrite running_cons, IH.
  - by rewrite (Hall 0%nat w eq_refl).
  - intros i pc Hi. by apply (Hall (S i)).
Qed.

Lemma step_length (e : Event) s :
  length (workers_ (step e s)) = length (workers_ s).
Proof.
  destruct e; cbn [step].
  - unfold push. by destruct (queue_mutex_ s).
  - unfold notify_one, wake. destruct (blocked_from 0 (workers_ s)); [done|].
    destruct (workers_ s !! _) as [[]|]; try done. apply length_insert.
  - unfold wake. destruct (workers_ s !! i) as [[]|]; try done.
    apply length_insert.
  - unfold worker_loop_step.
    destruct (workers_ s !! i) as [[]|]; try done; cbn;
      try apply length_insert.
    + destruct (queue_mutex_ s); [done|]. apply length_insert.
    + destruct (stop_requested_ s || _); apply length_insert.
    + destruct (stop_requested_ s && _); [apply length_insert|].
      destruct (task_queue_ s); apply length_insert.
  - unfold destructor_step. destruct (owner s); try done.
    + cbn. apply length_fmap.
    + by destruct (workers_ s !! i) as [[]|].
Qed.

Lemma run_length (sched : list Event) s :
  length (workers_ (run sched s)) = length (workers_ s).
Proof.
  revert s. induction sched as [|e sched IH]; intros s; [done|].
  cbn [run]. by rewrite IH, step_length.
Qed.

(** X26.  Shutting down drains the queue.  If no task is pushed once the
    destructor has been called, and the pool has a worker, then when the
    destructor has returned every worker has returned, the queue is empty,
    and the tasks whose call has returned are the tasks pushed, each
    once. *)
Theorem shutdown_drains_the_queue (num_threads : nat)
    (before after : list Event) :
  (0 < num_threads)%nat ->
  forallb (fun e => negb (is_owner_turn e)) before = true ->
  forallb (fun e => negb (is_push e)) after = true ->
  let s := run (before ++ after) (create num_threads) in
  owner s = Returned ->
  task_queue_ s = []
  /\ finished s ≡ₚ submitted s
  /\ (forall i pc, workers_ s !! i = Some pc -> pc = Exited).
Proof.
  intros Hn Hbefore Hafter s Hret. subst s. rewrite run_app in *.
  set (s1 := run before (create num_threads)) in *.
  assert (Hinv1 : invariant s1)
    by apply run_invariant, create_invariant.
  assert (Halive : owner s1 = Alive) by (by apply run_alive).
  assert (Hsd1 : shutting_down s1).
  { split; [done| |].
    - intros i Hi. apply (inv_exited s1 Hinv1) in Hi.
      apply (inv_alive s1 Hinv1) in Halive. congruence.
    - intros i pc _. by rewrite Halive. }
  pose proof (run_shutting_down after s1 Hafter Hsd1) as [Hinv Hempty Hjoined].
  set (s := run after s1) in *.
  assert (Hall : forall i pc, workers_ s !! i = Some pc -> pc = Exited).
  { intros i pc Hi. specialize (Hjoined i pc Hi). by rewrite Hret in Hjoined. }
  assert (Hlen : length (workers_ s) = num_threads).
  { subst s s1. rewrite !run_length. apply length_replicate. }
  destruct (workers_ s !! 0%nat) as [pc|] eqn:H0.
  2:{ apply lookup_ge_None in H0. lia. }
  assert (Hnil : task_queue_ s = []).
  { apply (Hempty 0%nat). by rewrite H0, (Hall 0%nat pc H0). }
  split; [done|]. split; [|done].
  pose proof (inv_running s Hinv) as Hr. pose proof (inv_queue s Hinv) as Hq.
  rewrite running_exited, app_nil_r in Hr by done.
  rewrite Hnil, app_nil_r in Hq. by rewrite Hr, Hq.
Qed.

Lemma worker_loop_step_others i j s :
  i <> j ->
  workers_ (worker_loop_step i s) !! j = workers_ s !! j
  /\ owner (worker_loop_step i s) = owner s
  /\ stop_requested_ (worker_loop_step i s) = stop_requested_ s.
Proof.
  intros Hne. unfold worker_loop_step.
  destruct (workers_ s !! i) as [[]|]; try done; cbn;
    try (by rewrite list_lookup_insert_ne).
  - destruct (queue_mutex_ s); [done|]. cbn.
    by rewrite list_lookup_insert_ne.
  - destruct (stop_requested_ s || _); cbn;
      by rewrite list_lookup_insert_ne.
  - destruct (stop_requested_ s && _); cbn;
      [by rewrite list_lookup_insert_ne|].
    destruct (task_queue_ s); cbn; by rewrite list_lookup_insert_ne.
Qed.

(** X27.  The destructor can wait for ever.  The flag is stored and the
    workers are notified without the mutex, so both can happen between a
    worker's test of the predicate and its call of [wait(lock)]: the
    notification finds nobody blocked, the worker then blocks, and
    [join()] does not return as long as nobody submits a task and no
    wake-up comes without a notification, whatever turns the threads
    take. *)
Theorem destructor_can_wait_forever (num_threads : nat)
    (rest : list Event) :
  forallb is_turn rest = true ->
  let s := run (lost_wakeup ++ rest) (create (S num_threads)) in
  owner s = AtJoin 0
  /\ workers_ s !! 0%nat = Some Blocked
  /\ stop_requested_ s = true.
Proof.
  intros Hrest s. subst s. rewrite run_app.
  set (s0 := run lost_wakeup (create (S num_threads))).
  assert (H0 : owner s0 = AtJoin 0 /\ workers_ s0 !! 0%nat = Some Blocked
               /\ stop_requested_ s0 = true) by done.
  clearbody s0. revert s0 H0.
  induction rest as [|e rest IH]; intros s0 H0; [done|].
  cbn in Hrest. apply andb_true_iff in Hrest as [He Hrest].
  cbn [run]. apply IH; [done|]. destruct H0 as (Howner & Hw & Hstop).
  destruct e as [| | |i|]; try done; cbn [step].
  - destruct (decide (i = 0%nat)) as [->|Hne].
    + unfold worker_loop_step. by rewrite Hw.
    + destruct (worker_loop_step_others i 0 s0 Hne) as (-> & -> & ->). done.
  - unfold destructor_step. by rewrite Howner, Hw.
Qed.

End PoolFacts.

(* ===================================================================== *)
(** * Socket: every descriptor is closed once *)
(* ===================================================================== *)

Section SocketOwnerFacts.
Import SocketOwner.
Implicit Types (h : Heap) (m : gmap nat Z) (o : nat) (fd : Z).

Lemma held_insert_fresh m o fd :
  m !! o = None ->
  held (<[o := fd]> m) ≡ₚ (if bool_decide (0 <= fd) then [fd] else []) ++ held m.
Proof.
  intros Ho. unfold held. rewrite map_to_list_insert by done.
  rewrite fmap_cons, filter_cons. cbn [snd].
  by case_bool_decide; case_decide.
Qed.

Lemma held_lookup m o fd :
  m !! o = Some fd ->
  held m ≡ₚ (if bool_decide (0 <= fd) then [fd] else []) ++ held (delete o m).
Proof.
  intros Ho. rewrite <- (insert_delete_id m o fd Ho) at 1.
  apply held_insert_fresh, lookup_delete_eq.
Qed.

Lemma held_insert m o fd fd' :
  m !! o = Some fd ->
  (if bool_decide (0 <= fd) then [fd] else []) ++ held (<[o := fd']> m)
  ≡ₚ (if bool_decide (0 <= fd') then [fd'] else []) ++ held m.
Proof.
  intros Ho. rewrite (held_lookup m o fd Ho).
  rewrite <- (insert_delete_eq m o fd').
  rewrite (held_insert_fresh (delete o m) o fd') by apply lookup_delete_eq.
  rewrite !app_assoc. f_equiv. apply Permutation_app_comm.
Qed.

(** [close_socket()] moves the descriptor of the object, if it has one,
    from the descriptors held to the descriptors closed. *)
Lemma close_socket_balance o h :
  closes (close_socket o h) ++ held (objects (close_socket o h))
  ≡ₚ closes h ++ held (objects h).
Proof.
  unfold close_socket. destruct (objects h !! o) as [fd|] eqn:Ho; [|done].
  case_bool_decide as Hfd; [|done]. cbn [closes objects].
  pose proof (held_insert (objects h) o fd (-1) Ho) as Hp.
  rewrite bool_decide_eq_true_2 in Hp by done.
  rewrite bool_decide_eq_false_2 in Hp by lia. cbn in Hp.
  rewrite <- app_assoc. cbn. by rewrite Hp.
Qed.

Lemma close_socket_self o h fd :
  objects h !! o = Some fd ->
  exists fd', objects (close_socket o h) !! o = Some fd' /\ fd' < 0.
Proof.
  intros Ho. unfold close_socket. rewrite Ho. case_bool_decide as Hfd.
  - exists (-1). cbn [objects]. by rewrite lookup_insert_eq.
  - exists fd. split; [done|lia].
Qed.

Lemma close_socket_other o o' h :
  o <> o' -> objects (close_socket o h) !! o' = objects h !! o'.
Proof.
  intros Hne. unfold close_socket. destruct (objects h !! o); [|done].
  case_bool_decide; [|done]. cbn [objects]. by apply lookup_insert_ne.
Qed.

(** Moving a descriptor from one object to another leaves the descriptors
    held as they are. *)
Lemma held_move m o other fd :
  o <> other -> m !! other = Some fd ->
  (forall fd', m !! o = Some fd' -> fd' < 0) ->
  held (<[o := fd]> (<[other := -1]> m)) ≡ₚ held m.
Proof.
  intros Hne Hother Ho.
  pose proof (held_insert m other fd (-1) Hother) as H1.
  rewrite (bool_decide_eq_false_2 (0 <= -1)) in H1 by lia. cbn in H1.
  rewrite <- H1. set (m1 := <[other := -1]> m).
  destruct (m !! o) as [fd'|] eqn:Hmo.
  - assert (Hm1 : m1 !! o = Some fd')
      by (subst m1; by rewrite lookup_insert_ne).
    pose proof (held_insert m1 o fd' fd Hm1) as H2.
    rewrite (bool_decide_eq_false_2 (0 <= fd')) in H2
      by (specialize (Ho fd' eq_refl); lia).
    done.
  - apply held_insert_fresh. subst m1. by rewrite lookup_insert_ne.
Qed.

Lemma handed_construct o fd :
  handed [Construct o fd] = if bool_decide (0 <= fd) then [fd] else [].
Proof.
  unfold handed. cbn. by case_bool_decide; case_decide.
Qed.

Lemma exec_balance (op : Op) h h' :
  exec op h = Some h' ->
  closes h' ++ held (objects h')
  ≡ₚ (closes h ++ held (objects h)) ++ handed [op].
Proof.
  destruct op as [o fd|o other|o other|o]; cbn [exec].
  - destruct (objects h !! o) eqn:Ho; [done|]. intros [= <-].
    cbn [closes objects]. rewrite held_insert_fresh by done.
    rewrite handed_construct, <- app_assoc. f_equiv.
    apply Permutation_app_comm.
  - destruct (objects h !! o) eqn:Ho; [done|].
    destruct (objects h !! other) as [fd|] eqn:Hother; [|done].
    intros [= <-]. cbn [closes objects]. rewrite app_nil_r.
    rewrite held_move; [done| |done|].
    + intros ->. congruence.
    + intros fd'. by rewrite Ho.
  - destruct (objects h !! o) as [fd0|] eqn:Ho; [|done].
    destruct (objects h !! other) as [fd|] eqn:Hother; [|done].
    case_bool_decide as Hsame; intros [= <-]; rewrite app_nil_r; [done|].
    cbn [closes objects]. rewrite <- (close_socket_balance o h).
    f_equiv. apply held_move; [done| |].
    + by rewrite close_socket_other.
    + intros fd'. destruct (close_socket_self o h fd0 Ho) as (x & -> & Hx).
      by intros [= <-].
  - destruct (objects h !! o) as [fd0|] eqn:Ho; [|done].
    intros [= <-]. cbn [closes objects]. rewrite app_nil_r.
    rewrite <- (close_socket_balance o h). f_equiv.
    destruct (close_socket_self o h fd0 Ho) as (x & Hx & Hneg).
    rewrite (held_lookup _ o x Hx).
    by rewrite bool_decide_eq_false_2 by lia.
Qed.

Lemma handed_cons (op : Op) (ops : list Op) :
  handed (op :: ops) = handed [op] ++ handed ops.
Proof.
  unfold handed. change (op :: ops) with ([op] ++ ops).
  by rewrite omap_app, filter_app.
Qed.

Lemma run_balance (ops : list Op) h h' :
  run ops h = Some h' ->
  closes h' ++ held (objects h')
  ≡ₚ (closes h ++ held (objects h)) ++ handed ops.
Proof.
  revert h. induction ops as [|op ops IH]; intros h.
  - intros [= <-]. by rewrite app_nil_r.
  - cbn [run]. destruct (exec op h) as [h1|] eqn:Hexec; [|done].
    intros Hrun. rewrite (IH h1 Hrun), (exec_balance op h h1 Hexec).
    by rewrite (handed_cons op ops), !app_assoc.
Qed.

(** X28.  A descriptor is closed by the [Socket] that owns it, once.
    Whatever a program does with sockets by constructing them from
    descriptors, moving them, assigning them by move (also to themselves)
    and destroying them, the descriptors closed so far together with those
    the objects alive hold are the descriptors that were handed to
    constructors, each as often as it was handed over; [::close] is never
    called on a negative descriptor; and once every object is destroyed,
    every descriptor has been closed. *)
Theorem every_descriptor_is_closed_once (ops : list Op) (h : Heap) :
  run ops empty = Some h ->
  closes h ++ held (objects h) ≡ₚ handed ops
  /\ Forall (fun fd => 0 <= fd) (closes h)
  /\ (objects h = ∅ -> closes h ≡ₚ handed ops).
Proof.
  intros Hrun. pose proof (run_balance ops empty h Hrun) as Hb.
  cbn in Hb. split; [done|]. split.
  - assert (Hall : Forall (fun fd => 0 <= fd) (closes h ++ held (objects h))).
    { rewrite Hb. apply Forall_forall. intros fd Hin.
      by apply list_elem_of_filter in Hin as [? _]. }
    by apply Forall_app in Hall as [? _].
  - intros Hnone. rewrite Hnone in Hb. unfold held in Hb.
    rewrite map_to_list_empty in Hb. cbn in Hb.
    by rewrite app_nil_r in Hb.
Qed.

End SocketOwnerFacts.

(* ===================================================================== *)
(** * ThreadPool: the destructor on an idle pool *)
(* ===================================================================== *)

Section PoolShutdownFacts.
Import ThreadPool PoolShutdown.
Implicit Types (s : Pool) (ws : list WorkerPc) (pc : WorkerPc) (i j : nat).

Lemma sum_left_insert ws i pc pc' :
  ws !! i = Some pc ->
  (sum_list_with worker_left (<[i := pc']> ws) + worker_left pc
   = sum_list_with worker_left ws + worker_left pc')%nat.
Proof.
  revert i. induction ws as [|w ws IH]; intros [|i] Hi; try done.
  - injection Hi as ->. cbn [insert list_insert sum_list_with]. lia.
  - change (<[S i := pc']> (w :: ws)) with (w :: <[i := pc']> ws).
    cbn [sum_list_with]. specialize (IH i Hi). lia.
Qed.

Lemma sum_left_notify_all ws :
  sum_list_with worker_left
    ((fun pc => match pc with Blocked => AtLock | _ => pc end) <$> ws)
  = sum_list_with worker_left ws.
Proof.
  induction ws as [|w ws IH]; [done|]. rewrite fmap_cons.
  cbn [sum_list_with]. rewrite IH. by destruct w.
Qed.

(** A worker goes from [pc] to [pc'] while the pool winds down. *)
Lemma winding_down_move s s' i pc pc' :
  winding_down s -> workers_ s !! i = Some pc ->
  workers_ s' = <[i := pc']> (workers_ s) ->
  task_queue_ s' = task_queue_ s ->
  stop_requested_ s' = stop_requested_ s -> owner s' = owner s ->
  queue_mutex_ s'
  = (if holds pc' then Some i
     else if holds pc then None else queue_mutex_ s) ->
  (holds pc' = true -> holds pc = true \/ queue_mutex_ s = None) ->
  pc <> Blocked ->
  match pc' with
  | AtPredicate | AtCheck | Exited => True
  | _ => False
  end ->
  winding_down s'.
Proof.
  intros [Hq Hstop Hw Hm Hj] Hi Hws Hqueue Hstop' Howner Hmutex Hlock
    Hpc Hpc'.
  assert (Hlook : forall j, workers_ s' !! j
                            = if decide (i = j) then Some pc'
                              else workers_ s !! j).
  { intros j. rewrite Hws. by eapply lookup_moved. }
  assert (Hgone : owner s <> Alive /\ owner s <> AtNotifyAll).
  { specialize (Hw i pc Hi). by destruct pc. }
  split.
  - by rewrite Hqueue.
  - rewrite Howner, Hstop'. apply Hstop.
  - intros j pc0. rewrite Hlook, Howner.
    destruct (decide (i = j)) as [<-|Hne]; [|apply Hw].
    intros [= <-]. by destruct pc'.
  - intros j. rewrite Hlook, Hmutex. pose proof (Hm i) as Hmi.
    specialize (Hm j).
    destruct (decide (i = j)) as [<-|Hne].
    + destruct (holds pc') eqn:Hh'.
      * split; [by exists pc'|done].
      * split.
        -- destruct (holds pc) eqn:Hh; [done|]. intros Hj'.
           apply Hmi in Hj' as (pc0 & Hpc0 & Hh0). congruence.
        -- intros (pc0 & Hpc0 & Hh0). congruence.
    + rewrite <- Hm. destruct (holds pc') eqn:Hh'.
      * destruct (Hlock eq_refl) as [Hh|Hnone].
        -- assert (queue_mutex_ s = Some i) as -> by (apply Hmi; eauto).
           split; congruence.
        -- rewrite Hnone. split; congruence.
      * destruct (holds pc) eqn:Hh; [|done].
        assert (queue_mutex_ s = Some i) as -> by (apply Hmi; eauto).
        split; congruence.
  - intros k. rewrite Howner, Hws, length_insert. apply Hj.
Qed.

Lemma steps_left_move s s' i pc pc' :
  workers_ s !! i = Some pc ->
  workers_ s' = <[i := pc']> (workers_ s) -> owner s' = owner s ->
  S (worker_left pc') = worker_left pc ->
  S (steps_left s') = steps_left s.
Proof.
  intros Hi Hws Howner Hleft. unfold steps_left.
  rewrite Hws, Howner, length_insert.
  pose proof (sum_left_insert (workers_ s) i pc pc' Hi). lia.
Qed.

(** A turn of a worker either changes nothing or takes one of the steps
    that are left. *)
Lemma worker_turn_winds_down i s :
  winding_down s ->
  winding_down (worker_loop_step i s)
  /\ (worker_loop_step i s = s
      \/ S (steps_left (worker_loop_step i s)) = steps_left s).
Proof.
  intros Hwd. unfold worker_loop_step.
  destruct (workers_ s !! i) as [pc|] eqn:Hi; [|by split; [|left]].
  pose proof (wd_workers s Hwd i pc Hi) as Hshape.
  destruct pc; try done; try (by split; [|left]).
  - destruct (queue_mutex_ s) eqn:Hmx; [by split; [|left]|]. split.
    + eapply (winding_down_move s _ i AtLock AtPredicate); try done.
      by right.
    + right. by eapply (steps_left_move s _ i AtLock AtPredicate).
  - rewrite (wd_stop s Hwd) by apply Hshape. cbn [orb].
    assert (Hmx : queue_mutex_ s = Some i)
      by (apply (wd_mutex s Hwd i); eauto).
    split.
    + eapply (winding_down_move s _ i AtPredicate AtCheck); try done.
      by left.
    + right. by eapply (steps_left_move s _ i AtPredicate AtCheck).
  - rewrite (wd_stop s Hwd) by apply Hshape.
    rewrite (wd_queue s Hwd). cbn [andb].
    rewrite bool_decide_eq_true_2 by done. split.
    + eapply (winding_down_move s _ i AtCheck Exited); try done.
    + right. by eapply (steps_left_move s _ i AtCheck Exited).
Qed.

(** So does a turn of the owner. *)
Lemma owner_turn_winds_down s :
  winding_down s ->
  winding_down (destructor_step s)
  /\ (destructor_step s = s
      \/ S (steps_left (destructor_step s)) = steps_left s).
Proof.
  intros Hwd. pose proof Hwd as [Hq Hstop Hw Hm Hj]. unfold destructor_step.
  destruct (owner s) eqn:Howner.
  - split.
    + split; cbn; try done.
      intros i pc Hi. specialize (Hw i pc Hi).
      destruct pc; try done; try (by destruct Hw). by right.
    + right. unfold steps_left. cbn. rewrite Howner. cbn. lia.
  - split.
    + split; cbn; try done.
      * intros _. by apply Hstop.
      * intros i pc. rewrite list_lookup_fmap.
        destruct (workers_ s !! i) as [pc0|] eqn:Hi; [|done].
        cbn. intros [= <-]. specialize (Hw i pc0 Hi).
        destruct pc0; try done; by destruct Hw.
      * intros i. rewrite Hm, list_lookup_fmap. split.
        -- intros (pc & -> & Hh). exists pc. by destruct pc.
        -- intros (pc & Hpc & Hh).
           destruct (workers_ s !! i) as [pc0|]; [|done]. exists pc0.
           split; [done|]. cbn in Hpc. injection Hpc as <-. by destruct pc0.
      * intros k [= <-]. lia.
    + right. unfold steps_left. cbn. rewrite Howner, length_fmap.
      rewrite sum_left_notify_all. cbn. lia.
  - pose proof (Hj i eq_refl) as Hle.
    destruct (workers_ s !! i) as [pc|] eqn:Hi.
    + destruct pc; try (split; [exact Hwd|by left]).
      apply lookup_lt_Some in Hi. split.
      * split; cbn; try done.
        -- intros _. by apply Hstop.
        -- intros j pc Hjpc. specialize (Hw j pc Hjpc).
           destruct pc; try done; destruct Hw as [?|?]; done.
        -- intros k [= <-]. lia.
      * right. unfold steps_left. cbn. rewrite Howner. cbn. lia.
    + split.
      * split; cbn; try done.
        -- intros _. by apply Hstop.
        -- intros j pc Hjpc. specialize (Hw j pc Hjpc).
           destruct pc; try done; destruct Hw as [?|?]; done.
      * right. unfold steps_left. cbn. rewrite Howner. cbn.
        apply lookup_ge_None in Hi. lia.
  - split; [exact Hwd|by left].
Qed.

Lemma turn_winds_down (e : Event) s :
  is_turn e = true -> winding_down s ->
  winding_down (step e s)
  /\ (step e s = s \/ S (steps_left (step e s)) = steps_left s).
Proof.
  destruct e; try done; intros _; cbn [step].
  - apply worker_turn_winds_down.
  - apply owner_turn_winds_down.
Qed.

Lemma turns_wind_down (sched : list Event) s :
  forallb is_turn sched = true -> winding_down s ->
  winding_down (run sched s)
  /\ (steps_left (run sched s) <= steps_left s)%nat.
Proof.
  revert s. induction sched as [|e sched IH]; intros s Hsched Hwd;
    [by split|].
  cbn in Hsched. apply andb_true_iff in Hsched as [He Hsched].
  destruct (turn_winds_down e s He Hwd) as [Hwd' Hstep].
  destruct (IH (step e s) Hsched Hwd') as [Hwd'' Hle].
  split; [done|]. cbn [run]. destruct Hstep as [Hsame|Hless].
  - by rewrite Hsame in Hle |- *.
  - lia.
Qed.

(** If one of the turns of a schedule is not in vain where the schedule
    begins, the schedule takes a step. *)
Lemma schedule_takes_a_step (sched : list Event) (e : Event) s :
  forallb is_turn sched = true -> winding_down s ->
  e ∈ sched -> (steps_left (step e s) < steps_left s)%nat ->
  (steps_left (run sched s) < steps_left s)%nat.
Proof.
  revert s. induction sched as [|e1 sched IH]; intros s Hsched Hwd Hin Hless.
  { by apply elem_of_nil in Hin. }
  cbn in Hsched. apply andb_true_iff in Hsched as [He1 Hsched].
  destruct (turn_winds_down e1 s He1 Hwd) as [Hwd' Hstep].
  cbn [run]. destruct Hstep as [Hsame|Hstep].
  - rewrite Hsame. apply IH; try done.
    apply elem_of_cons in Hin as [->|Hin]; [|done].
    rewrite Hsame in Hless. lia.
  - destruct (turns_wind_down sched (step e1 s) Hsched Hwd') as [_ Hle]. lia.
Qed.

(** While the destructor has not returned, some thread can take a
    step. *)
Lemma some_thread_can_move s :
  winding_down s -> owner s <> Returned ->
  exists e, e ∈ round (length (workers_ s))
            /\ (steps_left (step e s) < steps_left s)%nat.
Proof.
  intros Hwd Hrun.
  assert (Howner_in : OwnerTurn ∈ round (length (workers_ s))).
  { unfold round. apply elem_of_app. right. apply list_elem_of_here. }
  assert (Hworker_in : forall i pc, workers_ s !! i = Some pc ->
                                    WorkerTurn i ∈ round (length (workers_ s))).
  { intros i pc Hi. unfold round. apply elem_of_app. left.
    apply list_elem_of_fmap. exists i. split; [done|].
    apply elem_of_seq. apply lookup_lt_Some in Hi. lia. }
  assert (Hmove : forall e, step e s <> s -> is_turn e = true ->
                            (steps_left (step e s) < steps_left s)%nat).
  { intros e Hne He. destruct (turn_winds_down e s He Hwd) as [_ [?|?]];
      [done|lia]. }
  assert (Hholder : forall i pc, workers_ s !! i = Some pc ->
                                 holds pc = true ->
                                 (steps_left (step (WorkerTurn i) s)
                                  < steps_left s)%nat).
  { intros i pc Hi Hh.
    destruct (worker_turn_winds_down i s Hwd) as [_ [Hsame|Hless]];
      [|cbn [step]; lia].
    exfalso. pose proof (wd_workers s Hwd i pc Hi) as Hshape.
    unfold worker_loop_step in Hsame. rewrite Hi in Hsame.
    assert (Hdiff : forall pc', pc' <> pc ->
              with_worker i pc' s <> s
              /\ with_worker i pc' (with_mutex None s) <> s).
    { intros pc' Hpc'. split; intros Heq;
        apply (f_equal (fun x => workers_ x !! i)) in Heq; cbn in Heq;
        rewrite list_lookup_insert_eq in Heq
          by (by eapply lookup_lt_Some); congruence. }
    destruct pc; try done.
    - rewrite (wd_stop s Hwd) in Hsame by apply Hshape. cbn [orb] in Hsame.
      destruct (Hdiff AtCheck ltac:(done)) as [Hd _]. by apply Hd.
    - rewrite (wd_stop s Hwd), (wd_queue s Hwd) in Hsame by apply Hshape.
      cbn in Hsame. destruct (Hdiff Exited ltac:(done)) as [_ Hd].
      by apply Hd. }
  destruct (owner s) as [| |k|] eqn:Howner; try done.
  - exists OwnerTurn. split; [done|]. apply Hmove; [|done].
    cbn. unfold destructor_step. rewrite Howner. intros Heq.
    apply (f_equal owner) in Heq. cbn in Heq. congruence.
  - exists OwnerTurn. split; [done|]. apply Hmove; [|done].
    cbn. unfold destructor_step. rewrite Howner. intros Heq.
    apply (f_equal owner) in Heq. cbn in Heq. congruence.
  - destruct (workers_ s !! k) as [pc|] eqn:Hk.
    2:{ exists OwnerTurn. split; [done|]. apply Hmove; [|done].
        cbn. unfold destructor_step. rewrite Howner, Hk. intros Heq.
        apply (f_equal owner) in Heq. cbn in Heq. congruence. }
    pose proof (wd_workers s Hwd k pc Hk) as Hshape. rewrite Howner in Hshape.
    destruct pc; try done.
    + destruct (queue_mutex_ s) as [holder|] eqn:Hmx.
      * apply (wd_mutex s Hwd) in Hmx as Hholds.
        destruct Hholds as (pc & Hpc & Hh).
        exists (WorkerTurn holder). split; [by eapply Hworker_in|].
        by eapply Hholder.
      * exists (WorkerTurn k). split; [by eapply Hworker_in|].
        apply Hmove; [|done]. cbn. unfold worker_loop_step.
        rewrite Hk, Hmx. intros Heq. apply (f_equal queue_mutex_) in Heq.
        cbn in Heq. congruence.
    + exists (WorkerTurn k). split; [by eapply Hworker_in|].
      by eapply Hholder.
    + destruct Hshape as [?|?]; done.
    + exists (WorkerTurn k). split; [by eapply Hworker_in|].
      by eapply Hholder.
    + exists OwnerTurn. split; [done|]. apply Hmove; [|done].
      cbn. unfold destructor_step. rewrite Howner, Hk. intros Heq.
      apply (f_equal owner) in Heq. cbn in Heq. rewrite Howner in Heq.
      injection Heq. lia.
Qed.

Lemma round_turns (num_threads : nat) :
  forallb is_turn (round num_threads) = true.
Proof.
  unfold round. rewrite forallb_app. apply andb_true_iff. split; [|done].
  induction (seq 0 num_threads) as [|i l IH]; [done|]. by cbn.
Qed.

Lemma rounds_turns (k num_threads : nat) :
  forallb is_turn (rounds k num_threads) = true.
Proof.
  induction k as [|k IH]; [done|]. cbn [rounds].
  rewrite forallb_app, round_turns, IH. done.
Qed.

Lemma returned_stays (sched : list Event) s :
  owner s = Returned -> forallb is_turn sched = true ->
  owner (run sched s) = Returned.
Proof.
  revert s. induction sched as [|e sched IH]; intros s Hret Hsched; [done|].
  cbn in Hsched. apply andb_true_iff in Hsched as [He Hsched].
  cbn [run]. apply IH; [|done]. destruct e; try done; cbn [step].
  - pose proof (step_alive (WorkerTurn i) s eq_refl) as Hsame.
    cbn [step] in Hsame. by rewrite Hsame.
  - unfold destructor_step. by rewrite Hret.
Qed.

(** Round after round, the pool winds down. *)
Lemma rounds_return (k : nat) s :
  winding_down s -> (steps_left s <= k)%nat ->
  owner (run (rounds k (length (workers_ s))) s) = Returned.
Proof.
  revert s. induction k as [|k IH]; intros s Hwd Hle.
  - cbn. unfold steps_left in Hle. pose proof (wd_join s Hwd) as Hj.
    destruct (owner s) as [| |j|] eqn:Howner; cbn in Hle; try lia; [|done].
    specialize (Hj j eq_refl). lia.
  - cbn [rounds]. rewrite run_app.
    assert (owner s = Returned \/ owner s <> Returned) as [Hret|Hrun]
      by (destruct (owner s); auto).
    { apply returned_stays; [|apply rounds_turns].
      apply returned_stays; [done|apply round_turns]. }
    destruct (some_thread_can_move s Hwd Hrun) as (e & Hin & Hless).
    pose proof (schedule_takes_a_step _ e s (round_turns _) Hwd Hin Hless)
      as Hround.
    destruct (turns_wind_down _ s (round_turns (length (workers_ s))) Hwd)
      as [Hwd' _].
    set (s' := run (round (length (workers_ s))) s) in *.
    assert (Hlen : length (workers_ s') = length (workers_ s))
      by apply run_length.
    rewrite <- Hlen. apply IH; [done|lia].
Qed.

Lemma sum_left_blocked (num_threads : nat) :
  sum_list_with worker_left (replicate num_threads Blocked)
  = (3 * num_threads)%nat.
Proof.
  induction num_threads as [|n IH]; [done|]. cbn [replicate sum_list_with].
  rewrite IH. cbn [worker_left]. lia.
Qed.

Lemma turns_push_nothing (sched : list Event) :
  forallb is_turn sched = true ->
  forallb (fun e => negb (is_push e)) sched = true.
Proof.
  induction sched as [|e sched IH]; [done|]. cbn.
  intros [He Hsched]%andb_true_iff. rewrite IH by done. by destruct e.
Qed.

(** X29.  Called on an idle pool, the destructor returns.  When every
    worker is blocked in [wait(lock)] and the queue is empty at the call,
    and the workers and the owner then take turns one after the other,
    the destructor has returned after [4 * num_threads + 3] rounds at the
    latest; every worker has then returned, and the tasks whose call has
    returned are the tasks pushed. *)
Theorem destructor_returns_on_an_idle_pool (num_threads : nat)
    (before : list Event) :
  forallb (fun e => negb (is_owner_turn e)) before = true ->
  let s0 := run before (create num_threads) in
  workers_ s0 = replicate num_threads Blocked -> task_queue_ s0 = [] ->
  let s := run (rounds (4 * num_threads + 3) num_threads) s0 in
  owner s = Returned
  /\ (forall i pc, workers_ s !! i = Some pc -> pc = Exited)
  /\ finished s ≡ₚ submitted s.
Proof.
  intros Hbefore s0 Hws Hqueue s.
  assert (Hinv0 : invariant s0) by apply run_invariant, create_invariant.
  assert (Halive : owner s0 = Alive) by (by apply run_alive).
  assert (Hblocked : forall i pc, workers_ s0 !! i = Some pc -> pc = Blocked).
  { intros i pc. rewrite Hws. by intros [-> _]%lookup_replicate. }
  assert (Hlen : length (workers_ s0) = num_threads)
    by (by rewrite Hws, length_replicate).
  assert (Hwd0 : winding_down s0).
  { split; try done.
    - intros i pc Hi. rewrite (Hblocked i pc Hi). by left.
    - apply (inv_mutex s0 Hinv0).
    - intros k. by rewrite Halive. }
  assert (Hsd0 : shutting_down s0).
  { split; [done| |].
    - intros i Hi. by apply Hblocked in Hi.
    - intros i pc _. by rewrite Halive. }
  assert (Hleft : steps_left s0 = (4 * num_threads + 3)%nat).
  { unfold steps_left. rewrite Halive, Hws, length_replicate.
    rewrite sum_left_blocked. cbn [owner_left]. lia. }
  pose proof (rounds_return (4 * num_threads + 3) s0 Hwd0 ltac:(lia)) as Hret.
  rewrite Hlen in Hret. fold s in Hret.
  pose proof (rounds_turns (4 * num_threads + 3) num_threads) as Hturns.
  destruct (turns_wind_down _ s0 Hturns Hwd0) as [Hwd _]. fold s in Hwd.
  pose proof (run_shutting_down _ s0 (turns_push_nothing _ Hturns) Hsd0)
    as [Hinv _ Hjoined]. fold s in Hinv, Hjoined.
  assert (Hall : forall i pc, workers_ s !! i = Some pc -> pc = Exited).
  { intros i pc Hi. specialize (Hjoined i pc Hi). by rewrite Hret in Hjoined. }
  split; [done|]. split; [done|].
  pose proof (inv_running s Hinv) as Hr. pose proof (inv_queue s Hinv) as Hq.
  rewrite running_exited, app_nil_r in Hr by done.
  rewrite (wd_queue s Hwd), app_nil_r in Hq. by rewrite Hr, Hq.
Qed.

End PoolShutdownFacts.

(* ===================================================================== *)
(** * A TTL over the wire *)
(* ===================================================================== *)

Section TtlOverTheWire.
Import Stdlib.Strings.Ascii Text HttpRequest Router KvHandler Application.
Import Chrono KeyValueStore.
Context `{!ThreadSafeHashMap.IterationOrder string KeyValueStore.StoreEntry}.
Context `{!ThreadSafeHashMap.IterationOrder string string}.

Lemma all_digits_pretty_N_go (x : N) (s : string) :
  all_chars isdigit s = true -> all_chars isdigit (pretty_N_go x s) = true.
Proof.
  revert s. induction (N.lt_wf_0 x) as [x _ IH]; intros s Hs.
  destruct (N.eq_0_gt_0_cases x) as [->|Hx]; [by rewrite pretty_N_go_0|].
  rewrite pretty_N_go_step by done. apply IH; [by apply N.div_lt|].
  cbn [all_chars]. rewrite Hs.
  destruct (pretty_N_char_digit (x `mod` 10)%N) as [-> _]; [|done].
  by apply N.mod_lt.
Qed.

Lemma digits_make_a_plain_value (v : string) :
  all_chars isdigit v = true ->
  all_chars (fun c => negb (Ascii.eqb c "010")) v = true
  /\ skip_spaces v = v.
Proof.
  intros Hv. split.
  - induction v as [|c v IH]; [done|]. cbn [all_chars] in *.
    apply andb_true_iff in Hv as [Hc Hv]. rewrite IH by done.
    destruct (isdigit_not_space c Hc) as (Hsp & _ & _).
    destruct (Ascii.eqb c "010") eqn:Hlf; [|done].
    apply eqb_lf_isspace in Hlf. congruence.
  - destruct v as [|c v]; [done|]. cbn [all_chars] in Hv.
    apply andb_true_iff in Hv as [Hc _].
    destruct (isdigit_not_space c Hc) as (Hsp & _ & _).
    cbn [skip_spaces]. destruct (Ascii.eqb c " ") eqn:Hspace; [|done].
    apply Ascii.eqb_eq in Hspace. subst c. done.
Qed.

Lemma ttl_header_is_plain (n : Z) :
  0 < n -> plain_header ("X-TTL", pretty n).
Proof.
  intros Hn. destruct n as [|p|p]; try done.
  assert (Hd : all_chars isdigit (pretty (Z.pos p)) = true)
    by (by apply (all_digits_pretty_N_go (N.pos p) "")).
  destruct (digits_make_a_plain_value _ Hd) as [Hlf Hsp].
  split; [done|]. by split.
Qed.

(** X30.  A TTL over the wire.  A PUT whose last header is [X-TTL: n],
    with [n] a positive [int], is answered 201; a GET of the key is
    answered 200 with the value when the clock, read by the GET, stands
    less than [n] seconds after the reading taken by the PUT, and 404
    otherwise, and the key is then gone from the store. *)
Theorem a_ttl_over_the_wire (key value : string) (n : Z)
    (hs hs' : list (string * string)) (st : State) :
  is_word key -> 0 < n <= 2147483647 ->
  Forall plain_header hs -> Forall plain_header hs' ->
  let target := "/kv/" +:+ key in
  let answer response := Some (HttpResponse.build response) in
  let put := handle_connection
               (HttpResponse.request_text "PUT" target "HTTP/1.1"
                  (hs ++ [("X-TTL", pretty n)]) value) st in
  let get := handle_connection
               (HttpResponse.request_text "GET" target "HTTP/1.1" hs' "")
               put.2 in
  let put_at := fst (now (clock st)) in
  let get_at := fst (now (clock put.2)) in
  put.1 = answer (HttpResponse.body HttpResponse.created "OK")
  /\ put_at <= get_at
  /\ (get_at < put_at + seconds n ->
      get.1 = answer (HttpResponse.body HttpResponse.ok value))
  /\ (put_at + seconds n <= get_at ->
      get.1 = answer (HttpResponse.body HttpResponse.not_found
                        ("Key not found: " +:+ key))
      /\ store_ get.2 !! key = None).
Proof.
  intros Hkey Hn Hhs Hhs' target answer put get put_at get_at.
  assert (Hne : key <> "") by apply Hkey.
  assert (Hput : put = (answer (HttpResponse.body HttpResponse.created "OK"),
                        set key value n st)).
  { subst put.
    rewrite (handle_connection_parsed _ _ st
               (parse_request_text "PUT" target "HTTP/1.1"
                  (hs ++ [("X-TTL", pretty n)]) value
                  ltac:(split; [discriminate|reflexivity])
                  (is_word_target key Hkey)
                  ltac:(split; [discriminate|reflexivity])
                  ltac:(apply Forall_app; split;
                        [done|by apply Forall_singleton, ttl_header_is_plain;
                              lia]))).
    rewrite (route_key _ key) by done.
    change (string_to_method "PUT") with PUT. cbv iota.
    rewrite put_key_stores by done. cbn [fst snd HttpRequest.body_].
    f_equal. f_equal. unfold ttl_of, get_header. cbn [HttpRequest.headers_].
    rewrite foldl_app. cbn [foldl fst snd].
    change (to_lower "X-TTL") with "x-ttl". rewrite lookup_insert_eq.
    rewrite <- (app_empty_r (pretty n)), stoi_decimal by done.
    by rewrite bool_decide_eq_true_2 by lia. }
  assert (Hst1 : put.2
                 = {| store_ := <[key := mk_entry value
                                           (Some (put_at + seconds n))]>
                                  (store_ st);
                      clock := snd (now (clock st)) |}).
  { rewrite Hput. cbn [snd]. rewrite set_unfold.
    by rewrite (calculate_expiry_some n) by lia. }
  assert (Hget : get
                 = (answer (route router_
                              {| method_ := GET; path_ := target;
                                 HttpRequest.body_ := "";
                                 HttpRequest.headers_ :=
                                   foldl (fun h nv => <[to_lower nv.1 := nv.2]> h)
                                     ∅ hs' |} put.2).1,
                    (route router_
                       {| method_ := GET; path_ := target;
                          HttpRequest.body_ := "";
                          HttpRequest.headers_ :=
                            foldl (fun h nv => <[to_lower nv.1 := nv.2]> h)
                              ∅ hs' |} put.2).2)).
  { subst get.
    by rewrite (handle_connection_parsed _ _ put.2
                  (parse_request_text "GET" target "HTTP/1.1" hs' ""
                     ltac:(split; [discriminate|reflexivity])
                     (is_word_target key Hkey)
                     ltac:(split; [discriminate|reflexivity]) Hhs')). }
  rewrite (route_key _ key) in Hget by done. cbv iota in Hget.
  assert (Hlook : store_ put.2 !! key
                  = Some (mk_entry value (Some (put_at + seconds n)))).
  { rewrite Hst1. apply lookup_insert_eq. }
  assert (Hgk : get_key
                  {| method_ := GET; path_ := target; HttpRequest.body_ := "";
                     HttpRequest.headers_ :=
                       foldl (fun h nv => <[to_lower nv.1 := nv.2]> h) ∅ hs' |}
                  {| path_suffix := key |} put.2
                = if bool_decide (put_at + seconds n <= get_at)
                  then (HttpResponse.body HttpResponse.not_found
                          ("Key not found: " +:+ key),
                        {| store_ := delete key (store_ put.2);
                           clock := snd (now (clock put.2)) |})
                  else (HttpResponse.body HttpResponse.ok value,
                        {| store_ := store_ put.2;
                           clock := snd (now (clock put.2)) |})).
  { unfold get_key. cbn [path_suffix]. destruct key as [|c key]; [done|].
    rewrite get_unfold, Hlook. unfold Timing.expired_at, is_expired.
    cbn [expires_at KeyValueStore.value]. fold get_at.
    destruct (now (clock put.2)) as [t c'] eqn:Hnow. cbn [fst snd] in *.
    by case_bool_decide. }
  rewrite Hgk in Hget. clear Hgk.
  split; [by rewrite Hput|]. split.
  { subst get_at put_at. rewrite Hst1. cbn [clock].
    rewrite <- (now_reading (clock st)) at 1. apply now_monotone. }
  split.
  - intros Hlt. rewrite Hget. by rewrite bool_decide_eq_false_2 by lia.
  - intros Hle. rewrite Hget. rewrite bool_decide_eq_true_2 by done.
    cbn [fst snd store_]. split; [done|]. apply lookup_delete_eq.
Qed.

End TtlOverTheWire.

(* ===================================================================== *)
(** * Instances: the HTTP layer, the sockets and the pool *)
(* ===================================================================== *)

Section HttpInstances.
Import Stdlib.Strings.Ascii Text HttpRequest.
Local Existing Instance ThreadSafeHashMap.canonical.

(** A PUT with an [X-TTL] header, asked for as [X-Ttl]. *)
Lemma parsed_headers_are_found_in_any_case_witness :
  get_header
    {| method_ := PUT; path_ := "/kv/a"; body_ := "v";
       headers_ := <["x-ttl" := "60"]> ∅ |} "X-Ttl" = Some "60".
Proof.
  refine (proj2 (parsed_headers_are_found_in_any_case
                   (HttpResponse.request_text "PUT" "/kv/a" "HTTP/1.1"
                      [("X-TTL", "60")] "v")
                   _ _ "x-ttl" "60" _) "X-Ttl" _).
  - vm_compute. reflexivity.
  - reflexivity.
  - reflexivity.
Defined.

(** A PUT with two headers and a body of two lines. *)
Lemma parse_reads_back_a_written_request_witness :
  parse (HttpResponse.request_text "PUT" "/kv/a" "HTTP/1.1"
           [("X-TTL", "60"); ("Host", "localhost")]
           (String "v" (String "010" "w")))
  = Some {| method_ := PUT; path_ := "/kv/a";
            body_ := String "v" (String "010" "w");
            headers_ := <["host" := "localhost"]> (<["x-ttl" := "60"]> ∅) |}.
Proof.
  apply (parse_reads_back_a_written_request "PUT" "/kv/a" "HTTP/1.1"
           [("X-TTL", "60"); ("Host", "localhost")]
           (String "v" (String "010" "w"))).
  - split; [discriminate|reflexivity].
  - split; [discriminate|reflexivity].
  - split; [discriminate|reflexivity].
  - repeat constructor.
Defined.

End HttpInstances.

Section HandlerInstances.
Import Stdlib.Strings.Ascii Text HttpRequest Router KvHandler Application.
Import Chrono KeyValueStore SocketIO.
Local Existing Instance ThreadSafeHashMap.canonical.

(** [X-TTL: 60s] on a PUT of the key "a". *)
Lemma put_key_reads_the_ttl_header_witness :
  put_key {| method_ := PUT; path_ := "/kv/a"; HttpRequest.body_ := "v";
             HttpRequest.headers_ := <["x-ttl" := "60s"]> ∅ |}
    {| path_suffix := "a" |} (Scenario.fresh [5%N])
  = (HttpResponse.body HttpResponse.created "OK",
     KeyValueStore.set "a" "v" 60 (Scenario.fresh [5%N])).
Proof.
  refine (proj1 (put_key_reads_the_ttl_header
                   {| method_ := PUT; path_ := "/kv/a";
                      HttpRequest.body_ := "v";
                      HttpRequest.headers_ := <["x-ttl" := "60s"]> ∅ |}
                   "a" (Scenario.fresh [5%N]) _) 60 "s" _ _).
  - discriminate.
  - vm_compute. reflexivity.
  - reflexivity.
Defined.

(** The key "a" with the value "v", every request with a [Host] header. *)
Lemma kv_lifecycle_over_the_wire_witness :
  let ask method_str payload :=
    HttpResponse.request_text method_str ("/kv/" +:+ "a") "HTTP/1.1"
      [("Host", "localhost")] payload in
  let answer response := Some (HttpResponse.build response) in
  let st := Scenario.fresh [] in
  let st1 := {| store_ := <["a" := mk_entry "v" None]> (store_ st);
                clock := clock st |} in
  let st2 := {| store_ := delete "a" (store_ st); clock := clock st |} in
  handle_connection (ask "PUT" "v") st
  = (answer (HttpResponse.body HttpResponse.created "OK"), st1)
  /\ handle_connection (ask "GET" "") st1
     = (answer (HttpResponse.body HttpResponse.ok "v"), st1)
  /\ handle_connection (ask "DELETE" "") st1
     = (answer (HttpResponse.body HttpResponse.ok ("Deleted: " +:+ "a")),
        st2)
  /\ handle_connection (ask "GET" "") st2
     = (answer (HttpResponse.body HttpResponse.not_found
                  ("Key not found: " +:+ "a")), st2).
Proof.
  apply (kv_lifecycle_over_the_wire "a" "v" [("Host", "localhost")]
           (Scenario.fresh [])).
  - split; [discriminate|reflexivity].
  - repeat constructor.
  - repeat constructor. vm_compute. discriminate.
Defined.

(** Of the value "hello world", [recv] returns the first five bytes. *)
Lemma a_long_put_is_cut_at_the_buffer_witness :
  handle_connection
    (read_all (HttpResponse.request_text "PUT" ("/kv/" +:+ "a") "HTTP/1.1" []
                 "hello world") 27) (Scenario.fresh [])
  = (Some (HttpResponse.build (HttpResponse.body HttpResponse.created "OK")),
     {| store_ := <["a" := mk_entry "hello" None]>
                    (store_ (Scenario.fresh []));
        clock := clock (Scenario.fresh []) |}).
Proof.
  refine (proj1 (a_long_put_is_cut_at_the_buffer "a" "hello world" [] 27
                   (Scenario.fresh []) _ _ _ _)).
  - split; [discriminate|reflexivity].
  - constructor.
  - constructor.
  - vm_compute. split; discriminate.
Defined.

(** [send] takes two bytes at a time. *)
Lemma write_all_sends_a_prefix_witness :
  let r := write_all (fun _ len => Z.min 2 (Z.of_nat len)) "hello" 10 in
  (exists unsent, "hello" = r.2 +:+ unsent
                  /\ (r.1 = Returned true -> unsent = "")
                  /\ (r.1 = Returned false -> unsent <> ""))
  /\ ((forall i len : nat, (0 < len)%nat -> Z.min 2 (Z.of_nat len) <> 0) ->
      (String.length "hello" < 10)%nat -> r.1 <> StillSending).
Proof.
  apply (write_all_sends_a_prefix (fun _ len => Z.min 2 (Z.of_nat len))
           "hello" 10).
  intros i len. cbv beta. lia.
Defined.

End HandlerInstances.

Section PoolInstances.
Import ThreadPool.

(** Two workers run three tasks; then the pool is destroyed. *)
Lemma shutdown_drains_the_queue_witness :
  let s := run (busy_day ++ closing_time) (create 2) in
  task_queue_ s = []
  /\ finished s ≡ₚ submitted s
  /\ (forall i pc, workers_ s !! i = Some pc -> pc = Exited).
Proof.
  apply (shutdown_drains_the_queue 2 busy_day closing_time).
  - lia.
  - reflexivity.
  - reflexivity.
  - reflexivity.
Defined.

(** Two workers; after the race the threads take a few more turns. *)
Lemma destructor_can_wait_forever_witness :
  let s := run (lost_wakeup
                  ++ [WorkerTurn 0; OwnerTurn; WorkerTurn 1; WorkerTurn 1;
                      WorkerTurn 1; OwnerTurn])
             (create 2) in
  owner s = AtJoin 0
  /\ workers_ s !! 0%nat = Some Blocked
  /\ stop_requested_ s = true.
Proof.
  apply (destructor_can_wait_forever 1
           [WorkerTurn 0; OwnerTurn; WorkerTurn 1; WorkerTurn 1;
            WorkerTurn 1; OwnerTurn]).
  reflexivity.
Defined.

End PoolInstances.

Section SocketOwnerInstances.
Import SocketOwner.

(** Two connections, one after the other, the second on the descriptor
    the first has given back. *)
Lemma every_descriptor_is_closed_once_witness :
  closes {| objects := ∅; closes := [5; 5] |}
    ++ held (objects {| objects := ∅; closes := [5; 5] |})
  ≡ₚ handed (connection 5 ++ connection 5)
  /\ Forall (fun fd => 0 <= fd) (closes {| objects := ∅; closes := [5; 5] |})
  /\ (objects {| objects := ∅; closes := [5; 5] |} = ∅ ->
      closes {| objects := ∅; closes := [5; 5] |}
      ≡ₚ handed (connection 5 ++ connection 5)).
Proof.
  apply (every_descriptor_is_closed_once (connection 5 ++ connection 5)).
  vm_compute. reflexivity.
Defined.

End SocketOwnerInstances.

Section PoolShutdownInstances.
Import ThreadPool PoolShutdown.

(** Two workers that have run a task and gone back to sleep. *)
Lemma destructor_returns_on_an_idle_pool_witness :
  let s := run (rounds (4 * 2 + 3) 2) (run quiet_day (create 2)) in
  owner s = Returned
  /\ (forall i pc, workers_ s !! i = Some pc -> pc = Exited)
  /\ finished s ≡ₚ submitted s.
Proof.
  apply (destructor_returns_on_an_idle_pool 2 quiet_day).
  - reflexivity.
  - reflexivity.
  - reflexivity.
Defined.

End PoolShutdownInstances.

Section TtlInstances.
Import Stdlib.Strings.Ascii Text HttpRequest Router KvHandler Application.
Import Chrono KeyValueStore.
Local Existing Instance ThreadSafeHashMap.canonical.

(** The key "a" is put for a minute at tick 5 and read 1000 ticks later. *)
Lemma a_ttl_over_the_wire_witness :
  let st := Scenario.fresh [5%N; 1000%N] in
  let target := "/kv/" +:+ "a" in
  let answer response := Some (HttpResponse.build response) in
  let put := handle_connection
               (HttpResponse.request_text "PUT" target "HTTP/1.1"
                  ([] ++ [("X-TTL", pretty 60)]) "v") st in
  let get := handle_connection
               (HttpResponse.request_text "GET" target "HTTP/1.1" [] "")
               put.2 in
  let put_at := fst (now (clock st)) in
  let get_at := fst (now (clock put.2)) in
  put.1 = answer (HttpResponse.body HttpResponse.created "OK")
  /\ put_at <= get_at
  /\ (get_at < put_at + seconds 60 ->
      get.1 = answer (HttpResponse.body HttpResponse.ok "v"))
  /\ (put_at + seconds 60 <= get_at ->
      get.1 = answer (HttpResponse.body HttpResponse.not_found
                        ("Key not found: " +:+ "a"))
      /\ store_ get.2 !! "a" = None).
Proof.
  apply (a_ttl_over_the_wire "a" "v" 60 [] [] (Scenario.fresh [5%N; 1000%N])).
  - split; [discriminate|reflexivity].
  - lia.
  - constructor.
  - constructor.
Defined.

End TtlInstances.
